(** * mkctx: file tree, interaction state machine and Markdown assembly

    A shallow embedding of [main.go] and the properties of its tree
    builder, its key-event state machine and its Markdown writer.

    - Go's [int] and [int64] are 64-bit two's-complement integers: [Z] with
      the wrap-around written out ([wrap64]).
    - Go strings are byte strings ([string]); byte slices are [list byte].
    - A [panic] is the [None] of an [option] result.
    - The nodes form a tree that only [buildTree] shapes; a [*node] kept
      outside it is the position of the node in the tree ([ptr]), and an
      assignment through the pointer rewrites the tree at that position
      ([store]), so every holder of the pointer sees it.
    - The machine around the program (the files, the [file] command) is a
      record of functions ([world]); [sort.Slice], [sort.Strings] and the
      functions of [strings] and [path/filepath] are modelled after their
      documentation, for the separator [/].  [strings.ToLower] is modelled
      on ASCII strings ([isASCII]), where it does not go through the Unicode
      tables of the Go release; the properties that depend on the language
      tag of a file name are stated for names with an ASCII extension.
    - [float64] is the binary64 of the kernel ([PrimFloat]), so the share
      test of [isBinary] is computed as the machine computes it.
    - [main] is modelled from the listing on, with the run of the terminal
      program as a function of the first model.  The walk of the file
      system ([walkFiles], which is [filepath.WalkDir] with a callback), the
      parsing of the flag and the time stamp in the name of the output file
      are left out. *)

From Stdlib Require Import ZArith Lia Strings.Byte Strings.Ascii Strings.String.
From Stdlib Require Floats.PrimFloat Numbers.Cyclic.Int63.Uint63.
From stdpp Require Import list strings sorting pretty.

Local Open Scope Z_scope.
Local Set Warnings "-register-all".

(** ** Machine integers *)

Definition int_min : Z := - 2 ^ 63.
Definition int_max : Z := 2 ^ 63 - 1.

(** Two's-complement wrap-around of a 64-bit signed integer. *)
Definition wrap64 (z : Z) : Z := (z + 2 ^ 63) mod 2 ^ 64 - 2 ^ 63.

Definition int_add (a b : Z) : Z := wrap64 (a + b).
Definition int_sub (a b : Z) : Z := wrap64 (a - b).

(** Go's [/] on integers truncates toward zero. *)
Definition int_div (a b : Z) : Z := wrap64 (Z.quot a b).

(** [len] of a slice or string. *)
Definition len {A} (l : list A) : Z := Z.of_nat (length l).

Definition is_int (z : Z) : Prop := int_min <= z <= int_max.

(** ** FenceNegotiator *)

Definition backtick : byte := "`"%byte.

(** One iteration of the inner loop of [maxRunByteInReader]:
    the state is [(run, maxRun)]. *)
Definition scan_step (b : byte) (st : Z * Z) (c : byte) : Z * Z :=
  let '(run, maxRun) := st in
  if Byte.eqb c b then
    let run := int_add run 1 in
    (run, if maxRun <? run then run else maxRun)
  else (0, maxRun).

(** [for i := 0; i < n; i++ { ... buf[i] ... }] over the [n] bytes read. *)
Definition scan_buf (b : byte) (st : Z * Z) (buf : list byte) : Z * Z :=
  fold_left (scan_step b) buf st.

(** The error half of the result of [r.Read(buf)]. *)
Inductive read_err := ErrEOF | ErrOther.

(** A terminating run of an [io.Reader]: the reads that returned a nil
    error, then the read that returned a non-nil one (with the bytes it
    still delivered). *)
Record reader := {
  reads : list (list byte);
  last_read : list byte;
  last_err : read_err
}.

Definition reader_content (r : reader) : list byte :=
  concat (reads r) ++ last_read r.

Definition maxRunByteInReader (r : reader) (b : byte) : option Z :=
  let st := fold_left (scan_buf b) (reads r) (0, 0) in
  let '(_, maxRun) := scan_buf b st (last_read r) in
  match last_err r with
  | ErrEOF => Some maxRun
  | ErrOther => None
  end.

(** [strings.Repeat(s, n)] panics on a negative count. *)
Definition strings_Repeat (s : string) (n : Z) : option string :=
  if n <? 0 then None
  else Some (Nat.iter (Z.to_nat n) (String.append s) EmptyString).

Definition fenceForContent (maxRun : Z) : option string :=
  let n := int_add maxRun 1 in
  let n := if n <? 3 then 3 else n in
  strings_Repeat "`" n.

(** The loop written inline in the binary branch of [buildMarkdown]. *)
Definition maxRunInline (out : list byte) : Z :=
  snd (scan_buf backtick (0, 0) out).

(** *** Runs of a byte, as the specification speaks of them *)

(** [has_run b n C]: some substring of [C] is [n] consecutive [b]. *)
Definition has_run (b : byte) (n : nat) (C : list byte) : Prop :=
  exists pre post, C = pre ++ replicate n b ++ post.

(** Number of leading [b] of a slice. *)
Fixpoint lead (b : byte) (C : list byte) : nat :=
  match C with
  | c :: C' => if Byte.eqb c b then S (lead b C') else O
  | [] => O
  end.

(** Longest run of [b], as the maximum of [lead] over all suffixes. *)
Fixpoint longest_run (b : byte) (C : list byte) : nat :=
  match C with
  | c :: C' => Nat.max (lead b C) (longest_run b C')
  | [] => O
  end.

(** ** Strings and paths (Go's [strings] and [path/filepath], Unix) *)

Definition slash : ascii := "/"%char.

(** [strings.Split(s, sep)] for a one-byte separator: always at least one
    part. *)
Fixpoint strings_Split (s : string) (sep : ascii) : list string :=
  match s with
  | EmptyString => [EmptyString]
  | String c s' =>
      if Ascii.eqb c sep then EmptyString :: strings_Split s' sep
      else match strings_Split s' sep with
           | p :: ps => String c p :: ps
           | [] => [String c EmptyString]
           end
  end.

(** [strings.Join(elems, sep)]. *)
Fixpoint strings_Join (elems : list string) (sep : string) : string :=
  match elems with
  | [] => EmptyString
  | [e] => e
  | e :: es => String.append e (String.append sep (strings_Join es sep))
  end.

Definition strings_HasPrefix (s pre : string) : bool := String.prefix pre s.

Definition strings_TrimPrefix (s pre : string) : string :=
  if strings_HasPrefix s pre
  then String.substring (String.length pre) (String.length s - String.length pre) s
  else s.

(** The separator is [/]: both conversions are the identity. *)
Definition filepath_FromSlash (p : string) : string := p.
Definition filepath_ToSlash (p : string) : string := p.

(** One element of the scan of [filepath.Clean]; [out] is the stack of
    elements kept so far, innermost first. *)
Definition clean_step (rooted : bool) (out : list string) (e : string) : list string :=
  if String.eqb e "" then out
  else if String.eqb e "." then out
  else if String.eqb e ".." then
    match out with
    | top :: out' => if String.eqb top ".." then e :: out else out'
    | [] => if rooted then out else [e]
    end
  else e :: out.

(** [filepath.Clean]: the shortest path equivalent to [p] by lexical
    processing. *)
Definition filepath_Clean (p : string) : string :=
  if String.eqb p "" then "."
  else
    let rooted := String.prefix "/" p in
    let out := rev (fold_left (clean_step rooted) (strings_Split p slash) []) in
    let body := strings_Join out "/" in
    if rooted then String.append "/" body
    else if String.eqb body "" then "." else body.

(** [filepath.Join(a, b)]: empty elements before the first non-empty one
    are ignored, the rest is joined and cleaned. *)
Definition filepath_Join (a b : string) : string :=
  if negb (String.eqb a "") then
    filepath_Clean (String.append a (String.append "/" b))
  else if negb (String.eqb b "") then filepath_Clean b
  else "".

(** ** TreeBuilder *)

(** The node graph of the program is a tree: every node is allocated by
    [newDir] or [newFile] and linked by [addChild] into the [children] of
    one parent.  A directory owns its children here; [childMap] is the index
    of [children] by name ([addChild] is the only writer of both, and
    [childMap] is nil exactly on the nodes made by [newFile]); [parent] is
    read only for its depth, when a node is made. *)
Inductive node : Type := mkNode {
  name : string;
  relBase : string;
  isDir : bool;
  children : list node;
  depth : Z;
  expanded : bool;
  selected : bool
}.

Definition set_children (n : node) (cs : list node) : node :=
  mkNode (name n) (relBase n) (isDir n) cs (depth n) (expanded n) (selected n).
Definition set_expanded (e : bool) (n : node) : node :=
  mkNode (name n) (relBase n) (isDir n) (children n) (depth n) e (selected n).
Definition set_selected (s : bool) (n : node) : node :=
  mkNode (name n) (relBase n) (isDir n) (children n) (depth n) (expanded n) s.

Definition parent_depth (parent : option node) : Z :=
  match parent with
  | Some p => int_add (depth p) 1
  | None => 0
  end.

Definition newDir (parent : option node) (nm rel : string) : node :=
  mkNode nm rel true [] (parent_depth parent) false false.

Definition newFile (parent : option node) (nm rel : string) : node :=
  mkNode nm rel false [] (parent_depth parent) false false.

(** [childMap[nm]] over the children from index [i] on: the entry written
    last wins. *)
Fixpoint child_from (nm : string) (i : nat) (cs : list node) : option (nat * node) :=
  match cs with
  | [] => None
  | c :: cs' =>
      match child_from nm (S i) cs' with
      | Some r => Some r
      | None => if String.eqb (name c) nm then Some (i, c) else None
      end
  end.

(** [n.child(nm)]: the index of the child in [children] stands for the
    pointer. *)
Definition child (n : node) (nm : string) : option (nat * node) :=
  if negb (isDir n) then None else child_from nm 0 (children n).

(** [n.addChild(c)]; [None] is the panic on a file node. *)
Definition addChild (n c : node) : option node :=
  if negb (isDir n) then None
  else Some (set_children n (children n ++ [c])).

(** The less function given to [sort.Slice] in [finalizeTree]. *)
Definition node_less (a b : node) : bool :=
  if negb (Bool.eqb (isDir a) (isDir b)) then isDir a
  else String.ltb (name a) (name b).

(** [sort.Slice] and [sort.Strings] return a permutation of the slice that
    is ordered by [less]; this one is by insertion.  On keys that [less]
    orders totally the ordered permutation is unique
    ([sorted_perm_unique]). *)
Fixpoint sort_insert {A} (less : A -> A -> bool) (x : A) (l : list A) : list A :=
  match l with
  | [] => [x]
  | y :: l' => if less y x then y :: sort_insert less x l' else x :: l
  end.

Definition sort_Slice {A} (less : A -> A -> bool) (l : list A) : list A :=
  foldr (sort_insert less) [] l.

Definition sort_Strings (l : list string) : list string :=
  sort_Slice String.ltb l.

(** [finalizeTree].  The comparison looks at the children as they are
    before their own finalisation (first components); each is finalised in
    its own subtree (second components). *)
Fixpoint finalizeTree (n : node) : node :=
  if negb (isDir n) then n
  else
    let sorted :=
      sort_Slice (fun a b : node * node => node_less (fst a) (fst b))
                 (map (fun c => (c, finalizeTree c)) (children n)) in
    let cs := map snd sorted in
    set_expanded (len cs <=? 32) (set_children n cs).

(** The body of the loop over [parts] in [buildTree], from node [cur] on;
    the subtree below [cur] is returned as the loop leaves it. *)
Fixpoint insertParts (cur : node) (parts : list string) : option node :=
  match parts with
  | [] => Some cur
  | part :: rest =>
      match rest with
      | [] =>
          (* file leaf *)
          match child cur part with
          | Some _ => Some cur
          | None =>
              let rel := filepath_Join (relBase cur) (filepath_FromSlash part) in
              addChild cur (newFile (Some cur) part rel)
          end
      | _ :: _ =>
          match child cur part with
          | Some (i, c) =>
              c' ← insertParts c rest;
              Some (set_children cur (<[i := c']> (children cur)))
          | None =>
              let rel := filepath_Join (relBase cur) (filepath_FromSlash part) in
              let d := newDir (Some cur) part rel in
              cur' ← addChild cur d;
              d' ← insertParts d rest;
              Some (set_children cur' (<[length (children cur) := d']> (children cur')))
          end
      end
  end.

(** One iteration of the loop over [baseRelSlashFiles]. *)
Definition insertPath (startRelSlash : string) (root : node) (full : string) : option node :=
  let prefix := String.append startRelSlash "/" in
  if negb (String.eqb startRelSlash ".") && negb (strings_HasPrefix full prefix)
  then Some root
  else
    let within :=
      if negb (String.eqb startRelSlash ".")
      then strings_TrimPrefix full prefix else full in
    if String.eqb within "" then Some root
    else insertParts root (strings_Split within slash).

Fixpoint insertPaths (startRelSlash : string) (root : node) (files : list string) : option node :=
  match files with
  | [] => Some root
  | full :: files' =>
      root' ← insertPath startRelSlash root full;
      insertPaths startRelSlash root' files'
  end.

Definition buildTree (startRelSlash : string) (baseRelSlashFiles : list string) : option node :=
  let rootRelOS := filepath_FromSlash startRelSlash in
  let root := newDir None startRelSlash rootRelOS in
  root' ← insertPaths startRelSlash root baseRelSlashFiles;
  Some (finalizeTree root').

(** ** TreeModel *)

(** A [*node] held outside the tree ([m.vis], [old]) is the position of the
    node: the indices of the children to follow from the root.  The tree is
    the store these pointers are read and written through. *)
Definition ptr : Type := list nat.

Fixpoint deref (n : node) (p : ptr) : option node :=
  match p with
  | [] => Some n
  | i :: p' => c ← children n !! i; deref c p'
  end.

(** An assignment to a field of [*p]. *)
Fixpoint store (f : node -> node) (p : ptr) (n : node) : node :=
  match p with
  | [] => f n
  | i :: p' => set_children n (alter (store f p') i (children n))
  end.

(** [for i, c := range cs], the slices that the body yields appended, the
    first index being [i]. *)
Fixpoint range_from {A B} (body : nat -> A -> list B) (i : nat) (cs : list A) : list B :=
  match cs with
  | [] => []
  | c :: cs' => body i c ++ range_from body (S i) cs'
  end.

(** [walk] of [flattenVisible], started at the node [n] found at [pos]. *)
Fixpoint walkVisible (pos : ptr) (n : node) : list ptr :=
  pos ::
  (if isDir n && expanded n
   then range_from (fun i c => walkVisible (pos ++ [i]) c) O (children n)
   else []).

Definition flattenVisible (root : node) : list ptr := walkVisible [] root.

Definition ptr_eqb (a b : ptr) : bool := bool_decide (a = b).

Fixpoint indexOf_from (i : Z) (nodes : list ptr) (target : ptr) : option Z :=
  match nodes with
  | [] => None
  | n :: nodes' =>
      if ptr_eqb n target then Some i else indexOf_from (i + 1) nodes' target
  end.

Definition indexOf (nodes : list ptr) (target : ptr) : Z :=
  default 0 (indexOf_from 0 nodes target).

(** ** InteractionController *)

(** The fields [keys] and [help] of the source hold the fixed key bindings
    ([defaultKeyMap], below as [keys_Up] ...) and the help widget of the
    view. *)
Record model := mkModel {
  root : node;
  vis : list ptr;
  cursor : Z;
  offset : Z;
  width : Z;
  height : Z;
  base : string;
  inRepo : bool;
  allowBinary : bool;
  selectedCount : Z;
  aborted : bool;
  confirmed : bool
}.

Definition with_size (w h : Z) (m : model) : model :=
  mkModel (root m) (vis m) (cursor m) (offset m) w h (base m) (inRepo m)
          (allowBinary m) (selectedCount m) (aborted m) (confirmed m).
Definition with_cursor (c : Z) (m : model) : model :=
  mkModel (root m) (vis m) c (offset m) (width m) (height m) (base m) (inRepo m)
          (allowBinary m) (selectedCount m) (aborted m) (confirmed m).
Definition with_offset (o : Z) (m : model) : model :=
  mkModel (root m) (vis m) (cursor m) o (width m) (height m) (base m) (inRepo m)
          (allowBinary m) (selectedCount m) (aborted m) (confirmed m).
Definition with_tree (r : node) (v : list ptr) (m : model) : model :=
  mkModel r v (cursor m) (offset m) (width m) (height m) (base m) (inRepo m)
          (allowBinary m) (selectedCount m) (aborted m) (confirmed m).
Definition with_selectedCount (k : Z) (m : model) : model :=
  mkModel (root m) (vis m) (cursor m) (offset m) (width m) (height m) (base m)
          (inRepo m) (allowBinary m) k (aborted m) (confirmed m).
Definition with_aborted (m : model) : model :=
  mkModel (root m) (vis m) (cursor m) (offset m) (width m) (height m) (base m)
          (inRepo m) (allowBinary m) (selectedCount m) true (confirmed m).
Definition with_confirmed (m : model) : model :=
  mkModel (root m) (vis m) (cursor m) (offset m) (width m) (height m) (base m)
          (inRepo m) (allowBinary m) (selectedCount m) (aborted m) true.

Definition newModel (rt : node) (bs : string) (repo bin : bool) : model :=
  mkModel rt (flattenVisible rt) 0 0 0 0 bs repo bin 0 false false.

Definition viewportHeight (m : model) : Z :=
  let h := int_sub (height m) 2 in
  if h <? 1 then 1 else h.

(** [m.cursor] and [m.offset] are the variables [cursor] and [offset],
    written back at the end. *)
Definition ensureCursorVisible (m : model) : model :=
  let vh := viewportHeight m in
  let cursor := cursor m in
  let offset := offset m in
  let cursor := if cursor <? 0 then 0 else cursor in
  let cursor :=
    if len (vis m) <=? cursor then
      let cursor := int_sub (len (vis m)) 1 in
      if cursor <? 0 then 0 else cursor
    else cursor in
  let offset := if cursor <? offset then cursor else offset in
  let offset :=
    if int_add offset vh <=? cursor
    then int_add (int_sub cursor vh) 1 else offset in
  let maxOffset := int_sub (len (vis m)) vh in
  let maxOffset := if maxOffset <? 0 then 0 else maxOffset in
  let offset := if maxOffset <? offset then maxOffset else offset in
  let offset := if offset <? 0 then 0 else offset in
  with_offset offset (with_cursor cursor m).

Inductive msg :=
  | WindowSizeMsg (Width Height : Z)
  | KeyMsg (key : string)
  | OtherMsg.

Inductive cmd := CmdNil | CmdQuit.

(** [key.Matches] against the bindings of [defaultKeyMap]. *)
Definition key_Matches (k : string) (keys : list string) : bool :=
  bool_decide (k ∈ keys).

Definition keys_Up : list string := ["up"%string].
Definition keys_Down : list string := ["down"%string].
Definition keys_Right : list string := ["right"%string].
Definition keys_Left : list string := ["left"%string].
Definition keys_Toggle : list string := [" "%string].
Definition keys_Confirm : list string := ["enter"%string].
Definition keys_Quit : list string := ["q"%string; "esc"%string].

(** [m.vis[m.cursor]]: an index out of range panics. *)
Definition vis_at (m : model) : option ptr :=
  if cursor m <? 0 then None else vis m !! Z.to_nat (cursor m).

(** The [Right] case of [Update]. *)
Definition expandAtCursor (m : model) : option model :=
  p ← vis_at m;
  n ← deref (root m) p;
  if isDir n && negb (expanded n) && (0 <? len (children n)) then
    let rt := store (set_expanded true) p (root m) in
    let old := p in
    let m := with_tree rt (flattenVisible rt) m in
    let m := with_cursor (indexOf (vis m) old) m in
    Some (ensureCursorVisible m)
  else Some m.

(** The [Left] case of [Update]. *)
Definition collapseAtCursor (m : model) : option model :=
  p ← vis_at m;
  n ← deref (root m) p;
  if isDir n && expanded n && (0 <? len (children n)) then
    let rt := store (set_expanded false) p (root m) in
    let old := p in
    let m := with_tree rt (flattenVisible rt) m in
    let m := with_cursor (indexOf (vis m) old) m in
    Some (ensureCursorVisible m)
  else Some m.

(** The [Toggle] case of [Update]. *)
Definition toggle (m : model) : option model :=
  p ← vis_at m;
  n ← deref (root m) p;
  if negb (isDir n) then
    let sel := negb (selected n) in
    let rt := store (set_selected sel) p (root m) in
    let m := with_tree rt (vis m) m in
    Some (with_selectedCount
            (if sel then int_add (selectedCount m) 1
             else int_sub (selectedCount m) 1) m)
  else Some m.

(** [Update]; [None] is a panic. *)
Definition Update (m : model) (ms : msg) : option (model * cmd) :=
  match ms with
  | WindowSizeMsg w h =>
      Some (ensureCursorVisible (with_size w h m), CmdNil)
  | KeyMsg k =>
      if key_Matches k keys_Quit then Some (with_aborted m, CmdQuit)
      else if key_Matches k keys_Up then
        let m := if 0 <? cursor m then with_cursor (int_sub (cursor m) 1) m else m in
        Some (ensureCursorVisible m, CmdNil)
      else if key_Matches k keys_Down then
        let m :=
          if cursor m <? int_sub (len (vis m)) 1
          then with_cursor (int_add (cursor m) 1) m else m in
        Some (ensureCursorVisible m, CmdNil)
      else if key_Matches k keys_Right then
        m' ← expandAtCursor m; Some (m', CmdNil)
      else if key_Matches k keys_Left then
        m' ← collapseAtCursor m; Some (m', CmdNil)
      else if key_Matches k keys_Toggle then
        m' ← toggle m; Some (m', CmdNil)
      else if key_Matches k keys_Confirm then Some (with_confirmed m, CmdQuit)
      else Some (m, CmdNil)
  | OtherMsg => Some (m, CmdNil)
  end.

(** [walk] of [selectedFiles]. *)
Fixpoint walkSelected (n : node) : list string :=
  (if negb (isDir n) && selected n then [filepath_ToSlash (relBase n)] else []) ++
  (if isDir n then range_from (fun _ c => walkSelected c) O (children n) else []).

Definition selectedFiles (m : model) : list string :=
  sort_Strings (walkSelected (root m)).

(** ** DocumentAssembler *)

Definition bytes (s : string) : list byte := list_byte_of_string s.

Definition nl : list byte := [x0a].

(** [fmt.Fprintln(w, s)]. *)
Definition line (s : string) : list byte := bytes s ++ nl.

(** [bytes.TrimRight(out, "\n")]. *)
Fixpoint bytes_TrimRight_nl (out : list byte) : list byte :=
  match out with
  | [] => []
  | c :: out' =>
      match bytes_TrimRight_nl out' with
      | [] => if Byte.eqb c x0a then [] else [c]
      | t => c :: t
      end
  end.

(** [strings.ToLower] looks first whether the string has a byte from
    [utf8.RuneSelf] (0x80) on. *)
Fixpoint isASCII (s : string) : bool :=
  match s with
  | EmptyString => true
  | String c s' => (nat_of_ascii c <? 128)%nat && isASCII s'
  end.

(** [strings.ToLower] on a string that [isASCII]: the letters [A] to [Z]
    are lowered, every other byte is kept.  On a string with a byte from
    0x80 on the library maps rune by rune through [unicode.ToLower], whose
    tables are those of the Go release the program is built with (the
    Kelvin sign U+212A is lowered to [k]) and which rewrites invalid UTF-8:
    that part is not modelled, and [strings_ToLower] is the function of the
    source only where [isASCII] holds. *)
Definition ascii_lower (c : ascii) : ascii :=
  let n := nat_of_ascii c in
  if (65 <=? n)%nat && (n <=? 90)%nat then ascii_of_nat (n + 32) else c.

Fixpoint strings_ToLower (s : string) : string :=
  match s with
  | EmptyString => EmptyString
  | String c s' => String (ascii_lower c) (strings_ToLower s')
  end.

(** [filepath.Base]: the last element, trailing separators dropped. *)
Definition filepath_Base (p : string) : string :=
  if String.eqb p "" then "."
  else
    match filter (fun e => negb (String.eqb e "")) (rev (strings_Split p slash)) with
    | e :: _ => e
    | [] => "/"
    end.

(** [filepath.Ext]: from the last dot of the last element on. *)
Definition filepath_Ext (p : string) : string :=
  match rev (strings_Split p slash) with
  | e :: _ =>
      match rev (strings_Split e "."%char) with
      | x :: _ :: _ => String.append "." x
      | _ => ""
      end
  | [] => ""
  end.

(** The second [switch] of [languageFor]; an extension outside it is
    returned as it is. *)
Definition language_table : list (string * string) :=
  [ ("go", "go"); ("md", "markdown"); ("markdown", "markdown");
    ("txt", "text"); ("js", "javascript"); ("ts", "typescript");
    ("json", "json"); ("yaml", "yaml"); ("yml", "yaml"); ("toml", "toml");
    ("sh", "bash"); ("bash", "bash"); ("zsh", "zsh"); ("py", "python");
    ("rb", "ruby"); ("php", "php"); ("java", "java"); ("kt", "kotlin");
    ("rs", "rust"); ("c", "c"); ("h", "c"); ("cc", "cpp"); ("cpp", "cpp");
    ("cxx", "cpp"); ("hpp", "cpp"); ("hh", "cpp"); ("cs", "csharp");
    ("html", "html"); ("htm", "html"); ("css", "css"); ("scss", "scss");
    ("sql", "sql"); ("xml", "xml"); ("ini", "ini"); ("conf", "ini") ]%string.

Definition languageFor (relOS : string) : string :=
  let b := filepath_Base relOS in
  if String.eqb b "Dockerfile" then "dockerfile"
  else if String.eqb b "Makefile" then "make"
  else
    let ext := strings_ToLower (filepath_Ext relOS) in
    if String.eqb ext "" then ""
    else
      let ext := strings_TrimPrefix ext "." in
      match list_find (fun kv => fst kv = ext) language_table with
      | Some (_, (_, lang)) => lang
      | None => ext
      end.

(** What [buildMarkdown] asks of the machine it runs on, by the
    slash-separated path relative to [base]: the verdict of [isBinary], the
    combined output of [file <path>], the bytes of the file.  [None] is the
    error on which the caller panics. *)
Record world := {
  isBinary : string -> option bool;
  describe : string -> option (list byte);
  readFile : string -> option (list byte)
}.

(** The reads of an [os.File] through the 32 KiB buffer: full buffers, then
    the read that returns no byte and [io.EOF]. *)
Fixpoint chunks (fuel k : nat) (l : list byte) : list (list byte) :=
  match fuel with
  | O => []
  | S fuel' =>
      match l with
      | [] => []
      | _ :: _ => take k l :: chunks fuel' k (drop k l)
      end
  end.

Definition file_reader (content : list byte) : reader :=
  {| reads := chunks (length content) (32 * 1024) content;
     last_read := [];
     last_err := ErrEOF |}.

Definition maxRunByteInFile (w : world) (path : string) (b : byte) : option Z :=
  content ← readFile w path;
  maxRunByteInReader (file_reader content) b.

(** The bytes written for one selected file: one iteration of the loop of
    [buildMarkdown]. *)
Definition emitFile (w : world) (allowBin : bool) (relSlash : string) : option (list byte) :=
  let relOS := filepath_FromSlash relSlash in
  let heading := bytes (String.append "## " relSlash) ++ nl ++ nl in
  bin ← (if allowBin then isBinary w relSlash else Some false);
  if (bin : bool) then
    out ← describe w relSlash;
    let open := line "```" in
    let out := bytes_TrimRight_nl out in
    let maxRun := maxRunInline out in
    fence ← fenceForContent maxRun;
    Some (heading ++ open ++ line fence ++ out ++ nl ++ line fence ++ nl)
  else
    maxRun ← maxRunByteInFile w relSlash backtick;
    fence ← fenceForContent maxRun;
    let lang := languageFor relOS in
    let open :=
      if negb (String.eqb lang "") then bytes (String.append fence lang) ++ nl
      else line fence in
    content ← readFile w relSlash;
    Some (heading ++ open ++ content ++ nl ++ line fence ++ nl).

Fixpoint emitFiles (w : world) (allowBin : bool) (selectedRelSlash : list string) : option (list byte) :=
  match selectedRelSlash with
  | [] => Some []
  | relSlash :: rest =>
      d ← emitFile w allowBin relSlash;
      ds ← emitFiles w allowBin rest;
      Some (d ++ ds)
  end.

(** [tokens = (size + 3) / 4] on [int64]. *)
Definition tokensOfSize (size : Z) : Z := int_div (int_add size 3) 4.

(** [buildMarkdown]: the document written, its size and the token
    estimate.  The name of the output file (a time stamp) is left out. *)
Definition buildMarkdown (w : world) (selectedRelSlash : list string) (allowBin : bool)
  : option (list byte * Z * Z) :=
  doc ← emitFiles w allowBin selectedRelSlash;
  let size := len doc in
  Some (doc, size, tokensOfSize size).

(** ** Listing the files *)

(** [bytes.Split(s, sep)] for a one-byte separator. *)
Fixpoint bytes_Split (s : list byte) (sep : byte) : list (list byte) :=
  match s with
  | [] => [[]]
  | c :: s' =>
      if Byte.eqb c sep then [] :: bytes_Split s' sep
      else match bytes_Split s' sep with
           | p :: ps => (c :: p) :: ps
           | [] => [[c]]
           end
  end.

(** The arguments that [gitListFiles] gives to [git]. *)
Definition gitListFiles_args (base startRelSlash : string) : list string :=
  ["-C"; base; "ls-files"; "-z"; "--cached"; "--others"; "--exclude-standard";
   "--full-name"]%string ++
  (if negb (String.eqb startRelSlash ".") then ["--"%string; startRelSlash] else []).

(** [gitListFiles]; [git] is the run of the command on the arguments: its
    standard output, or [None] when [Output] returns an error. *)
Definition gitListFiles (git : list string -> option (list byte))
    (base startRelSlash : string) : option (list string) :=
  out ← git (gitListFiles_args base startRelSlash);
  let parts := bytes_Split out x00 in
  Some (map string_of_list_byte
            (List.filter (fun p => negb (len p =? 0)) parts)).

(** ** Binary detection *)

Definition byte_in (lo hi : N) (c : byte) : bool :=
  ((lo <=? Byte.to_N c) && (Byte.to_N c <=? hi))%N.

(** [utf8.Valid]: the bytes are a sequence of well-formed UTF-8 encodings
    (no overlong form, no surrogate, nothing above U+10FFFF). *)
Fixpoint utf8_Valid (p : list byte) : bool :=
  match p with
  | [] => true
  | c :: p1 =>
      if (Byte.to_N c <? 0x80)%N then utf8_Valid p1
      else if byte_in 0xC2 0xDF c then
        match p1 with
        | c1 :: p2 => byte_in 0x80 0xBF c1 && utf8_Valid p2
        | _ => false
        end
      else if byte_in 0xE0 0xEF c then
        match p1 with
        | c1 :: c2 :: p3 =>
            byte_in (if byte_in 0xE0 0xE0 c then 0xA0 else 0x80)
                    (if byte_in 0xED 0xED c then 0x9F else 0xBF) c1 &&
            byte_in 0x80 0xBF c2 && utf8_Valid p3
        | _ => false
        end
      else if byte_in 0xF0 0xF4 c then
        match p1 with
        | c1 :: c2 :: c3 :: p4 =>
            byte_in (if byte_in 0xF0 0xF0 c then 0x90 else 0x80)
                    (if byte_in 0xF4 0xF4 c then 0x8F else 0xBF) c1 &&
            byte_in 0x80 0xBF c2 && byte_in 0x80 0xBF c3 && utf8_Valid p4
        | _ => false
        end
      else false
  end.

(** The [switch] in the loop of [isBinary]: a control character other than
    newline, carriage return, tab and form feed. *)
Definition is_ctrl (c : byte) : bool :=
  let n := Byte.to_N c in
  if ((n =? 10) || (n =? 13) || (n =? 9) || (n =? 12))%N then false
  else ((n <? 0x20) || (n =? 0x7f))%N.

(** The constant [0.10] of the source as the [float64] nearest to it. *)
Module Float64.
Import PrimFloat.
Definition tenth : float := 0x1.999999999999ap-4%float.
End Float64.

(** [float64(i)] of a non-negative [int] below 2^63. *)
Definition float64_of_int (z : Z) : PrimFloat.float :=
  PrimFloat.of_uint63 (Uint63.of_Z z).

(** The verdict of [isBinary] on [b = buf[:n]], the bytes that the first
    [Read] delivered. *)
Definition isBinary_bytes (b : list byte) : bool :=
  if len b =? 0 then false
  else if existsb (Byte.eqb x00) b then true
  else if utf8_Valid b then false
  else
    let ctrl := fold_left (fun ctrl c => if is_ctrl c then int_add ctrl 1 else ctrl) b 0 in
    PrimFloat.ltb Float64.tenth
                  (PrimFloat.div (float64_of_int ctrl) (float64_of_int (len b))).

(** [isBinary]; [firstRead] opens the file and reads once into the buffer
    of 8192 bytes: the bytes read, or [None] on an error other than
    [io.EOF], on which [isBinary] panics. *)
Definition isBinary_of (firstRead : string -> option (list byte)) (path : string)
  : option bool :=
  b ← firstRead path;
  Some (isBinary_bytes b).

(** ** The view *)

Definition newline : string := String "010"%char EmptyString.

(** [strings.Repeat] with both of its panics: a negative count, and a
    result longer than the largest [int]. *)
Definition strings_Repeat_checked (s : string) (count : Z) : option string :=
  if count <? 0 then None
  else if int_max <? Z.of_nat (String.length s) * count then None
  else Some (Nat.iter (Z.to_nat count) (String.append s) EmptyString).

(** [fmt.Sprintf("%s | %s | selected=%d", mode, bin, m.selectedCount)]. *)
Definition View_status (m : model) : string :=
  let mode := if inRepo m then "git" else "fs" in
  let bin := if allowBinary m then "text+bin" else "text" in
  mode +:+ " | " +:+ bin +:+ " | selected=" +:+ pretty (selectedCount m).

(** One turn of the loop of [View]: the line written for [m.vis[i]]. *)
Definition View_row (m : model) (i : Z) : option string :=
  p ← (if i <? 0 then None else vis m !! Z.to_nat i);
  n ← deref (root m) p;
  let cur := if i =? cursor m then ">" else " " in
  indent ← strings_Repeat_checked "  " (depth n);
  if isDir n then
    let icon := if expanded n then "▾" else "▸" in
    Some (cur +:+ indent +:+ icon +:+ " " +:+ name n +:+ "/" +:+ newline)
  else
    let box := if selected n then "[x]" else "[ ]" in
    Some (cur +:+ indent +:+ box +:+ " " +:+ name n +:+ newline).

(** The loop [for i := start; i < end; i++] of [View]. *)
Definition View_rows (m : model) : option (list string) :=
  let vh := viewportHeight m in
  let start := offset m in
  let end_ := int_add start vh in
  let end_ := if len (vis m) <? end_ then len (vis m) else end_ in
  mapM (View_row m) (seqZ start (end_ - start)).

(** [View]; [helpView] is the text of [m.help.View(m.keys)], [None] a
    panic. *)
Definition View (helpView : string) (m : model) : option string :=
  if len (vis m) =? 0 then Some ""%string
  else
    rows ← View_rows m;
    Some (View_status m +:+ newline +:+ String.concat "" rows +:+ helpView).

(** ** The program *)




(** ** Finding the repository *)

Fixpoint has_slash (s : string) : bool :=
  match s with
  | EmptyString => false
  | String c s' => Ascii.eqb c slash || has_slash s'
  end.

(** [path[:i+1]] for the index [i] of the last separator of [path]: the
    path up to and with its last separator, empty when it has none. *)
Fixpoint upto_last_slash (s : string) : string :=
  match s with
  | EmptyString => EmptyString
  | String c s' =>
      if Ascii.eqb c slash || has_slash s' then String c (upto_last_slash s')
      else EmptyString
  end.

(** [filepath.Dir]: all but the last element of the path, cleaned. *)
Definition filepath_Dir (p : string) : string :=
  filepath_Clean (upto_last_slash p).

(** The loop of [findGitRoot]; [isGitDir p] says that [os.Stat(p)]
    succeeds on a directory.  The loop of the source has no bound: [fuel]
    bounds the turns here, and [None] is a loop that did not end within
    them. *)
Fixpoint findGitRoot_loop (isGitDir : string -> bool) (fuel : nat) (dir : string)
  : option (string * bool) :=
  match fuel with
  | O => None
  | S fuel' =>
      let gitPath := filepath_Join dir ".git" in
      if isGitDir gitPath then Some (dir, true)
      else
        let parent := filepath_Dir dir in
        if String.eqb parent dir then Some (EmptyString, false)
        else findGitRoot_loop isGitDir fuel' parent
  end.

(** [findGitRoot]: every turn but the last shortens the path, but for
    the turn from the empty path to [.], so two turns more than the path
    has bytes are enough. *)
Definition findGitRoot (isGitDir : string -> bool) (start : string)
  : option (string * bool) :=
  findGitRoot_loop isGitDir (S (S (String.length start))) start.

(** * Vocabulary of the properties *)

(** ** Fences and sorted slices *)

(** The fence of [n] backticks. *)
Definition fence_of (n : nat) : string := Nat.iter n (String.append "`") EmptyString.

(** [a] may stand before [b] in a slice ordered by [less]. *)
Definition precedes {A} (less : A -> A -> bool) (a b : A) : Prop :=
  less b a = false.

(** ** Trees *)

(** Following existing children by name, as the loop of [buildTree] does
    while it finds them. *)
Fixpoint resolve (cur : node) (parts : list string) : option node :=
  match parts with
  | [] => Some cur
  | part :: rest => ic ← child cur part; resolve ic.2 rest
  end.

(** A proper, non-empty prefix of [parts] names an existing file: a file
    stands where a directory is needed. *)
Definition file_in_the_way (cur : node) (parts : list string) : Prop :=
  exists ds rest f,
    parts = ds ++ rest /\ ds <> [] /\ rest <> [] /\
    resolve cur ds = Some f /\ isDir f = false.

(** The segments that [buildTree] inserts for the input path [full];
    [None] when the path is skipped. *)
Definition path_parts (startRelSlash full : string) : option (list string) :=
  let prefix := String.append startRelSlash "/" in
  if negb (String.eqb startRelSlash ".") && negb (strings_HasPrefix full prefix)
  then None
  else
    let within :=
      if negb (String.eqb startRelSlash ".")
      then strings_TrimPrefix full prefix else full in
    if String.eqb within "" then None
    else Some (strings_Split within slash).

(** What the insertions keep true of the node [n] at level [d] and of all
    nodes below it: the depth is the level, sibling names are distinct, and
    only directories have children. *)
Inductive wf_node : Z -> node -> Prop :=
  | wf_node_intro d n :
      depth n = d ->
      NoDup (map name (children n)) ->
      (isDir n = false -> children n = []) ->
      Forall (wf_node (d + 1)) (children n) ->
      wf_node d n.

(** [P] holds of [n] and of every node below it. *)
Inductive Every (P : node -> Prop) : node -> Prop :=
  | Every_intro n : P n -> Forall (Every P) (children n) -> Every P n.

(** The children of [n] are in the order of [node_less]. *)
Definition siblings_sorted (n : node) : Prop :=
  StronglySorted (precedes node_less) (children n).

(** Number of nodes of the tree. *)
Fixpoint tree_size (n : node) : nat :=
  S (list_sum (map tree_size (children n))).

(** A position [q] below [n] is visible when every directory passed on the
    way is expanded. *)
Fixpoint visible (n : node) (q : ptr) : Prop :=
  match q with
  | [] => True
  | i :: q' =>
      isDir n && expanded n = true /\
      exists c, children n !! i = Some c /\ visible c q'
  end.

(** [f] writes flags only: it keeps the name, the path, the kind, the
    children and the depth of a node. *)
Definition flag_only (f : node -> node) : Prop :=
  forall x, name (f x) = name x /\ relBase (f x) = relBase x /\
            isDir (f x) = isDir x /\ children (f x) = children x /\
            depth (f x) = depth x.

(** The tree without its [expanded] and [selected] flags. *)
Fixpoint erase (n : node) : node :=
  mkNode (name n) (relBase n) (isDir n) (map erase (children n)) (depth n) false false.

(** ** Selected files *)

Definition is_selected_file (n : node) : bool := negb (isDir n) && selected n.

(** The slash path of the node at [p], as [selectedFiles] reports it. *)
Definition path_at (t : node) (p : ptr) : string :=
  match deref t p with
  | Some n => filepath_ToSlash (relBase n)
  | None => EmptyString
  end.

(** The positions of the selected files below [n], in the order of the
    walk. *)
Fixpoint selPtrs (n : node) : list ptr :=
  (if is_selected_file n then [[]] else []) ++
  (if isDir n then range_from (fun i c => map (cons i) (selPtrs c)) O (children n)
   else []).

(** ** Sessions *)

(** The run of the event loop on a list of messages. *)
Fixpoint run (m : model) (msgs : list msg) : option model :=
  match msgs with
  | [] => Some m
  | ms :: rest => mc ← Update m ms; run mc.1 rest
  end.

(** The states that [Update] can produce from [m0]. *)
Inductive reachable (m0 : model) : model -> Prop :=
  | reach_init : reachable m0 m0
  | reach_step m ms m' c :
      reachable m0 m -> Update m ms = Some (m', c) -> reachable m0 m'.

(** The scroll invariant of the viewport. *)
Definition scroll_inv (m : model) : Prop :=
  offset m <= cursor m < offset m + viewportHeight m /\
  0 <= offset m <= Z.max 0 (len (vis m) - viewportHeight m).

(** What every state of a session on the tree [t0] satisfies. *)
Definition consistent (t0 : node) (m : model) : Prop :=
  tree_size (root m) = tree_size t0 /\
  vis m = flattenVisible (root m) /\
  0 <= cursor m < len (vis m) /\
  scroll_inv m.

(** ** Examples *)

(** The content [a```b], delivered in two reads. *)
Definition reader_example : reader :=
  {| reads := [bytes "a``"; bytes "`b"]; last_read := []; last_err := ErrEOF |}.

(** A machine on which [a.bin] is the only binary file. *)
Definition world_example : world :=
  {| isBinary := fun p => Some (String.eqb p "a.bin");
     describe := fun p => Some (bytes "a.bin: data" ++ nl);
     readFile := fun p => Some (bytes "hi ``` there") |}.

(** [buildTree "." ["a.go"]]. *)
Definition tree_one_file : node :=
  mkNode "." "." true [mkNode "a.go" "a.go" false [] 1 false false] 0 true false.

(** A listing with names that the alphabet and the bytes order
    differently. *)
Definition files_mixed_names : list string :=
  ["apple"; "9"; "src/b"; "Banana"; "10"; "Src/a"]%string.

(** [buildTree "." files_mixed_names]. *)
Definition tree_mixed_names : node :=
  mkNode "." "." true
    [mkNode "Src" "Src" true [mkNode "a" "Src/a" false [] 2 false false] 1 true false;
     mkNode "src" "src" true [mkNode "b" "src/b" false [] 2 false false] 1 true false;
     mkNode "10" "10" false [] 1 false false;
     mkNode "9" "9" false [] 1 false false;
     mkNode "Banana" "Banana" false [] 1 false false;
     mkNode "apple" "apple" false [] 1 false false] 0 true false.

(** A directory [d] with the selected file [x], and the file [a.go]. *)
Definition tree_two_levels : node :=
  mkNode "." "." true
    [mkNode "d" "d" true [mkNode "x" "d/x" false [] 2 false true] 1 true false;
     mkNode "a.go" "a.go" false [] 1 false false] 0 true false.

(** The cursor on the directory [d]. *)
Definition model_on_dir : model :=
  mkModel tree_two_levels (flattenVisible tree_two_levels) 1 0 80 24 "" false false 1
          false false.

(** A session on [tree_two_levels]: a resize to four rows, then two
    [down] keys. *)
Definition model_start : model := newModel tree_two_levels "" false false.
Definition model_sized : model := ensureCursorVisible (with_size 80 4 model_start).
Definition model_down1 : model := ensureCursorVisible (with_cursor 1 model_sized).
Definition model_down2 : model := ensureCursorVisible (with_cursor 2 model_down1).

Definition files_example : list string := ["d/x"; "a.go"; "d/b"]%string.

(** [buildTree "." files_example]. *)
Definition tree_three_files : node :=
  mkNode "." "." true
    [mkNode "d" "d" true
       [mkNode "b" "d/b" false [] 2 false false;
        mkNode "x" "d/x" false [] 2 false false] 1 true false;
     mkNode "a.go" "a.go" false [] 1 false false] 0 true false.

(** [d/x] is selected first, then [a.go]; then the confirm key. *)
Definition msgs_example : list msg :=
  [KeyMsg "down"; KeyMsg "down"; KeyMsg "down"; KeyMsg " "; KeyMsg "down"; KeyMsg " ";
   KeyMsg "enter"]%string.

Definition model_confirmed : model :=
  default (newModel tree_three_files "" false false)
          (run (newModel tree_three_files "" false false) msgs_example).

Definition model_collapsed : model :=
  mkModel (store (set_expanded false) [0%nat] tree_two_levels)
          (flattenVisible (store (set_expanded false) [0%nat] tree_two_levels))
          1 0 80 24 "" false false 1 false false.

(** The flags of a node before [finalizeTree]. *)
Definition fresh_flags (n : node) : Prop :=
  selected n = false /\ expanded n = false /\ (isDir n = false -> children n = []).

(** The flags of a node of the tree that [buildTree] returns. *)
Definition default_flags (n : node) : Prop :=
  selected n = false /\
  expanded n = isDir n && (len (children n) <=? 32) /\
  (isDir n = false -> children n = []).

(** Only files are selected. *)
Definition files_only (n : node) : Prop := selected n = true -> isDir n = false.

(** What every state of a session keeps true of the counter. *)
Definition counted (m : model) : Prop :=
  selectedCount m = len (walkSelected (root m)) /\ Every files_only (root m).

(** No input path lies below another one: the segments of one are not a
    proper prefix of the segments of another. *)
Definition no_file_below_file (startRelSlash : string) (files : list string) : Prop :=
  forall f g ps qs,
    f ∈ files -> g ∈ files ->
    path_parts startRelSlash f = Some ps -> path_parts startRelSlash g = Some qs ->
    ps `prefix_of` qs -> ps = qs.

(** ** Paths in normal form *)

(** A segment that [filepath.Clean] keeps as it is. *)
Definition normal_seg (s : string) : bool :=
  negb (String.eqb s "") && negb (String.eqb s ".") && negb (String.eqb s "..").

(** A relative path that is its own [filepath.Clean]: no empty segment,
    no [.] and no [..]. *)
Definition normal_path (p : string) : bool :=
  forallb normal_seg (strings_Split p slash).

(** The [relBase] of every child is the [filepath.Join] of the [relBase]
    of its parent and its name, as [buildTree] computes it. *)
Definition rel_linked (n : node) : Prop :=
  Forall (fun c => relBase c = filepath_Join (relBase n) (filepath_FromSlash (name c)))
         (children n).

(** ** The share test of [isBinary] *)

(** On the count [k] of control characters and the length [n], as machine
    integers: the comparison of the quotient of the two [float64] with
    [0.10] gives what the exact comparison [n < 10 * k] gives. *)
Module ShareCheck.
Import Uint63.
Definition zero : int := 0%uint63.
Definition one : int := 1%uint63.
Definition ten : int := 10%uint63.

Definition agrees (k n : int) : bool :=
  Bool.eqb (PrimFloat.ltb Float64.tenth
              (PrimFloat.div (PrimFloat.of_uint63 k) (PrimFloat.of_uint63 n)))
           (n <? ten * k)%uint63.

(** [agrees] for the [fuel] counts from [k] on. *)
Fixpoint upto (fuel : nat) (k n : int) : bool :=
  match fuel with
  | O => true
  | S f => agrees k n && upto f (k + one)%uint63 n
  end.

(** [agrees] for every length from [n] down to 1 and every count up to
    the length. *)
Fixpoint all (fuel : nat) (n : int) : bool :=
  match fuel with
  | O => true
  | S f => upto (S (S f)) zero n && all f (n - one)%uint63
  end.
End ShareCheck.

(** ** Absolute paths *)

(** The absolute path in normal form with the segments [segs], as
    [os.Getwd] returns it. *)
Definition abs_path (segs : list string) : string :=
  String "/"%char (strings_Join segs "/").

(** A segment of such a path: in normal form and without a separator. *)
Definition path_seg (s : string) : Prop :=
  normal_seg s = true /\ has_slash s = false.

(** The names of the nodes on the way to the position [p]. *)
Fixpoint names_to (t : node) (p : ptr) : list string :=
  match p with
  | [] => []
  | i :: p' =>
      match children t !! i with
      | Some c => name c :: names_to c p'
      | None => []
      end
  end.

(** ** Trees in canonical form *)

(** What [buildTree] establishes of its result at level [d]: depths,
    distinct names, sorted siblings, default flags, linked paths. *)
Definition canonical (d : Z) (n : node) : Prop :=
  wf_node d n /\ Every siblings_sorted n /\ Every default_flags n /\ Every rel_linked n.

(** The key by which [finalizeTree] orders siblings. *)
Definition sort_key (n : node) : bool * string := (isDir n, name n).

(** The order of the keys: directories first, then by name. *)
Definition key_le (a b : bool * string) : Prop :=
  (a.1 = true /\ b.1 = false) \/ (a.1 = b.1 /\ String.le a.2 b.2).


(** * Properties *)

(** ** Machine integers *)

Lemma wrap64_id z : is_int z -> wrap64 z = z.
Proof.
  unfold is_int, int_min, int_max, wrap64. intros H.
  rewrite Z.mod_small; lia.
Qed.

Lemma wrap64_is_int z : is_int (wrap64 z).
Proof.
  unfold is_int, int_min, int_max, wrap64.
  pose proof (Z.mod_pos_bound (z + 2 ^ 63) (2 ^ 64)). lia.
Qed.

Lemma int_add_id a b : is_int (a + b) -> int_add a b = a + b.
Proof. apply wrap64_id. Qed.

Lemma int_sub_id a b : is_int (a - b) -> int_sub a b = a - b.
Proof. apply wrap64_id. Qed.

Lemma len_nonneg {A} (l : list A) : 0 <= len l.
Proof. unfold len. lia. Qed.

Lemma len_app {A} (l k : list A) : len (l ++ k) = len l + len k.
Proof. unfold len. rewrite length_app. lia. Qed.

Lemma len_cons {A} (x : A) (l : list A) : len (x :: l) = 1 + len l.
Proof. unfold len. simpl. lia. Qed.

(** ** FenceNegotiator *)

Section Runs.
Variable b : byte.

Lemma byte_eqb_true (c d : byte) : Byte.eqb c d = true <-> c = d.
Proof. split; [apply Byte.byte_dec_bl | apply Byte.byte_dec_lb]. Qed.

Lemma lead_replicate n post : (n <= lead b (replicate n b ++ post))%nat.
Proof.
  induction n as [|n IH]; simpl; [lia|].
  rewrite (proj2 (byte_eqb_true b b) eq_refl). lia.
Qed.

Lemma lead_split C : exists post, C = replicate (lead b C) b ++ post.
Proof.
  induction C as [|c C [post IH]]; simpl.
  - exists []. reflexivity.
  - destruct (Byte.eqb c b) eqn:E.
    + apply byte_eqb_true in E as ->. exists post. simpl. congruence.
    + exists (c :: C). reflexivity.
Qed.

Lemma lead_le_longest C : (lead b C <= longest_run b C)%nat.
Proof. destruct C; simpl; lia. Qed.

Lemma has_run_le n m C : (m <= n)%nat -> has_run b n C -> has_run b m C.
Proof.
  intros Hle (pre & post & ->).
  exists pre, (replicate (n - m) b ++ post).
  replace n with (m + (n - m))%nat at 1 by lia.
  rewrite replicate_add, <- app_assoc. reflexivity.
Qed.

Lemma has_run_cons n c C : has_run b n C -> has_run b n (c :: C).
Proof. intros (pre & post & ->). exists (c :: pre), post. reflexivity. Qed.

(** The two readings of "longest run" agree. *)
Lemma has_run_longest n C : has_run b n C <-> (n <= longest_run b C)%nat.
Proof.
  split.
  - intros (pre & post & ->).
    induction pre as [|c pre IH]; simpl.
    + pose proof (lead_replicate n post).
      pose proof (lead_le_longest (replicate n b ++ post)). lia.
    + lia.
  - induction C as [|c C IH]; intros Hn.
    + simpl in Hn. assert (n = O) as -> by lia. exists [], []. reflexivity.
    + change (longest_run b (c :: C))
        with (Nat.max (lead b (c :: C)) (longest_run b C)) in Hn.
      destruct (Nat.le_gt_cases n (lead b (c :: C))) as [Hl|Hl].
      * apply (has_run_le (lead b (c :: C))); [exact Hl|].
        destruct (lead_split (c :: C)) as [post Hp].
        exists [], post. exact Hp.
      * apply has_run_cons, IH. lia.
Qed.

(** The scanning loop computes the longest run; no addition wraps as long
    as the bytes fit an [int]. *)
Lemma scan_buf_spec C : forall run mx,
  0 <= run <= mx -> run + len C <= int_max ->
  snd (scan_buf b (run, mx) C) =
    Z.max mx (Z.max (run + Z.of_nat (lead b C)) (Z.of_nat (longest_run b C))).
Proof.
  unfold scan_buf.
  induction C as [|c C IH]; intros run mx Hr Hlen.
  - simpl. lia.
  - rewrite len_cons in Hlen. pose proof (len_nonneg C).
    change (fold_left (scan_step b) (c :: C) (run, mx))
      with (fold_left (scan_step b) C (scan_step b (run, mx) c)).
    change (longest_run b (c :: C))
      with (Nat.max (lead b (c :: C)) (longest_run b C)).
    pose proof (lead_le_longest C).
    unfold scan_step. simpl lead. destruct (Byte.eqb c b).
    + rewrite int_add_id by (unfold is_int, int_min, int_max in *; lia).
      destruct (Z.ltb_spec mx (run + 1)); rewrite IH; lia.
    + rewrite IH by lia. lia.
Qed.

Lemma scan_buf_app st C D :
  scan_buf b st (C ++ D) = scan_buf b (scan_buf b st C) D.
Proof. unfold scan_buf. apply fold_left_app. Qed.

Lemma scan_buf_concat Cs : forall st,
  fold_left (scan_buf b) Cs st = scan_buf b st (concat Cs).
Proof.
  induction Cs as [|C Cs IH]; intros st; simpl; [reflexivity|].
  rewrite IH, scan_buf_app. reflexivity.
Qed.

(** However the reader cuts the content into reads, the result is the
    longest run of the content. *)
Lemma maxRunByteInReader_spec r :
  last_err r = ErrEOF -> len (reader_content r) <= int_max ->
  maxRunByteInReader r b = Some (Z.of_nat (longest_run b (reader_content r))).
Proof.
  intros He Hl. unfold maxRunByteInReader. rewrite He.
  rewrite scan_buf_concat, <- scan_buf_app.
  fold (reader_content r).
  pose proof (scan_buf_spec (reader_content r) 0 0) as H.
  destruct (scan_buf b (0, 0) (reader_content r)) as [run mx]. simpl in H.
  rewrite H by lia.
  pose proof (lead_le_longest (reader_content r)). f_equal. lia.
Qed.
End Runs.

Lemma maxRunInline_spec out :
  len out <= int_max -> maxRunInline out = Z.of_nat (longest_run backtick out).
Proof.
  intros Hl. unfold maxRunInline. rewrite scan_buf_spec by lia.
  pose proof (lead_le_longest backtick out). lia.
Qed.

Lemma string_length_append s t :
  String.length (String.append s t) = (String.length s + String.length t)%nat.
Proof. induction s as [|c s IH]; simpl; [reflexivity|]. rewrite IH. reflexivity. Qed.

Lemma iter_append_length s n :
  String.length (Nat.iter n (String.append s) EmptyString) = (n * String.length s)%nat.
Proof.
  induction n as [|n IH]; simpl; [reflexivity|].
  rewrite string_length_append, IH. reflexivity.
Qed.

Lemma fenceForContent_spec k :
  0 <= k < int_max ->
  fenceForContent k = Some (Nat.iter (Z.to_nat (Z.max (k + 1) 3)) (String.append "`") EmptyString).
Proof.
  intros Hk. unfold fenceForContent, strings_Repeat.
  rewrite int_add_id by (unfold is_int, int_min, int_max in *; lia).
  destruct (Z.ltb_spec (k + 1) 3).
  - simpl. rewrite Z.max_r by lia. reflexivity.
  - destruct (Z.ltb_spec (k + 1) 0); [lia|]. rewrite Z.max_l by lia. reflexivity.
Qed.

Lemma fence_of_length n : String.length (fence_of n) = n.
Proof. unfold fence_of. rewrite iter_append_length. simpl. lia. Qed.

(** C1.  For a reader that ends in [io.EOF] (its content [C] fitting an
    [int]), [maxRunByteInReader] returns a run length from which
    [fenceForContent] makes a fence of [L = max(maxRun + 1, 3)] backticks,
    and no substring of [C] is [L] or more consecutive backticks. *)
Theorem fence_exceeds_every_run (r : reader) :
  last_err r = ErrEOF ->
  len (reader_content r) < int_max ->
  exists maxRun fence,
    maxRunByteInReader r backtick = Some maxRun /\
    fenceForContent maxRun = Some fence /\
    Z.of_nat (String.length fence) = Z.max (maxRun + 1) 3 /\
    forall n, (String.length fence <= n)%nat ->
              ~ has_run backtick n (reader_content r).
Proof.
  intros He Hl.
  set (C := reader_content r) in *.
  set (k := longest_run backtick C).
  assert (Hk : 0 <= Z.of_nat k < int_max).
  { assert (Z.of_nat k <= len C); [|lia].
    assert (has_run backtick k C) as (pre & post & HC)
      by (apply has_run_longest; reflexivity).
    rewrite HC, !len_app. unfold len at 2. rewrite length_replicate.
    pose proof (len_nonneg pre). pose proof (len_nonneg post). lia. }
  exists (Z.of_nat k), (fence_of (Z.to_nat (Z.max (Z.of_nat k + 1) 3))).
  split; [apply maxRunByteInReader_spec; [exact He | fold C; lia]|].
  split; [apply fenceForContent_spec; exact Hk|].
  rewrite fence_of_length. split; [lia|].
  intros n Hn Hrun. apply has_run_longest in Hrun. fold k in Hrun. lia.
Qed.

Lemma fence_exceeds_every_run_witness :
  exists maxRun fence,
    maxRunByteInReader reader_example backtick = Some maxRun /\
    fenceForContent maxRun = Some fence /\
    Z.of_nat (String.length fence) = Z.max (maxRun + 1) 3 /\
    forall n, (String.length fence <= n)%nat ->
              ~ has_run backtick n (reader_content reader_example).
Proof.
  apply (fence_exceeds_every_run reader_example); [reflexivity | vm_compute; reflexivity].
Defined.

(** C2.  When the longest run of backticks of the content has length
    exactly [k] (a run of [k] exists, none of [k + 1]), the scan returns
    [k] and the fence is [max(k + 1, 3)] backticks; on content without a
    backtick the fence is exactly three backticks. *)
Theorem fence_length_for_longest_run (r : reader) (k : nat) :
  last_err r = ErrEOF ->
  len (reader_content r) < int_max ->
  has_run backtick k (reader_content r) ->
  ~ has_run backtick (S k) (reader_content r) ->
  maxRunByteInReader r backtick = Some (Z.of_nat k) /\
  fenceForContent (Z.of_nat k) = Some (fence_of (Nat.max (k + 1) 3)) /\
  String.length (fence_of (Nat.max (k + 1) 3)) = Nat.max (k + 1) 3 /\
  (backtick ∉ reader_content r -> fenceForContent (Z.of_nat k) = Some "```"%string).
Proof.
  intros He Hl Hk HSk.
  set (C := reader_content r) in *.
  apply has_run_longest in Hk.
  assert (longest_run backtick C = k) as Hlr.
  { destruct (Nat.le_gt_cases (S k) (longest_run backtick C)) as [H|H]; [|lia].
    exfalso. apply HSk, has_run_longest, H. }
  assert (Hb : 0 <= Z.of_nat k < int_max).
  { assert (Z.of_nat k <= len C); [|lia].
    assert (has_run backtick k C) as (pre & post & HC)
      by (apply has_run_longest; lia).
    rewrite HC, !len_app. unfold len at 2. rewrite length_replicate.
    pose proof (len_nonneg pre). pose proof (len_nonneg post). lia. }
  assert (Hf : fenceForContent (Z.of_nat k) = Some (fence_of (Nat.max (k + 1) 3))).
  { rewrite fenceForContent_spec by exact Hb. unfold fence_of. do 2 f_equal. lia. }
  split; [rewrite <- Hlr; apply maxRunByteInReader_spec; [exact He | fold C; lia]|].
  split; [exact Hf|]. split; [apply fence_of_length|].
  intros Hno. rewrite Hf. destruct k as [|k]; [reflexivity|].
  exfalso. apply Hno.
  assert (has_run backtick (S k) C) as (pre & post & HC)
    by (apply has_run_longest; lia).
  rewrite HC. simpl. apply elem_of_app. right. apply elem_of_cons. left. reflexivity.
Qed.

Lemma fence_length_for_longest_run_witness :
  maxRunByteInReader reader_example backtick = Some 3 /\
  fenceForContent 3 = Some (fence_of (Nat.max (3 + 1) 3)) /\
  String.length (fence_of (Nat.max (3 + 1) 3)) = Nat.max (3 + 1) 3 /\
  (backtick ∉ reader_content reader_example -> fenceForContent 3 = Some "```"%string).
Proof.
  apply (fence_length_for_longest_run reader_example 3).
  - reflexivity.
  - vm_compute. reflexivity.
  - exists (bytes "a"), (bytes "b"). reflexivity.
  - intros H. apply has_run_longest in H. vm_compute in H. lia.
Defined.

(** ** Token estimate *)

Lemma tokensOfSize_spec B :
  0 <= B <= int_max - 3 -> tokensOfSize B = (B + 3) / 4.
Proof.
  intros HB. unfold tokensOfSize, int_div.
  rewrite int_add_id by (unfold is_int, int_min, int_max in *; lia).
  rewrite Z.quot_div_nonneg by lia.
  apply wrap64_id. unfold is_int, int_min, int_max in *.
  pose proof (Z.div_pos (B + 3) 4). 
  assert ((B + 3) / 4 <= B + 3) by (apply Z.div_le_upper_bound; lia).
  lia.
Qed.

(** C9.  The token count that [buildMarkdown] reports for a document of
    [B] bytes is [(B + 3) / 4], the least integer [t] with [B <= 4 * t]:
    the ceiling of [B / 4].  [B = 12345] gives [3087]. *)
Theorem tokens_is_ceiling_of_quarter w sel bin doc B t :
  buildMarkdown w sel bin = Some (doc, B, t) ->
  B <= int_max - 3 ->
  B = len doc /\ t = tokensOfSize B /\ t = (B + 3) / 4 /\
  4 * (t - 1) < B <= 4 * t /\
  tokensOfSize 12345 = 3087.
Proof.
  unfold buildMarkdown. intros H HB.
  destruct (emitFiles w bin sel) as [d|]; simpl in H; [|discriminate].
  injection H as <- <- <-.
  pose proof (len_nonneg d).
  rewrite tokensOfSize_spec by lia.
  repeat split; try reflexivity.
  - pose proof (Z.div_mod (len d + 3) 4). pose proof (Z.mod_pos_bound (len d + 3) 4). lia.
  - pose proof (Z.div_mod (len d + 3) 4). pose proof (Z.mod_pos_bound (len d + 3) 4). lia.
Qed.

Lemma tokens_is_ceiling_of_quarter_witness :
  35 = len (bytes "## b.go" ++ nl ++ nl ++
            bytes "````go" ++ nl ++ bytes "hi ``` there" ++ nl ++
            bytes "````" ++ nl ++ nl) /\
  9 = tokensOfSize 35 /\ 9 = (35 + 3) / 4 /\
  4 * (9 - 1) < 35 <= 4 * 9 /\ tokensOfSize 12345 = 3087.
Proof.
  apply (tokens_is_ceiling_of_quarter world_example ["b.go"%string] true);
    [vm_compute; reflexivity | vm_compute; discriminate].
Defined.

(** ** DocumentAssembler: the fence of a text file *)

Lemma chunks_concat fuel k : forall l,
  (0 < k)%nat -> (length l <= fuel)%nat -> concat (chunks fuel k l) = l.
Proof.
  induction fuel as [|fuel IH]; intros l Hk Hl.
  - destruct l; [reflexivity | simpl in Hl; lia].
  - destruct l as [|x l]; [reflexivity|].
    change (chunks (S fuel) k (x :: l))
      with (take k (x :: l) :: chunks fuel k (drop k (x :: l))).
    cbn [concat]. rewrite IH; [apply take_drop | exact Hk |].
    rewrite length_drop. simpl in *. lia.
Qed.

Lemma file_reader_content content : reader_content (file_reader content) = content.
Proof.
  unfold reader_content, file_reader. cbn [reads last_read].
  rewrite app_nil_r. apply chunks_concat; lia.
Qed.

(** X26.  The block of a file that is not treated as binary, for a path
    with an ASCII extension (where [strings_ToLower] is the function of the
    source): its content stands between fences one backtick longer than its
    longest run (three at least), and the opening fence carries the tag of
    [languageFor]. *)
Lemma text_block_shape w (allowBin : bool) relSlash content :
  (if allowBin then isBinary w relSlash else Some false) = Some false ->
  readFile w relSlash = Some content ->
  len content < int_max ->
  isASCII (filepath_Ext relSlash) = true ->
  let fence := fence_of (Nat.max (longest_run backtick content + 1) 3) in
  let lang := languageFor (filepath_FromSlash relSlash) in
  emitFile w allowBin relSlash =
    Some (bytes (String.append "## " relSlash) ++ nl ++ nl ++
          (if negb (String.eqb lang "") then bytes (String.append fence lang) ++ nl
           else line fence) ++
          content ++ nl ++ line fence ++ nl) /\
  forall n, (String.length fence <= n)%nat -> ~ has_run backtick n content.
Proof.
  intros Hb Hr Hl _ fence lang. split.
  - unfold emitFile, maxRunByteInFile. rewrite Hb. cbn [mbind option_bind].
    rewrite Hr. cbn [mbind option_bind].
    rewrite maxRunByteInReader_spec;
      [|reflexivity | rewrite file_reader_content; lia].
    rewrite file_reader_content. cbn [mbind option_bind].
    assert (Hk : 0 <= Z.of_nat (longest_run backtick content) < int_max).
    { assert (has_run backtick (longest_run backtick content) content)
        as (pre & post & HC) by (apply has_run_longest; reflexivity).
      assert (len content = len pre + Z.of_nat (longest_run backtick content) + len post).
      { rewrite HC at 1. rewrite !len_app. unfold len at 2.
        rewrite length_replicate. lia. }
      pose proof (len_nonneg pre). pose proof (len_nonneg post). lia. }
    rewrite (fenceForContent_spec _ Hk). cbn [mbind option_bind].
    replace (Z.to_nat (Z.max (Z.of_nat (longest_run backtick content) + 1) 3))
      with (Nat.max (longest_run backtick content + 1) 3) by lia.
    fold (fence_of (Nat.max (longest_run backtick content + 1) 3)). fold fence.
    fold lang. rewrite <- !app_assoc. reflexivity.
  - intros n Hn Hrun. unfold fence in Hn. rewrite fence_of_length in Hn.
    apply has_run_longest in Hrun. lia.
Qed.

(** ** DocumentAssembler: the block written for a binary file *)

(** C4.  In binary-allowed mode the block written for a file classified
    binary is: heading, blank line, a line of three backticks, and only then
    the negotiated opening fence, the trimmed description, the closing fence
    and a blank line.  The heading block and the fenced block are not
    adjacent: the line of three backticks stands between them. *)
Theorem binary_block_has_extra_fence_line :
  emitFile world_example true "a.bin" =
    Some (bytes "## a.bin" ++ nl ++ nl ++
          line "```" ++
          line "```" ++ bytes "a.bin: data" ++ nl ++ line "```" ++ nl) /\
  emitFile world_example true "a.bin" <>
    Some (bytes "## a.bin" ++ nl ++ nl ++
          line "```" ++ bytes "a.bin: data" ++ nl ++ line "```" ++ nl).
Proof. split; [vm_compute; reflexivity | vm_compute; discriminate]. Qed.

(** The same on every binary file: whatever the description, the bytes
    after the heading start with a line of three backticks that is not the
    negotiated fence. *)
Lemma binary_block_shape w relSlash out :
  isBinary w relSlash = Some true ->
  describe w relSlash = Some out ->
  len (bytes_TrimRight_nl out) < int_max ->
  exists fence,
    fenceForContent (maxRunInline (bytes_TrimRight_nl out)) = Some fence /\
    emitFile w true relSlash =
      Some (bytes (String.append "## " relSlash) ++ nl ++ nl ++
            line "```" ++
            line fence ++ bytes_TrimRight_nl out ++ nl ++ line fence ++ nl).
Proof.
  intros Hb Hd Hl. unfold emitFile. rewrite Hb. cbn [mbind option_bind].
  rewrite Hd. cbn [mbind option_bind].
  set (t := bytes_TrimRight_nl out) in *.
  assert (Hk : 0 <= maxRunInline t < int_max).
  { rewrite maxRunInline_spec by lia.
    assert (has_run backtick (longest_run backtick t) t) as (pre & post & HC)
      by (apply has_run_longest; reflexivity).
    assert (len t = len pre + Z.of_nat (longest_run backtick t) + len post).
    { rewrite HC at 1. rewrite !len_app. unfold len at 2.
      rewrite length_replicate. lia. }
    pose proof (len_nonneg pre). pose proof (len_nonneg post). lia. }
  rewrite (fenceForContent_spec _ Hk). cbn [mbind option_bind].
  eexists. split; [reflexivity|]. rewrite <- !app_assoc. reflexivity.
Qed.

(** ** TreeBuilder *)

Lemma node_ind_children (P : node -> Prop) :
  (forall n, Forall P (children n) -> P n) -> forall n, P n.
Proof.
  intros H. fix IH 1. intros [nm rel d cs dep e s]. apply H. simpl.
  revert cs. fix IHcs 1. intros [|c cs]; constructor; [apply IH | apply IHcs].
Qed.

Lemma set_children_same n : set_children n (children n) = n.
Proof. destruct n; reflexivity. Qed.

Lemma child_from_Some nm cs : forall i j c,
  child_from nm i cs = Some (j, c) ->
  exists k, j = (i + k)%nat /\ cs !! k = Some c /\ name c = nm.
Proof.
  induction cs as [|x cs IH]; intros i j c H; simpl in H; [discriminate|].
  destruct (child_from nm (S i) cs) as [[j' c']|] eqn:E.
  - injection H as -> ->. destruct (IH _ _ _ E) as (k & -> & Hk & Hn).
    exists (S k). split; [lia|]. split; [exact Hk | exact Hn].
  - destruct (String.eqb (name x) nm) eqn:En; [|discriminate].
    injection H as -> ->. exists O. split; [lia|].
    split; [reflexivity | apply String.eqb_eq, En].
Qed.

Lemma child_from_None nm cs : forall i,
  child_from nm i cs = None -> Forall (fun c => name c <> nm) cs.
Proof.
  induction cs as [|x cs IH]; intros i H; simpl in H; constructor.
  - destruct (child_from nm (S i) cs); [discriminate|].
    destruct (String.eqb (name x) nm) eqn:En; [discriminate|].
    apply String.eqb_neq, En.
  - destruct (child_from nm (S i) cs) eqn:E; [discriminate|]. eapply IH, E.
Qed.

Lemma child_Some n nm i c :
  child n nm = Some (i, c) ->
  isDir n = true /\ children n !! i = Some c /\ name c = nm.
Proof.
  unfold child. destruct (isDir n); simpl; [|discriminate].
  intros H. destruct (child_from_Some _ _ _ _ _ H) as (k & -> & Hk & Hn).
  split; [reflexivity|]. split; [exact Hk | exact Hn].
Qed.

Lemma child_file n nm : isDir n = false -> child n nm = None.
Proof. unfold child. intros ->. reflexivity. Qed.

Lemma insertParts_existing parts : forall cur n,
  parts <> [] -> resolve cur parts = Some n -> insertParts cur parts = Some cur.
Proof.
  induction parts as [|part rest IH]; intros cur n Hne Hr; [congruence|].
  simpl in Hr. destruct (child cur part) as [[i c]|] eqn:Ec; [|discriminate].
  simpl in Hr. simpl. rewrite Ec. destruct rest as [|r rest']; [reflexivity|].
  rewrite (IH c n) by (congruence || exact Hr). simpl.
  apply child_Some in Ec as (_ & Hi & _).
  rewrite list_insert_id by exact Hi. rewrite set_children_same. reflexivity.
Qed.

Lemma insertParts_on_file cur part rest :
  isDir cur = false -> insertParts cur (part :: rest) = None.
Proof.
  intros Hf. simpl. rewrite (child_file _ _ Hf).
  unfold addChild. rewrite Hf. destruct rest; reflexivity.
Qed.

Lemma insertParts_panics parts : forall cur,
  isDir cur = true ->
  insertParts cur parts = None <-> file_in_the_way cur parts.
Proof.
  induction parts as [|part rest IH]; intros cur Hd.
  - simpl. split; [discriminate|].
    intros (ds & rest & f & H & Hds & _). destruct ds; [congruence|discriminate].
  - destruct rest as [|r rest'].
    + split.
      * simpl. destruct (child cur part); [discriminate|].
        unfold addChild. rewrite Hd. discriminate.
      * intros (ds & rest & f & H & Hds & Hrest & _).
        destruct ds as [|d [|d' ds]]; [congruence| |discriminate].
        destruct rest; [congruence|discriminate].
    + change (insertParts cur (part :: r :: rest')) with
        (match child cur part with
         | Some (i, c) =>
             c' ← insertParts c (r :: rest');
             Some (set_children cur (<[i := c']> (children cur)))
         | None =>
             let rel := filepath_Join (relBase cur) (filepath_FromSlash part) in
             let d := newDir (Some cur) part rel in
             cur' ← addChild cur d;
             d' ← insertParts d (r :: rest');
             Some (set_children cur' (<[length (children cur) := d']> (children cur')))
         end).
      destruct (child cur part) as [[i c]|] eqn:Ec.
      * destruct (isDir c) eqn:Hc.
        -- specialize (IH c Hc). split.
           ++ intros H. destruct (insertParts c (r :: rest')) eqn:E; [discriminate|].
              destruct (proj1 IH eq_refl) as (ds & rs & f & Hp & Hds & Hrs & Hres & Hf).
              exists (part :: ds), rs, f. rewrite Hp. repeat split; try done.
              simpl. rewrite Ec. exact Hres.
           ++ intros (ds & rs & f & Hp & Hds & Hrs & Hres & Hf).
              destruct ds as [|d ds]; [congruence|]. injection Hp as <- Hp.
              simpl in Hres. rewrite Ec in Hres. simpl in Hres.
              destruct ds as [|d' ds].
              { simpl in Hres. congruence. }
              assert (insertParts c (r :: rest') = None) as ->; [|reflexivity].
              apply IH. exists (d' :: ds), rs, f. repeat split; done.
        -- rewrite (insertParts_on_file _ _ _ Hc). split; [|reflexivity].
           intros _. exists [part], (r :: rest'), c. repeat split; try done.
           simpl. rewrite Ec. reflexivity.
      * cbv zeta. unfold addChild at 1. rewrite Hd. cbn [mbind option_bind negb].
        set (d := newDir (Some cur) part _).
        split.
        -- intros H. destruct (insertParts d (r :: rest')) eqn:E; [discriminate|].
           apply (IH d eq_refl) in E as (ds & rs & f & Hp & Hds & Hrs & Hres & Hf).
           destruct ds as [|d0 ds]; [congruence|]. simpl in Hres. discriminate.
        -- intros (ds & rs & f & Hp & Hds & Hrs & Hres & Hf).
           destruct ds as [|d0 ds]; [congruence|]. injection Hp as <- Hp.
           simpl in Hres. rewrite Ec in Hres. discriminate.
Qed.

(** C10.  In the loop of [buildTree] over the segments of one path, started
    at a directory: when the whole path resolves to an existing node (the
    final segment names a child that is already there, file or directory),
    the loop leaves the tree as it was and does not panic; and it panics
    exactly when a proper prefix of the path names an existing file. *)
Theorem existing_leaf_is_skipped (cur : node) (parts : list string) :
  isDir cur = true ->
  parts <> [] ->
  (forall n, resolve cur parts = Some n -> insertParts cur parts = Some cur) /\
  (insertParts cur parts = None <-> file_in_the_way cur parts).
Proof.
  intros Hd Hne. split.
  - intros n Hr. exact (insertParts_existing parts cur n Hne Hr).
  - apply insertParts_panics, Hd.
Qed.

Lemma existing_leaf_is_skipped_witness :
  (forall n, resolve tree_one_file ["a.go"%string] = Some n ->
             insertParts tree_one_file ["a.go"%string] = Some tree_one_file) /\
  (insertParts tree_one_file ["a.go"%string] = None <->
   file_in_the_way tree_one_file ["a.go"%string]).
Proof.
  apply (existing_leaf_is_skipped tree_one_file ["a.go"%string]);
    [reflexivity | discriminate].
Defined.

(** A file path equal to the path of an existing directory is skipped. *)
Example directory_path_as_file_is_skipped :
  buildTree "." ["d/x"; "d"]%string = buildTree "." ["d/x"]%string.
Proof. reflexivity. Qed.

(** A file where a directory is needed: the panic of [addChild]. *)
Example file_in_the_way_panics :
  insertParts tree_one_file ["a.go"; "x"]%string = None /\
  buildTree "." ["a.go"; "a.go/x"]%string = None.
Proof. split; reflexivity. Qed.

(** The path [a/] ends in a separator, and [buildTree] makes two nodes for
    it: the directory [a] and, below it, a file with the empty name. *)
Lemma trailing_separator_makes_nodes :
  last (strings_Split "a/" slash) = Some ""%string /\
  buildTree "." ["a/"%string] =
    Some (mkNode "." "." true
            [mkNode "a" "a" true [mkNode "" "a" false [] 2 false false] 1 true false]
            0 true false) /\
  buildTree "." ["a/"%string] <> buildTree "." [].
Proof.
  split; [reflexivity|].
  split; [vm_compute; reflexivity | vm_compute; discriminate].
Qed.

Lemma string_prefix_refl s : String.prefix s s = true.
Proof.
  induction s as [|c s IH]; simpl; [reflexivity|].
  destruct (ascii_dec c c); [exact IH | congruence].
Qed.

Lemma string_substring_0 s : forall n, String.substring n 0 s = EmptyString.
Proof.
  induction s as [|c s IH]; intros [|n]; simpl; try reflexivity. apply IH.
Qed.

Lemma insertPath_empty_remainder start root full :
  full = (if String.eqb start "." then EmptyString else String.append start "/") ->
  insertPath start root full = Some root.
Proof.
  intros ->. unfold insertPath, strings_TrimPrefix, strings_HasPrefix.
  destruct (String.eqb start ".") eqn:E; simpl; [reflexivity|].
  rewrite string_prefix_refl. simpl.
  rewrite Nat.sub_diag, string_substring_0. reflexivity.
Qed.

Lemma insertPaths_app start files1 : forall root files2,
  insertPaths start root (files1 ++ files2) =
  root' ← insertPaths start root files1; insertPaths start root' files2.
Proof.
  induction files1 as [|f files1 IH]; intros root files2; simpl; [reflexivity|].
  destruct (insertPath start root f); simpl; [apply IH | reflexivity].
Qed.

(** C6, as amended.  A path that is empty once the start prefix is taken
    off (the empty path under the start [.], the path [start/] otherwise)
    is ignored: the iteration leaves the tree as it is, and the tree built
    is the one built without that path. *)
Theorem empty_remainder_is_ignored start full files1 files2 :
  full = (if String.eqb start "." then EmptyString else String.append start "/") ->
  (forall root, insertPath start root full = Some root) /\
  buildTree start (files1 ++ full :: files2) = buildTree start (files1 ++ files2).
Proof.
  intros Hfull. split; [intros root; apply insertPath_empty_remainder, Hfull|].
  unfold buildTree. rewrite !insertPaths_app.
  destruct (insertPaths start _ files1) as [r|]; simpl; [|reflexivity].
  rewrite (insertPath_empty_remainder _ _ _ Hfull). reflexivity.
Qed.

Lemma empty_remainder_is_ignored_witness :
  (forall root, insertPath "sub" root "sub/" = Some root) /\
  buildTree "sub" (["sub/a.go"%string] ++ "sub/"%string :: ["sub/b/c.md"%string]) =
  buildTree "sub" (["sub/a.go"%string] ++ ["sub/b/c.md"%string]).
Proof.
  apply (empty_remainder_is_ignored "sub" "sub/" ["sub/a.go"%string] ["sub/b/c.md"%string]).
  reflexivity.
Defined.

(** *** A path given twice *)

Lemma insertPath_parts start root full :
  insertPath start root full =
  match path_parts start full with
  | Some parts => insertParts root parts
  | None => Some root
  end.
Proof.
  unfold insertPath, path_parts.
  destruct (negb (String.eqb start ".") && negb (strings_HasPrefix full _));
    [reflexivity|].
  destruct (String.eqb _ ""); reflexivity.
Qed.

Lemma path_parts_nonempty start full parts :
  path_parts start full = Some parts -> parts <> [].
Proof.
  unfold path_parts.
  destruct (negb (String.eqb start ".") && negb (strings_HasPrefix full _));
    [discriminate|].
  destruct (String.eqb _ ""); [discriminate|].
  intros H. injection H as <-. intros Hnil.
  match type of Hnil with strings_Split ?w _ = [] =>
    destruct w; simpl in Hnil; [discriminate|];
    match type of Hnil with context [Ascii.eqb ?a ?b] => destruct (Ascii.eqb a b) end;
    [discriminate|];
    match type of Hnil with context [strings_Split ?x ?y] => destruct (strings_Split x y) end;
    discriminate
  end.
Qed.

Lemma child_from_app nm cs d : forall i,
  child_from nm i (cs ++ [d]) =
  if String.eqb (name d) nm then Some ((i + length cs)%nat, d) else child_from nm i cs.
Proof.
  induction cs as [|x cs IH]; intros i; simpl.
  - rewrite Nat.add_0_r. reflexivity.
  - rewrite IH. destruct (String.eqb (name d) nm); [|reflexivity].
    rewrite Nat.add_succ_r. reflexivity.
Qed.

Lemma child_from_insert nm cs : forall k i c c',
  cs !! i = Some c -> name c' = name c ->
  child_from nm k (<[i := c']> cs) =
  match child_from nm k cs with
  | Some (j, x) => Some (j, if decide (j = (k + i)%nat) then c' else x)
  | None => None
  end.
Proof.
  induction cs as [|x cs IH]; intros k i c c' Hi Hn; [discriminate|].
  destruct i as [|i]; simpl in Hi.
  - injection Hi as ->. simpl.
    destruct (child_from nm (S k) cs) as [[j y]|] eqn:E.
    + apply child_from_Some in E as (k' & -> & _).
      destruct (decide _) as [Heq|_]; [lia | reflexivity].
    + rewrite Hn. destruct (String.eqb (name c) nm); [|reflexivity].
      destruct (decide _) as [_|Hne]; [reflexivity | lia].
  - simpl. rewrite (IH (S k) i c c' Hi Hn).
    destruct (child_from nm (S k) cs) as [[j y]|] eqn:E.
    + replace (S k + i)%nat with (k + S i)%nat by lia. reflexivity.
    + destruct (String.eqb (name x) nm); [|reflexivity].
      destruct (decide _) as [Heq|_]; [lia | reflexivity].
Qed.

Lemma child_set_children cur cs nm :
  isDir cur = true -> child (set_children cur cs) nm = child_from nm 0 cs.
Proof. intros Hd. unfold child. destruct cur; simpl in *. rewrite Hd. reflexivity. Qed.

Lemma child_dir cur nm :
  isDir cur = true -> child cur nm = child_from nm 0 (children cur).
Proof. intros Hd. unfold child. rewrite Hd. reflexivity. Qed.

Lemma insertParts_keys parts : forall cur cur',
  insertParts cur parts = Some cur' -> name cur' = name cur /\ isDir cur' = isDir cur.
Proof.
  destruct parts as [|part rest]; intros cur cur' H.
  - injection H as <-. done.
  - destruct rest as [|r rest'].
    + simpl in H. destruct (child cur part).
      * injection H as <-. done.
      * unfold addChild in H. destruct (isDir cur) eqn:Hd; [|discriminate].
        injection H as <-. destruct cur; simpl in *. done.
    + change (insertParts cur (part :: r :: rest')) with
        (match child cur part with
         | Some (i, c) =>
             c' ← insertParts c (r :: rest');
             Some (set_children cur (<[i := c']> (children cur)))
         | None =>
             let rel := filepath_Join (relBase cur) (filepath_FromSlash part) in
             let d := newDir (Some cur) part rel in
             cur' ← addChild cur d;
             d' ← insertParts d (r :: rest');
             Some (set_children cur' (<[length (children cur) := d']> (children cur')))
         end) in H.
      destruct (child cur part) as [[i c]|].
      * destruct (insertParts c (r :: rest')); [|discriminate].
        injection H as <-. destruct cur; done.
      * cbv zeta in H. unfold addChild at 1 in H.
        destruct (isDir cur) eqn:Hd; [|discriminate].
        cbn [mbind option_bind negb] in H.
        destruct (insertParts _ (r :: rest')); [|discriminate].
        injection H as <-. destruct cur; simpl in *. done.
Qed.

(** What resolves before an insertion resolves after it. *)
Lemma insertParts_keeps parts : forall cur cur' q n,
  insertParts cur parts = Some cur' -> resolve cur q = Some n ->
  exists n', resolve cur' q = Some n'.
Proof.
  induction parts as [|part rest IH]; intros cur cur' q n Hi Hq.
  - injection Hi as <-. eauto.
  - destruct q as [|q0 qs]; [simpl; eauto|].
    simpl in Hq. destruct (child cur q0) as [[j x]|] eqn:Eq; [|discriminate].
    simpl in Hq. pose proof (child_Some _ _ _ _ Eq) as (Hd & Hj & Hnx).
    rewrite (child_dir _ _ Hd) in Eq.
    destruct rest as [|r rest'].
    + simpl in Hi. destruct (child cur part) as [[i c]|] eqn:Ec.
      * injection Hi as <-. simpl. rewrite (child_dir _ _ Hd), Eq. simpl. eauto.
      * unfold addChild in Hi. rewrite Hd in Hi. injection Hi as <-.
        rewrite (child_dir _ _ Hd) in Ec.
        cbn [resolve]. rewrite (child_set_children _ _ _ Hd), child_from_app.
        cbn [name newFile].
        destruct (String.eqb part q0) eqn:E.
        { apply String.eqb_eq in E as ->. congruence. }
        rewrite Eq. simpl. eauto.
    + change (insertParts cur (part :: r :: rest')) with
        (match child cur part with
         | Some (i, c) =>
             c' ← insertParts c (r :: rest');
             Some (set_children cur (<[i := c']> (children cur)))
         | None =>
             let rel := filepath_Join (relBase cur) (filepath_FromSlash part) in
             let d := newDir (Some cur) part rel in
             cur' ← addChild cur d;
             d' ← insertParts d (r :: rest');
             Some (set_children cur' (<[length (children cur) := d']> (children cur')))
         end) in Hi.
      destruct (child cur part) as [[i c]|] eqn:Ec.
      * destruct (insertParts c (r :: rest')) as [c'|] eqn:E; [|discriminate].
        cbn [mbind option_bind] in Hi. injection Hi as <-.
        pose proof (child_Some _ _ _ _ Ec) as (_ & Hic & Hnc).
        destruct (insertParts_keys _ _ _ E) as [Hn' _].
        cbn [resolve]. rewrite (child_set_children _ _ _ Hd).
        rewrite (child_from_insert q0 _ O i c c' Hic Hn'), Eq. simpl.
        destruct (decide (j = i)) as [->|Hne].
        -- assert (x = c) as -> by congruence.
           destruct (IH c c' qs n E Hq) as [n' Hn'']. eauto.
        -- eauto.
      * cbv zeta in Hi. unfold addChild at 1 in Hi. rewrite Hd in Hi.
        cbn [mbind option_bind negb] in Hi.
        set (d0 := newDir (Some cur) part _) in Hi.
        destruct (insertParts d0 (r :: rest')) as [d'|] eqn:E; [|discriminate].
        cbn [mbind option_bind] in Hi. injection Hi as <-.
        destruct (insertParts_keys _ _ _ E) as [Hn' _].
        rewrite (child_dir _ _ Hd) in Ec.
        assert (Hd1 : isDir (set_children cur (children cur ++ [d0])) = true)
          by (destruct cur; exact Hd).
        cbn [resolve]. rewrite (child_set_children _ _ _ Hd1).
        replace (children (set_children cur (children cur ++ [d0])))
          with (children cur ++ [d0]) by (destruct cur; reflexivity).
        rewrite insert_app_r_alt by lia. rewrite Nat.sub_diag. cbn [insert list_insert].
        rewrite child_from_app, Hn'. cbn [name d0 newDir].
        destruct (String.eqb part q0) eqn:E0.
        { apply String.eqb_eq in E0 as ->. congruence. }
        rewrite Eq. simpl. eauto.
Qed.

(** After its insertion, a path resolves. *)
Lemma insertParts_resolves parts : forall cur cur',
  parts <> [] -> insertParts cur parts = Some cur' ->
  exists n, resolve cur' parts = Some n.
Proof.
  induction parts as [|part rest IH]; intros cur cur' Hne Hi; [congruence|].
  destruct rest as [|r rest'].
  - simpl in Hi. destruct (child cur part) as [[i c]|] eqn:Ec.
    + injection Hi as <-. simpl. rewrite Ec. simpl. eauto.
    + unfold addChild in Hi. destruct (isDir cur) eqn:Hd; [|discriminate].
      injection Hi as <-.
      cbn [resolve]. rewrite (child_set_children _ _ _ Hd), child_from_app.
      cbn [name newFile]. rewrite String.eqb_refl. simpl. eauto.
  - change (insertParts cur (part :: r :: rest')) with
      (match child cur part with
       | Some (i, c) =>
           c' ← insertParts c (r :: rest');
           Some (set_children cur (<[i := c']> (children cur)))
       | None =>
           let rel := filepath_Join (relBase cur) (filepath_FromSlash part) in
           let d := newDir (Some cur) part rel in
           cur' ← addChild cur d;
           d' ← insertParts d (r :: rest');
           Some (set_children cur' (<[length (children cur) := d']> (children cur')))
       end) in Hi.
    destruct (child cur part) as [[i c]|] eqn:Ec.
    + destruct (insertParts c (r :: rest')) as [c'|] eqn:E; [|discriminate].
      cbn [mbind option_bind] in Hi. injection Hi as <-.
      pose proof (child_Some _ _ _ _ Ec) as (Hd & Hic & Hnc).
      rewrite (child_dir _ _ Hd) in Ec.
      destruct (insertParts_keys _ _ _ E) as [Hn' _].
      destruct (IH c c' ltac:(discriminate) E) as [n Hn].
      exists n. cbn [resolve]. rewrite (child_set_children _ _ _ Hd).
      rewrite (child_from_insert part _ O i c c' Hic Hn'), Ec. simpl.
      destruct (decide (i = i)); [exact Hn | congruence].
    + cbv zeta in Hi. unfold addChild at 1 in Hi.
      destruct (isDir cur) eqn:Hd; [|discriminate].
      cbn [mbind option_bind negb] in Hi.
      set (d0 := newDir (Some cur) part _) in Hi.
      destruct (insertParts d0 (r :: rest')) as [d'|] eqn:E; [|discriminate].
      cbn [mbind option_bind] in Hi. injection Hi as <-.
      destruct (insertParts_keys _ _ _ E) as [Hn' _].
      destruct (IH d0 d' ltac:(discriminate) E) as [n Hn].
      assert (Hd1 : isDir (set_children cur (children cur ++ [d0])) = true)
        by (destruct cur; exact Hd).
      exists n. cbn [resolve]. rewrite (child_set_children _ _ _ Hd1).
      replace (children (set_children cur (children cur ++ [d0])))
        with (children cur ++ [d0]) by (destruct cur; reflexivity).
      rewrite insert_app_r_alt by lia. rewrite Nat.sub_diag. cbn [insert list_insert].
      rewrite child_from_app, Hn'. cbn [name d0 newDir].
      rewrite String.eqb_refl. simpl. exact Hn.
Qed.

Lemma insertPaths_keeps start files : forall root root' q n,
  insertPaths start root files = Some root' -> resolve root q = Some n ->
  exists n', resolve root' q = Some n'.
Proof.
  induction files as [|f files IH]; intros root root' q n Hi Hq; simpl in Hi.
  - injection Hi as <-. eauto.
  - destruct (insertPath start root f) as [r1|] eqn:E; [|discriminate]. simpl in Hi.
    rewrite insertPath_parts in E.
    destruct (path_parts start f) as [parts|].
    + destruct (insertParts_keeps _ _ _ _ _ E Hq) as [n1 Hn1]. eauto.
    + injection E as <-. eauto.
Qed.

(** X27.  A path that the input list has already given is skipped: the
    list with the path once more builds the same tree. *)
Lemma duplicate_path_is_skipped start files f t :
  f ∈ files ->
  buildTree start files = Some t ->
  buildTree start (files ++ [f]) = Some t.
Proof.
  intros Hin. unfold buildTree.
  destruct (insertPaths start _ files) as [r|] eqn:E; [|discriminate].
  simpl. intros Ht. rewrite insertPaths_app, E. simpl.
  assert (insertPath start r f = Some r) as ->; [|exact Ht].
  rewrite insertPath_parts.
  destruct (path_parts start f) as [parts|] eqn:Ep; [|reflexivity].
  pose proof (path_parts_nonempty _ _ _ Ep) as Hne.
  apply list_elem_of_split in Hin as (l1 & l2 & ->).
  rewrite insertPaths_app in E.
  destruct (insertPaths start _ l1) as [r1|]; [|discriminate]. simpl in E.
  destruct (insertPath start r1 f) as [r2|] eqn:E2; [|discriminate]. simpl in E.
  rewrite insertPath_parts, Ep in E2.
  destruct (insertParts_resolves _ _ _ Hne E2) as [n Hn].
  destruct (insertPaths_keeps _ _ _ _ _ _ E Hn) as [n' Hn'].
  eapply insertParts_existing; eassumption.
Qed.

(** ** Sorting *)

Section Sorting.
Context {A : Type} (less : A -> A -> bool).
Hypothesis less_asym : forall a b, less a b = true -> less b a = false.
Hypothesis precedes_trans :
  forall a b c, precedes less a b -> precedes less b c -> precedes less a c.

Lemma sort_insert_Permutation x l : sort_insert less x l ≡ₚ x :: l.
Proof.
  induction l as [|y l IH]; simpl; [reflexivity|].
  destruct (less y x); [|reflexivity].
  rewrite IH. apply Permutation_swap.
Qed.

Lemma sort_Slice_Permutation l : sort_Slice less l ≡ₚ l.
Proof.
  induction l as [|x l IH]; simpl; [reflexivity|].
  rewrite sort_insert_Permutation, IH. reflexivity.
Qed.

Lemma sort_insert_sorted x l :
  StronglySorted (precedes less) l ->
  StronglySorted (precedes less) (sort_insert less x l).
Proof.
  induction 1 as [|y l Hl IH Hy]; simpl.
  - repeat constructor.
  - destruct (less y x) eqn:E.
    + constructor; [exact IH|].
      rewrite sort_insert_Permutation. constructor; [|exact Hy].
      apply less_asym, E.
    + constructor; [constructor; assumption|].
      constructor; [exact E|].
      eapply Forall_impl; [exact Hy|].
      intros z Hz. eapply precedes_trans; [exact E | exact Hz].
Qed.

Lemma sort_Slice_sorted l : StronglySorted (precedes less) (sort_Slice less l).
Proof.
  induction l as [|x l IH]; simpl; [constructor|].
  apply sort_insert_sorted, IH.
Qed.

(** Where [less] tells the elements of the slice apart, every ordered
    permutation of it is the one [sort_Slice] returns: the result does not
    depend on the sorting algorithm. *)
Lemma sorted_perm_unique l l' :
  (forall a b, a ∈ l -> b ∈ l -> precedes less a b -> precedes less b a -> a = b) ->
  l' ≡ₚ l -> StronglySorted (precedes less) l' -> l' = sort_Slice less l.
Proof.
  intros Hanti Hp Hs.
  apply (StronglySorted_unique_strong (precedes less)).
  - intros a b Ha Hb. apply Hanti.
    + rewrite <- Hp. exact Ha.
    + rewrite <- (sort_Slice_Permutation l). exact Hb.
  - exact Hs.
  - apply sort_Slice_sorted.
  - rewrite Hp. symmetry. apply sort_Slice_Permutation.
Qed.
End Sorting.

(** *** The byte-wise order of strings *)

Lemma string_ltb_false a b : String.ltb b a = false <-> String.le a b.
Proof.
  unfold String.le, String.leb, String.ltb.
  rewrite (String.compare_antisym a b).
  destruct (String.compare b a); simpl; split; intros H; done.
Qed.

Lemma string_ltb_true a b : String.ltb a b = true <-> String.le a b /\ a <> b.
Proof.
  unfold String.le, String.leb, String.ltb.
  destruct (String.compare a b) eqn:E; simpl.
  - apply String.compare_eq_iff in E. split; [discriminate|]. intros [_ H]. done.
  - split; [|done]. intros _. split; [done|]. intros ->.
    pose proof (String.compare_antisym b b) as H. rewrite E in H. discriminate.
  - split; [discriminate|]. intros [H _]. done.
Qed.

Lemma string_precedes_trans a b c :
  precedes String.ltb a b -> precedes String.ltb b c -> precedes String.ltb a c.
Proof.
  unfold precedes. rewrite !string_ltb_false. intros H1 H2.
  etransitivity; eassumption.
Qed.

Lemma string_ltb_asym a b : String.ltb a b = true -> String.ltb b a = false.
Proof.
  rewrite string_ltb_true, string_ltb_false. intros [H _]. exact H.
Qed.

Lemma string_precedes_antisym a b :
  precedes String.ltb a b -> precedes String.ltb b a -> a = b.
Proof.
  unfold precedes. rewrite !string_ltb_false. intros H1 H2.
  apply (anti_symm String.le); assumption.
Qed.

Lemma sort_Strings_sorted l : StronglySorted String.le (sort_Strings l).
Proof.
  pose proof (sort_Slice_sorted String.ltb string_ltb_asym string_precedes_trans l) as H.
  unfold sort_Strings. induction H as [|x k Hk IH Hx]; constructor; [exact IH|].
  eapply Forall_impl; [exact Hx|]. intros y Hy. apply string_ltb_false, Hy.
Qed.

Lemma sort_Strings_perm_eq l k : l ≡ₚ k -> sort_Strings l = sort_Strings k.
Proof.
  intros Hp. unfold sort_Strings.
  apply (sorted_perm_unique String.ltb string_ltb_asym string_precedes_trans).
  - intros a b _ _. apply string_precedes_antisym.
  - rewrite sort_Slice_Permutation. exact Hp.
  - apply sort_Slice_sorted; [exact string_ltb_asym | exact string_precedes_trans].
Qed.

(** *** The order of siblings *)

Lemma node_precedes_iff a b :
  precedes node_less a b <->
  (isDir a = true /\ isDir b = false) \/
  (isDir a = isDir b /\ String.le (name a) (name b)).
Proof.
  unfold precedes, node_less. rewrite <- string_ltb_false.
  destruct (isDir a), (isDir b); simpl; split; intros H;
    try done; try (left; done); try (right; done);
    destruct H as [[? ?]|[? ?]]; done.
Qed.

Lemma node_less_asym a b : node_less a b = true -> node_less b a = false.
Proof.
  unfold node_less.
  destruct (isDir a), (isDir b); simpl; try done; apply string_ltb_asym.
Qed.

Lemma node_precedes_trans a b c :
  precedes node_less a b -> precedes node_less b c -> precedes node_less a c.
Proof.
  rewrite !node_precedes_iff.
  intros [[H1 H2]|[H1 H2]] [[H3 H4]|[H3 H4]]; try congruence.
  - left. split; congruence.
  - left. split; congruence.
  - right. split; [congruence | etransitivity; eassumption].
Qed.

(** ** The tree that [buildTree] makes *)

Lemma Every_deref P t : Every P t -> forall p n, deref t p = Some n -> P n.
Proof.
  intros H p. revert t H.
  induction p as [|i p IH]; intros t H n Hd; simpl in Hd.
  - injection Hd as <-. destruct H; assumption.
  - destruct (children t !! i) as [c|] eqn:Ec; [|discriminate]. simpl in Hd.
    destruct H as [t _ Hcs]. eapply IH; [|exact Hd].
    eapply Forall_lookup_1; eassumption.
Qed.

Lemma wf_node_deref t : forall d, wf_node d t ->
  forall p n, deref t p = Some n -> wf_node (d + len p) n.
Proof.
  intros d H p. revert t d H.
  induction p as [|i p IH]; intros t d H n Hd; simpl in Hd.
  - injection Hd as <-. unfold len. simpl. rewrite Z.add_0_r. exact H.
  - destruct (children t !! i) as [c|] eqn:Ec; [|discriminate]. simpl in Hd.
    destruct H as [d t _ _ _ Hcs].
    rewrite len_cons, Z.add_assoc. eapply IH; [|exact Hd].
    eapply Forall_lookup_1; eassumption.
Qed.

Lemma wf_new_leaf d cur isdir nm rel :
  0 <= d -> d + 1 <= int_max -> depth cur = d ->
  wf_node (d + 1) (mkNode nm rel isdir [] (parent_depth (Some cur)) false false).
Proof.
  intros H0 H1 Hd. constructor; simpl.
  - rewrite Hd. apply int_add_id. unfold is_int, int_min, int_max in *. lia.
  - constructor.
  - reflexivity.
  - constructor.
Qed.

Lemma insertParts_wf parts : forall cur cur' d,
  0 <= d -> d + len parts <= int_max ->
  wf_node d cur -> insertParts cur parts = Some cur' ->
  wf_node d cur' /\ name cur' = name cur.
Proof.
  induction parts as [|part rest IH]; intros cur cur' d H0 Hb Hwf Hi.
  - simpl in Hi. injection Hi as <-. split; [exact Hwf | reflexivity].
  - rewrite len_cons in Hb. pose proof (len_nonneg rest) as Hr.
    destruct Hwf as [d cur Hdep Hnd Hleaf Hcs].
    destruct rest as [|r rest'].
    + simpl in Hi. destruct (child cur part) as [[i c]|] eqn:Ec.
      * injection Hi as <-. split; [constructor; assumption | reflexivity].
      * unfold addChild in Hi. destruct (isDir cur) eqn:Hdir; [|discriminate].
        simpl in Hi. injection Hi as <-. split; [|destruct cur; reflexivity].
        unfold child in Ec. rewrite Hdir in Ec. simpl in Ec.
        apply child_from_None in Ec.
        constructor; simpl.
        -- exact Hdep.
        -- rewrite map_app. simpl. apply NoDup_app. split; [exact Hnd|].
           split; [|apply NoDup_singleton].
           intros x Hx Hx'. apply list_elem_of_singleton in Hx' as ->.
           apply list_elem_of_fmap in Hx as (c & Hc & Hin).
           rewrite Forall_forall in Ec. apply (Ec c Hin). symmetry. exact Hc.
        -- congruence.
        -- apply Forall_app. split; [exact Hcs|]. constructor; [|constructor].
           apply wf_new_leaf; [lia | lia | exact Hdep].
    + change (insertParts cur (part :: r :: rest')) with
        (match child cur part with
         | Some (i, c) =>
             c' ← insertParts c (r :: rest');
             Some (set_children cur (<[i := c']> (children cur)))
         | None =>
             let rel := filepath_Join (relBase cur) (filepath_FromSlash part) in
             let d := newDir (Some cur) part rel in
             cur' ← addChild cur d;
             d' ← insertParts d (r :: rest');
             Some (set_children cur' (<[length (children cur) := d']> (children cur')))
         end) in Hi.
      destruct (child cur part) as [[i c]|] eqn:Ec.
      * destruct (insertParts c (r :: rest')) as [c'|] eqn:E; [|discriminate].
        cbn [mbind option_bind] in Hi. injection Hi as <-.
        apply child_Some in Ec as (Hdir & Hi & Hn).
        destruct (IH c c' (d + 1)) as [Hwf' Hn']; [lia | lia | | exact E |].
        { eapply Forall_lookup_1; eassumption. }
        split; [|destruct cur; reflexivity].
        constructor; simpl.
        -- exact Hdep.
        -- rewrite list_fmap_insert, Hn', list_insert_id; [exact Hnd|].
           rewrite list_lookup_fmap, Hi. reflexivity.
        -- congruence.
        -- apply Forall_insert; assumption.
      * cbv zeta in Hi. unfold addChild at 1 in Hi.
        destruct (isDir cur) eqn:Hdir; [|discriminate].
        cbn [mbind option_bind negb] in Hi.
        set (d0 := newDir (Some cur) part _) in Hi.
        destruct (insertParts d0 (r :: rest')) as [d'|] eqn:E; [|discriminate].
        cbn [mbind option_bind] in Hi. injection Hi as <-.
        destruct (IH d0 d' (d + 1)) as [Hwf' Hn']; [lia | lia | | exact E |].
        { apply wf_new_leaf; [lia | lia | exact Hdep]. }
        unfold child in Ec. rewrite Hdir in Ec. simpl in Ec.
        apply child_from_None in Ec.
        split; [|destruct cur; reflexivity].
        assert (Hins : <[length (children cur) := d']> (children cur ++ [d0])
                       = children cur ++ [d']).
        { rewrite insert_app_r_alt by lia. rewrite Nat.sub_diag. reflexivity. }
        constructor; simpl; rewrite ?Hins.
        -- exact Hdep.
        -- rewrite map_app. simpl. apply NoDup_app. split; [exact Hnd|].
           split; [|apply NoDup_singleton].
           intros x Hx Hx'. apply list_elem_of_singleton in Hx' as ->.
           apply list_elem_of_fmap in Hx as (c & Hc & Hin).
           rewrite Forall_forall in Ec. apply (Ec c Hin).
           rewrite <- Hc, Hn'. reflexivity.
        -- congruence.
        -- apply Forall_app. split; [exact Hcs|]. constructor; [exact Hwf'|constructor].
Qed.

Lemma strings_Split_length s sep :
  (1 <= length (strings_Split s sep) <= String.length s + 1)%nat.
Proof.
  induction s as [|c s IH]; simpl; [lia|].
  destruct (Ascii.eqb c sep); simpl; [lia|].
  destruct (strings_Split s sep); simpl in *; lia.
Qed.

Lemma string_substring_length s : forall n m,
  (String.length (String.substring n m s) <= String.length s)%nat.
Proof.
  induction s as [|c s IH]; intros [|n] [|m]; simpl; try lia.
  - specialize (IH 0%nat m). lia.
  - specialize (IH n 0%nat). lia.
  - specialize (IH n (S m)). lia.
Qed.

Lemma insertPath_wf start root root' full :
  Z.of_nat (String.length full) < int_max ->
  wf_node 0 root -> insertPath start root full = Some root' ->
  wf_node 0 root' /\ name root' = name root.
Proof.
  intros Hlen Hwf. unfold insertPath.
  destruct (negb (String.eqb start ".") && negb (strings_HasPrefix full _)).
  { intros H. injection H as <-. split; [exact Hwf | reflexivity]. }
  set (within := if negb (String.eqb start ".") then _ else full).
  assert (Hw : (String.length within <= String.length full)%nat).
  { unfold within, strings_TrimPrefix.
    destruct (negb (String.eqb start ".")); [|lia].
    destruct (strings_HasPrefix full _); [apply string_substring_length | lia]. }
  destruct (String.eqb within "").
  { intros H. injection H as <-. split; [exact Hwf | reflexivity]. }
  apply insertParts_wf; [lia | | exact Hwf].
  pose proof (strings_Split_length within slash). unfold len. lia.
Qed.

Lemma insertPaths_wf start files : forall root root',
  Forall (fun f => Z.of_nat (String.length f) < int_max) files ->
  wf_node 0 root -> insertPaths start root files = Some root' ->
  wf_node 0 root' /\ name root' = name root.
Proof.
  induction files as [|f files IH]; intros root root' Hl Hwf Hi; simpl in Hi.
  - injection Hi as <-. split; [exact Hwf | reflexivity].
  - destruct (insertPath start root f) as [r1|] eqn:E; [|discriminate].
    simpl in Hi. inversion Hl as [|? ? Hf Hfs]; subst.
    destruct (insertPath_wf _ _ _ _ Hf Hwf E) as [Hwf1 Hn1].
    destruct (IH r1 root' Hfs Hwf1 Hi) as [Hwf' Hn'].
    split; [exact Hwf' | congruence].
Qed.

(** *** [finalizeTree] *)

Lemma sort_insert_decorate {A B} (less : A -> A -> bool) (f : A -> B) x l :
  sort_insert (fun a b : A * B => less (fst a) (fst b)) (x, f x)
              (map (fun c => (c, f c)) l)
  = map (fun c => (c, f c)) (sort_insert less x l).
Proof.
  induction l as [|y l IH]; simpl; [reflexivity|].
  destruct (less y x); simpl; [rewrite IH|]; reflexivity.
Qed.

Lemma sort_Slice_decorate {A B} (less : A -> A -> bool) (f : A -> B) l :
  sort_Slice (fun a b : A * B => less (fst a) (fst b)) (map (fun c => (c, f c)) l)
  = map (fun c => (c, f c)) (sort_Slice less l).
Proof.
  induction l as [|x l IH]; simpl; [reflexivity|].
  rewrite IH. apply sort_insert_decorate.
Qed.

(** [finalizeTree] on a directory, as the source has it: sort the children,
    finalise each in the new order, set [expanded]. *)
Lemma finalizeTree_dir n :
  isDir n = true ->
  finalizeTree n =
    let cs := map finalizeTree (sort_Slice node_less (children n)) in
    set_expanded (len cs <=? 32) (set_children n cs).
Proof.
  intros Hd. destruct n as [nm rel d cs dep e s]. simpl in Hd. subst d.
  cbv zeta.
  change (finalizeTree (mkNode nm rel true cs dep e s)) with
    (let sorted :=
       sort_Slice (fun a b : node * node => node_less (fst a) (fst b))
                  (map (fun c => (c, finalizeTree c)) cs) in
     let cs' := map snd sorted in
     set_expanded (len cs' <=? 32)
       (set_children (mkNode nm rel true cs dep e s) cs')).
  cbv zeta. rewrite sort_Slice_decorate, map_map. simpl. reflexivity.
Qed.

Lemma finalizeTree_file n : isDir n = false -> finalizeTree n = n.
Proof. intros Hd. destruct n as [nm rel d cs dep e s]. simpl in Hd. subst d. reflexivity. Qed.

Lemma finalizeTree_keys n :
  name (finalizeTree n) = name n /\ isDir (finalizeTree n) = isDir n /\
  depth (finalizeTree n) = depth n /\ relBase (finalizeTree n) = relBase n /\
  selected (finalizeTree n) = selected n.
Proof.
  destruct (isDir n) eqn:Hd.
  - rewrite (finalizeTree_dir n Hd). simpl. rewrite Hd. done.
  - rewrite (finalizeTree_file n Hd), Hd. done.
Qed.

Lemma finalizeTree_precedes a b :
  precedes node_less a b -> precedes node_less (finalizeTree a) (finalizeTree b).
Proof.
  unfold precedes, node_less.
  destruct (finalizeTree_keys a) as (-> & -> & _).
  destruct (finalizeTree_keys b) as (-> & -> & _). done.
Qed.

Lemma finalizeTree_wf n : forall d,
  wf_node d n -> wf_node d (finalizeTree n) /\ Every siblings_sorted (finalizeTree n).
Proof.
  induction n as [n IH] using node_ind_children. intros d Hwf.
  destruct Hwf as [d n Hdep Hnd Hleaf Hcs].
  destruct (isDir n) eqn:Hd.
  - rewrite (finalizeTree_dir n Hd). cbv zeta.
    pose proof (sort_Slice_Permutation node_less (children n)) as Hp.
    set (sorted := sort_Slice node_less (children n)) in *.
    assert (Hall : Forall (fun c => wf_node (d + 1) (finalizeTree c) /\
                                    Every siblings_sorted (finalizeTree c)) sorted).
    { rewrite Hp. rewrite Forall_forall in IH, Hcs |- *.
      intros c Hc. apply IH; [exact Hc | apply Hcs, Hc]. }
    split.
    + constructor; simpl.
      * exact Hdep.
      * rewrite map_map.
        rewrite (map_ext _ name) by (intros c; apply finalizeTree_keys).
        rewrite Hp. exact Hnd.
      * congruence.
      * apply Forall_fmap. eapply Forall_impl; [exact Hall|]. intros c [H _]. exact H.
    + constructor.
      * unfold siblings_sorted. simpl.
        apply (StronglySorted_fmap finalizeTree (precedes node_less) (precedes node_less)).
        -- apply finalizeTree_precedes.
        -- apply sort_Slice_sorted; [exact node_less_asym | exact node_precedes_trans].
      * simpl. apply Forall_fmap. eapply Forall_impl; [exact Hall|]. intros c [_ H]. exact H.
  - rewrite (finalizeTree_file n Hd). split.
    + constructor; [exact Hdep | exact Hnd | intros _; apply Hleaf; reflexivity | exact Hcs].
    + constructor.
      * unfold siblings_sorted. rewrite (Hleaf eq_refl). constructor.
      * rewrite (Hleaf eq_refl). constructor.
Qed.

Lemma StronglySorted_lookup {A} (R : A -> A -> Prop) l : forall i j a b,
  StronglySorted R l -> (i < j)%nat -> l !! i = Some a -> l !! j = Some b -> R a b.
Proof.
  induction l as [|x l IH]; intros i j a b Hs Hij Hi Hj; [discriminate|].
  apply StronglySorted_inv in Hs as [Hs Hx].
  destruct j as [|j]; [lia|]. simpl in Hj.
  destruct i as [|i].
  - simpl in Hi. injection Hi as <-.
    rewrite Forall_forall in Hx. apply Hx. eapply list_elem_of_lookup_2, Hj.
  - simpl in Hi. apply (IH i j); [exact Hs | lia | exact Hi | exact Hj].
Qed.

Lemma buildTree_wf start files t :
  Forall (fun f => Z.of_nat (String.length f) < int_max) files ->
  buildTree start files = Some t ->
  wf_node 0 t /\ Every siblings_sorted t.
Proof.
  intros Hl. unfold buildTree.
  destruct (insertPaths start _ files) as [r|] eqn:E; [|discriminate].
  simpl. intros H. injection H as <-.
  apply finalizeTree_wf.
  eapply insertPaths_wf; [exact Hl | | exact E].
  constructor; simpl; [reflexivity | constructor | discriminate | constructor].
Qed.

(** C5, as amended.  In the tree that [buildTree] returns, at every node:
    the depth is the number of steps from the root (the root has depth 0
    and a child the depth of its parent plus one), and the children stand
    directories first, each group in the strict byte-wise order of the
    names, which is the order of Go's [<] on strings and not that of the
    alphabet: [Banana] stands before [apple] and [10] before [9]. *)
Theorem buildTree_sorted_and_levelled start files t :
  Forall (fun f => Z.of_nat (String.length f) < int_max) files ->
  buildTree start files = Some t ->
  depth t = 0 /\
  forall p n, deref t p = Some n ->
    depth n = len p /\
    (forall i c, children n !! i = Some c -> depth c = depth n + 1) /\
    (forall i j a b, (i < j)%nat ->
       children n !! i = Some a -> children n !! j = Some b ->
       (isDir b = true -> isDir a = true) /\
       (isDir a = isDir b -> String.ltb (name a) (name b) = true)).
Proof.
  intros Hl Hb. destruct (buildTree_wf _ _ _ Hl Hb) as [Hwf Hs].
  split; [destruct Hwf; assumption|].
  intros p n Hp.
  pose proof (wf_node_deref t 0 Hwf p n Hp) as Hn. rewrite Z.add_0_l in Hn.
  pose proof (Every_deref _ _ Hs p n Hp) as Hsn.
  destruct Hn as [d n Hdep Hnd _ Hcs].
  split; [exact Hdep|]. split.
  - intros i c Hc. rewrite Hdep.
    pose proof (Forall_lookup_1 _ _ _ _ Hcs Hc) as Hwc. destruct Hwc; assumption.
  - intros i j a b Hij Ha Hb'.
    pose proof (StronglySorted_lookup _ _ i j a b Hsn Hij Ha Hb') as Hab.
    assert (Hne : name a <> name b).
    { intros Heq. assert (i = j); [|lia].
      apply (NoDup_lookup _ i j (name a) Hnd); rewrite list_lookup_fmap.
      - rewrite Ha. reflexivity.
      - rewrite Hb', Heq. reflexivity. }
    apply node_precedes_iff in Hab as [[H1 H2]|[H1 H2]].
    + split; [congruence|]. intros H. congruence.
    + split; [congruence|]. intros _. apply string_ltb_true. split; assumption.
Qed.

Lemma buildTree_sorted_and_levelled_witness :
  buildTree "." files_mixed_names = Some tree_mixed_names /\
  map (fun c => (isDir c, name c)) (children tree_mixed_names) =
    [(true, "Src"); (true, "src");
     (false, "10"); (false, "9"); (false, "Banana"); (false, "apple")]%string /\
  depth tree_mixed_names = 0 /\
  forall p n, deref tree_mixed_names p = Some n ->
    depth n = len p /\
    (forall i c, children n !! i = Some c -> depth c = depth n + 1) /\
    (forall i j a b, (i < j)%nat ->
       children n !! i = Some a -> children n !! j = Some b ->
       (isDir b = true -> isDir a = true) /\
       (isDir a = isDir b -> String.ltb (name a) (name b) = true)).
Proof.
  split; [vm_compute; reflexivity|]. split; [reflexivity|].
  refine (buildTree_sorted_and_levelled "." files_mixed_names tree_mixed_names _ _).
  - repeat (constructor; [vm_compute; reflexivity|]). constructor.
  - vm_compute. reflexivity.
Defined.

(** The file [a.go] directly under the start directory: its path has one
    segment, its depth is 1. *)
Lemma depth_is_not_segments_minus_one :
  exists t n,
    buildTree "." ["a.go"%string] = Some t /\
    deref t [0%nat] = Some n /\
    filepath_ToSlash (relBase n) = "a.go"%string /\
    len (strings_Split (filepath_ToSlash (relBase n)) slash) = 1 /\
    depth n = 1 /\
    depth n <> len (strings_Split (filepath_ToSlash (relBase n)) slash) - 1.
Proof.
  eexists. eexists. split; [vm_compute; reflexivity|].
  split; [reflexivity|]. vm_compute. repeat split; discriminate.
Qed.

(** ** TreeModel *)

Lemma elem_of_range_from {A B} (body : nat -> A -> list B) cs : forall i x,
  x ∈ range_from body i cs <-> exists k c, cs !! k = Some c /\ x ∈ body (i + k)%nat c.
Proof.
  induction cs as [|c cs IH]; intros i x; simpl.
  - split; [intros H; inversion H | intros (k & c & H & _); discriminate].
  - rewrite elem_of_app, IH. split.
    + intros [H|(k & c' & Hk & H)].
      * exists O, c. rewrite Nat.add_0_r. split; [reflexivity | exact H].
      * exists (S k), c'. rewrite Nat.add_succ_r. split; [exact Hk | exact H].
    + intros ([|k] & c' & Hk & H); simpl in Hk.
      * injection Hk as <-. rewrite Nat.add_0_r in H. left. exact H.
      * right. exists k, c'. rewrite Nat.add_succ_r in H. split; [exact Hk | exact H].
Qed.

Lemma range_from_ext {A B} (f g : nat -> A -> list B) cs : forall i,
  (forall k c, cs !! k = Some c -> f (i + k)%nat c = g (i + k)%nat c) ->
  range_from f i cs = range_from g i cs.
Proof.
  induction cs as [|c cs IH]; intros i H; simpl; [reflexivity|].
  rewrite (IH (S i)).
  - specialize (H O c eq_refl). rewrite Nat.add_0_r in H. rewrite H. reflexivity.
  - intros k c' Hk. specialize (H (S k) c' Hk).
    rewrite Nat.add_succ_r in H. exact H.
Qed.

Lemma range_from_map {A B C} (h : B -> C) (f : nat -> A -> list B) cs : forall i,
  map h (range_from f i cs) = range_from (fun i c => map h (f i c)) i cs.
Proof.
  induction cs as [|c cs IH]; intros i; simpl; [reflexivity|].
  rewrite map_app, IH. reflexivity.
Qed.

Lemma range_from_filter {A B} (P : B -> bool) (f : nat -> A -> list B) cs : forall i,
  List.filter P (range_from f i cs) = range_from (fun i c => List.filter P (f i c)) i cs.
Proof.
  induction cs as [|c cs IH]; intros i; simpl; [reflexivity|].
  rewrite List.filter_app, IH. reflexivity.
Qed.

Lemma range_from_length {A B} (f : nat -> A -> list B) cs : forall i,
  length (range_from f i cs) = list_sum (imap (fun k c => length (f (i + k)%nat c)) cs).
Proof.
  induction cs as [|c cs IH]; intros i; simpl; [reflexivity|].
  rewrite length_app, IH, Nat.add_0_r. f_equal. f_equal.
  apply imap_ext. intros k c' _. simpl. rewrite Nat.add_succ_r. reflexivity.
Qed.

Lemma elem_of_walkVisible n : forall pos x,
  x ∈ walkVisible pos n <-> exists q, x = pos ++ q /\ visible n q.
Proof.
  induction n as [n IH] using node_ind_children. intros pos x.
  destruct n as [nm rel d cs dep e s]. simpl in IH.
  change (walkVisible pos (mkNode nm rel d cs dep e s)) with
    (pos :: (if d && e
             then range_from (fun i c => walkVisible (pos ++ [i]) c) O cs
             else [])).
  rewrite elem_of_cons. split.
  - intros [->|H].
    + exists []. rewrite app_nil_r. split; [reflexivity | exact I].
    + destruct (d && e) eqn:Hde; [|inversion H].
      apply elem_of_range_from in H as (k & c & Hk & H). simpl in H.
      rewrite Forall_forall in IH.
      apply (IH c (list_elem_of_lookup_2 _ _ _ Hk)) in H as (q & -> & Hq).
      exists (k :: q). rewrite <- app_assoc. split; [reflexivity|].
      simpl. split; [exact Hde|]. exists c. split; [exact Hk | exact Hq].
  - intros ([|k q] & -> & Hq).
    + left. rewrite app_nil_r. reflexivity.
    + right. simpl in Hq. destruct Hq as (Hde & c & Hk & Hq). rewrite Hde.
      apply elem_of_range_from. exists k, c. split; [exact Hk|]. simpl.
      rewrite Forall_forall in IH.
      apply (IH c (list_elem_of_lookup_2 _ _ _ Hk)).
      exists q. rewrite <- app_assoc. split; [reflexivity | exact Hq].
Qed.

Lemma visible_deref n : forall q, visible n q -> is_Some (deref n q).
Proof.
  intros q. revert n. induction q as [|i q IH]; intros n H; simpl in *.
  - eexists. reflexivity.
  - destruct H as (_ & c & Hc & Hq). rewrite Hc. simpl. apply IH, Hq.
Qed.

Lemma visible_store f p : forall n, visible n p -> visible (store f p n) p.
Proof.
  induction p as [|i p IH]; intros n H; simpl in *; [exact I|].
  destruct H as (Hde & c & Hc & Hq).
  destruct n as [nm rel d cs dep e s]. simpl in *.
  split; [exact Hde|]. exists (store f p c).
  split; [|apply IH, Hq].
  rewrite list_lookup_alter_eq, Hc. reflexivity.
Qed.

Lemma deref_store f p : forall n, deref (store f p n) p = f <$> deref n p.
Proof.
  induction p as [|i p IH]; intros n; simpl; [reflexivity|].
  destruct n as [nm rel d cs dep e s]. simpl.
  rewrite list_lookup_alter_eq. destruct (cs !! i) as [c|]; simpl; [apply IH | reflexivity].
Qed.

Lemma store_store f g p : forall n, store f p (store g p n) = store (fun x => f (g x)) p n.
Proof.
  induction p as [|i p IH]; intros n; simpl; [reflexivity|].
  destruct n as [nm rel d cs dep e s]. unfold set_children. simpl. f_equal.
  rewrite list_alter_alter_eq. apply list_alter_ext; [|reflexivity].
  intros c _. apply IH.
Qed.

Lemma store_id f p : forall n x, deref n p = Some x -> f x = x -> store f p n = n.
Proof.
  induction p as [|i p IH]; intros n x Hd Hf; simpl in *.
  - injection Hd as ->. exact Hf.
  - destruct n as [nm rel d cs dep e s]. unfold set_children. simpl in *. f_equal.
    destruct (cs !! i) as [c|] eqn:Hc; [|discriminate]. simpl in Hd.
    apply list_eq. intros j.
    destruct (decide (i = j)) as [<-|Hne].
    + rewrite list_lookup_alter_eq, Hc. simpl. f_equal. eapply IH; eassumption.
    + apply list_lookup_alter_ne, Hne.
Qed.

Lemma deref_store_selected f :
  (forall x, selected (f x) = selected x) ->
  (forall x, children (f x) = children x) ->
  forall p t q, selected <$> deref (store f p t) q = selected <$> deref t q.
Proof.
  intros Hs Hc p. induction p as [|i p IH]; intros t q.
  - simpl. destruct q as [|j q]; simpl; [rewrite Hs | rewrite Hc]; reflexivity.
  - destruct t as [nm rel d cs dep e s]. destruct q as [|j q]; simpl; [reflexivity|].
    destruct (decide (i = j)) as [<-|Hne].
    + rewrite list_lookup_alter_eq. destruct (cs !! i) as [c|]; simpl; [apply IH | reflexivity].
    + rewrite list_lookup_alter_ne by exact Hne. reflexivity.
Qed.

Lemma indexOf_from_elem l : forall i p,
  p ∈ l ->
  exists k, indexOf_from i l p = Some (i + Z.of_nat k) /\ l !! k = Some p.
Proof.
  induction l as [|x l IH]; intros i p Hp; [inversion Hp|].
  simpl. unfold ptr_eqb. destruct (bool_decide_reflect (x = p)) as [->|Hne].
  - exists O. rewrite Z.add_0_r. split; reflexivity.
  - apply elem_of_cons in Hp as [->|Hp]; [congruence|].
    destruct (IH (i + 1) p Hp) as (k & Hk & Hl).
    exists (S k). split; [rewrite Hk; f_equal; lia | exact Hl].
Qed.

Lemma indexOf_elem l p :
  p ∈ l ->
  0 <= indexOf l p < len l /\ l !! Z.to_nat (indexOf l p) = Some p.
Proof.
  intros Hp. destruct (indexOf_from_elem l 0 p Hp) as (k & Hk & Hl).
  rewrite Z.add_0_l in Hk. unfold indexOf. rewrite Hk. unfold default, from_option, id.
  apply lookup_lt_Some in Hl as Hlt. rewrite Nat2Z.id. unfold len.
  split; [lia | exact Hl].
Qed.

(** ** InteractionController *)

Lemma ensureCursorVisible_tree m :
  root (ensureCursorVisible m) = root m /\ vis (ensureCursorVisible m) = vis m /\
  height (ensureCursorVisible m) = height m.
Proof. destruct m. repeat split; reflexivity. Qed.

Lemma ensureCursorVisible_cursor m :
  0 <= cursor m < len (vis m) -> cursor (ensureCursorVisible m) = cursor m.
Proof.
  intros H. destruct m as [rt v c o w h bs rp ab sc a cf]. simpl in *.
  destruct (Z.ltb_spec c 0); [lia|].
  destruct (Z.leb_spec (len v) c); [lia|]. reflexivity.
Qed.

Lemma Update_left m :
  Update m (KeyMsg "left") = m' ← collapseAtCursor m; Some (m', CmdNil).
Proof. reflexivity. Qed.

Lemma Update_right m :
  Update m (KeyMsg "right") = m' ← expandAtCursor m; Some (m', CmdNil).
Proof. reflexivity. Qed.

Lemma elem_of_flattenVisible t p : p ∈ flattenVisible t <-> visible t p.
Proof.
  unfold flattenVisible. rewrite elem_of_walkVisible. split.
  - intros (q & -> & H). exact H.
  - intros H. exists p. split; [reflexivity | exact H].
Qed.

Lemma vis_at_elem m p : vis_at m = Some p -> p ∈ vis m.
Proof.
  unfold vis_at. destruct (cursor m <? 0); [discriminate|].
  apply list_elem_of_lookup_2.
Qed.

(** C7.  In a state whose visible sequence is the flattening of its tree,
    with the cursor on an expanded directory [D] that has a child: the
    collapse key and then the expand key are both accepted, the visible
    sequence after them is the one before, the tree is the same node for
    node, and after the collapse alone no [selected] flag has changed. *)
Theorem collapse_then_expand_restores (m : model) (p : ptr) (D : node) :
  vis m = flattenVisible (root m) ->
  vis_at m = Some p ->
  deref (root m) p = Some D ->
  isDir D = true -> expanded D = true -> children D <> [] ->
  exists m1 m2,
    Update m (KeyMsg "left") = Some (m1, CmdNil) /\
    Update m1 (KeyMsg "right") = Some (m2, CmdNil) /\
    vis m1 = flattenVisible (root m1) /\
    deref (root m1) p = Some (set_expanded false D) /\
    (forall q, selected <$> deref (root m1) q = selected <$> deref (root m) q) /\
    vis m2 = vis m /\
    root m2 = root m.
Proof.
  intros Hvis Hat HD Hdir Hexp Hcs.
  assert (Hlen : (0 <? len (children D)) = true).
  { destruct (children D); [congruence|]. reflexivity. }
  set (rt1 := store (set_expanded false) p (root m)).
  set (ma := with_cursor (indexOf (flattenVisible rt1) p)
               (with_tree rt1 (flattenVisible rt1) m)).
  assert (Hp1 : p ∈ flattenVisible rt1).
  { apply elem_of_flattenVisible, visible_store, elem_of_flattenVisible.
    rewrite <- Hvis. apply vis_at_elem, Hat. }
  destruct (indexOf_elem _ _ Hp1) as [Hrange Hlook].
  destruct (ensureCursorVisible_tree ma) as (Hr1 & Hv1 & _).
  pose proof (ensureCursorVisible_cursor ma Hrange) as Hc1.
  assert (HD1 : deref rt1 p = Some (set_expanded false D)).
  { unfold rt1. rewrite deref_store, HD. reflexivity. }
  exists (ensureCursorVisible ma).
  exists (ensureCursorVisible
            (with_cursor (indexOf (flattenVisible (root m)) p)
               (with_tree (root m) (flattenVisible (root m)) (ensureCursorVisible ma)))).
  split.
  { rewrite Update_left. unfold collapseAtCursor. rewrite Hat. cbn [mbind option_bind].
    rewrite HD. cbn [mbind option_bind]. rewrite Hdir, Hexp, Hlen. reflexivity. }
  split.
  { rewrite Update_right. unfold expandAtCursor.
    assert (vis_at (ensureCursorVisible ma) = Some p) as ->.
    { unfold vis_at. rewrite Hc1, Hv1.
      destruct (Z.ltb_spec (cursor ma) 0); [simpl in *; lia | exact Hlook]. }
    cbn [mbind option_bind]. rewrite Hr1. change (root ma) with rt1.
    rewrite HD1. cbn [mbind option_bind].
    assert (store (set_expanded true) p rt1 = root m) as ->.
    { unfold rt1. rewrite store_store. eapply store_id; [exact HD|].
      destruct D; simpl in *; subst; reflexivity. }
    destruct D as [nm rel d cs dep e s]. simpl in *. rewrite Hdir, Hlen. reflexivity. }
  split; [rewrite Hv1, Hr1; reflexivity|].
  split; [rewrite Hr1; exact HD1|].
  split.
  { intros q. rewrite Hr1. apply deref_store_selected; intros []; reflexivity. }
  split.
  - destruct (ensureCursorVisible_tree
                (with_cursor (indexOf (flattenVisible (root m)) p)
                   (with_tree (root m) (flattenVisible (root m)) (ensureCursorVisible ma))))
      as (_ & -> & _).
    simpl. symmetry. exact Hvis.
  - destruct (ensureCursorVisible_tree
                (with_cursor (indexOf (flattenVisible (root m)) p)
                   (with_tree (root m) (flattenVisible (root m)) (ensureCursorVisible ma))))
      as (-> & _ & _).
    reflexivity.
Qed.

Lemma collapse_then_expand_restores_witness :
  exists m1 m2,
    Update model_on_dir (KeyMsg "left") = Some (m1, CmdNil) /\
    Update m1 (KeyMsg "right") = Some (m2, CmdNil) /\
    vis m1 = flattenVisible (root m1) /\
    deref (root m1) [0%nat] =
      Some (set_expanded false
              (mkNode "d" "d" true [mkNode "x" "d/x" false [] 2 false true] 1 true false)) /\
    (forall q, selected <$> deref (root m1) q = selected <$> deref (root model_on_dir) q) /\
    vis m2 = vis model_on_dir /\
    root m2 = root model_on_dir.
Proof.
  apply (collapse_then_expand_restores model_on_dir [0%nat]);
    [reflexivity | reflexivity | reflexivity | reflexivity | reflexivity | discriminate].
Defined.

Lemma walkVisible_length n : forall pos, (length (walkVisible pos n) <= tree_size n)%nat.
Proof.
  induction n as [n IH] using node_ind_children. intros pos.
  destruct n as [nm rel d cs dep e s]. simpl in IH.
  change (walkVisible pos (mkNode nm rel d cs dep e s)) with
    (pos :: (if d && e
             then range_from (fun i c => walkVisible (pos ++ [i]) c) O cs
             else [])).
  change (tree_size (mkNode nm rel d cs dep e s)) with (S (list_sum (map tree_size cs))).
  cbn [length]. apply le_n_S.
  destruct (d && e); [|simpl; lia].
  generalize O as i. induction IH as [|c cs Hc _ IHcs]; intros i; simpl; [lia|].
  rewrite length_app. specialize (Hc (pos ++ [i])). specialize (IHcs (S i)). lia.
Qed.

Lemma walkVisible_nonempty n pos : (1 <= length (walkVisible pos n))%nat.
Proof. destruct n; simpl; lia. Qed.

Lemma alter_fmap_same {A B} (h : A -> B) (g : A -> A) i l :
  (forall x, l !! i = Some x -> h (g x) = h x) -> map h (alter g i l) = map h l.
Proof.
  intros H. apply list_eq. intros j. rewrite !list_lookup_fmap.
  destruct (decide (i = j)) as [<-|Hne].
  - rewrite list_lookup_alter_eq. destruct (l !! i) as [x|] eqn:E; simpl; [|reflexivity].
    rewrite (H x eq_refl). reflexivity.
  - rewrite list_lookup_alter_ne by exact Hne. reflexivity.
Qed.

Lemma tree_size_store f :
  (forall x, tree_size (f x) = tree_size x) ->
  forall p t, tree_size (store f p t) = tree_size t.
Proof.
  intros Hf p. induction p as [|i p IH]; intros t; simpl; [apply Hf|].
  destruct t as [nm rel d cs dep e s]. simpl. f_equal. f_equal.
  apply alter_fmap_same. intros x _. apply IH.
Qed.

Lemma range_from_alter {A B} (F : nat -> A -> list B) (g : A -> A) k cs : forall i,
  (forall j c, cs !! k = Some c -> F j (g c) = F j c) ->
  range_from F i (alter g k cs) = range_from F i cs.
Proof.
  revert k. induction cs as [|c cs IH]; intros k i H; [reflexivity|].
  destruct k as [|k]; simpl.
  - rewrite (H i c eq_refl). reflexivity.
  - f_equal. apply IH. intros j c' Hc. apply H. exact Hc.
Qed.

(** An assignment to [selected] does not change what is visible. *)
Lemma walkVisible_store_selected s p : forall t pos,
  walkVisible pos (store (set_selected s) p t) = walkVisible pos t.
Proof.
  induction p as [|i p IH]; intros t pos.
  - destruct t; reflexivity.
  - destruct t as [nm rel d cs dep e s']. 
    change (store (set_selected s) (i :: p) (mkNode nm rel d cs dep e s')) with
      (mkNode nm rel d (alter (store (set_selected s) p) i cs) dep e s').
    change (walkVisible pos (mkNode nm rel d (alter (store (set_selected s) p) i cs) dep e s'))
      with (pos :: (if d && e
                    then range_from (fun i c => walkVisible (pos ++ [i]) c) O
                           (alter (store (set_selected s) p) i cs)
                    else [])).
    change (walkVisible pos (mkNode nm rel d cs dep e s')) with
      (pos :: (if d && e
               then range_from (fun i c => walkVisible (pos ++ [i]) c) O cs
               else [])).
    f_equal. destruct (d && e); [|reflexivity].
    apply range_from_alter. intros j c _. apply IH.
Qed.

Lemma wrap64_spec z :
  exists k, wrap64 z = z + 2 ^ 64 * k /\ - 2 ^ 63 <= wrap64 z <= 2 ^ 63 - 1.
Proof.
  exists (- ((z + 2 ^ 63) / 2 ^ 64)). split; [|apply wrap64_is_int].
  unfold wrap64. pose proof (Z.div_mod (z + 2 ^ 63) (2 ^ 64)). lia.
Qed.

Ltac wrap_term x :=
  let k := fresh "k" in
  let E := fresh "E" in
  let R := fresh "R" in
  destruct (wrap64_spec x) as (k & E & R);
  generalize dependent (wrap64 x); intros.

Ltac wrap_case :=
  match goal with
  | |- context [wrap64 ?x] => wrap_term x
  | _ : context [wrap64 ?x] |- _ => wrap_term x
  end.

Ltac if_case :=
  match goal with
  | |- context [if ?a <? ?b then _ else _] => destruct (Z.ltb_spec a b)
  | |- context [if ?a <=? ?b then _ else _] => destruct (Z.leb_spec a b)
  end.

Lemma viewportHeight_range m : 1 <= viewportHeight m <= int_max.
Proof.
  unfold viewportHeight, int_sub, int_max. wrap_case. if_case; unfold int_max in *; lia.
Qed.

(** [ensureCursorVisible] brings any cursor and offset into range. *)
Lemma ensureCursorVisible_inv m :
  1 <= len (vis m) <= int_max ->
  is_int (cursor m) -> is_int (offset m) ->
  0 <= cursor (ensureCursorVisible m) < len (vis m) /\
  scroll_inv (ensureCursorVisible m).
Proof.
  intros HL Hc Ho.
  unfold scroll_inv.
  destruct (ensureCursorVisible_tree m) as (_ & Hv & Hh).
  assert (viewportHeight (ensureCursorVisible m) = viewportHeight m) as ->
    by (unfold viewportHeight; rewrite Hh; reflexivity).
  rewrite Hv. clear Hv Hh.
  pose proof (viewportHeight_range m) as Hvh.
  unfold ensureCursorVisible.
  set (vh := viewportHeight m) in *. clearbody vh.
  destruct m as [rt v c o w h bs rp ab sc a cf].
  unfold with_cursor, with_offset. cbv zeta. cbn [cursor offset vis] in *.
  set (L := len v) in *. clearbody L.
  set (c1 := if c <? 0 then 0 else c).
  set (c2 := if L <=? c1 then _ else c1).
  set (o1 := if c2 <? o then c2 else o).
  set (o2 := if int_add o1 vh <=? c2 then _ else o1).
  set (mo := if int_sub L vh <? 0 then 0 else int_sub L vh).
  set (o3 := if mo <? o2 then mo else o2).
  unfold int_add, int_sub, is_int, int_min, int_max in *.
  assert (H1 : 0 <= c1 <= 2 ^ 63 - 1) by (subst c1; if_case; lia).
  clearbody c1.
  assert (H2 : 0 <= c2 < L).
  { subst c2. repeat wrap_case. repeat if_case; lia. }
  clearbody c2.
  assert (H3 : - 2 ^ 63 <= o1 <= c2) by (subst o1; if_case; lia).
  clearbody o1.
  assert (H4 : - 2 ^ 63 <= o2 <= c2 /\ c2 < o2 + vh).
  { subst o2. repeat wrap_case. repeat if_case; lia. }
  clearbody o2.
  assert (H5 : mo = Z.max 0 (L - vh)).
  { subst mo. wrap_case. if_case; lia. }
  clearbody mo.
  assert (H6 : - 2 ^ 63 <= o3 <= c2 /\ c2 < o3 + vh /\ o3 <= mo).
  { subst o3. if_case; lia. }
  clearbody o3.
  if_case; lia.
Qed.

Lemma flattenVisible_len t : 1 <= len (flattenVisible t) <= Z.of_nat (tree_size t).
Proof.
  unfold len, flattenVisible.
  pose proof (walkVisible_length t []). pose proof (walkVisible_nonempty t []). lia.
Qed.

Lemma indexOf_from_range l : forall i p j,
  indexOf_from i l p = Some j -> i <= j < i + len l.
Proof.
  induction l as [|x l IH]; intros i p j H; simpl in H; [discriminate|].
  rewrite len_cons. pose proof (len_nonneg l).
  destruct (ptr_eqb x p).
  - injection H as <-. lia.
  - apply IH in H. lia.
Qed.

Lemma indexOf_range l p : 0 <= indexOf l p <= len l.
Proof.
  unfold indexOf. pose proof (len_nonneg l).
  destruct (indexOf_from 0 l p) as [j|] eqn:E; simpl; [|lia].
  apply indexOf_from_range in E. unfold id. lia.
Qed.

Lemma consistent_ensure t0 m :
  Z.of_nat (tree_size t0) <= int_max ->
  tree_size (root m) = tree_size t0 ->
  vis m = flattenVisible (root m) ->
  is_int (cursor m) -> is_int (offset m) ->
  consistent t0 (ensureCursorVisible m).
Proof.
  intros Hb Hs Hv Hc Ho.
  assert (HL : 1 <= len (vis m) <= int_max).
  { rewrite Hv. pose proof (flattenVisible_len (root m)). lia. }
  destruct (ensureCursorVisible_inv m HL Hc Ho) as [H1 H2].
  destruct (ensureCursorVisible_tree m) as (Hr & Hv' & _).
  unfold consistent. rewrite Hr, Hv'. auto.
Qed.

Lemma consistent_ints t0 m :
  Z.of_nat (tree_size t0) <= int_max -> consistent t0 m ->
  is_int (cursor m) /\ is_int (offset m) /\ 1 <= len (vis m) <= int_max.
Proof.
  intros Hb (Hs & Hv & Hc & Hsc & Ho).
  assert (HL : 1 <= len (vis m) <= int_max).
  { rewrite Hv. pose proof (flattenVisible_len (root m)). lia. }
  pose proof (viewportHeight_range m).
  unfold is_int, int_min, int_max in *. lia.
Qed.

Lemma consistent_expand t0 m p b :
  Z.of_nat (tree_size t0) <= int_max -> consistent t0 m ->
  let rt := store (set_expanded b) p (root m) in
  consistent t0
    (ensureCursorVisible
       (with_cursor (indexOf (flattenVisible rt) p) (with_tree rt (flattenVisible rt) m))).
Proof.
  intros Hb Hm rt.
  destruct (consistent_ints t0 m Hb Hm) as (_ & Ho & _).
  destruct Hm as (Hs & _).
  assert (Hs' : tree_size rt = tree_size t0).
  { unfold rt. rewrite tree_size_store; [exact Hs | intros []; reflexivity]. }
  apply consistent_ensure; try assumption; try reflexivity.
  simpl. pose proof (indexOf_range (flattenVisible rt) p).
  pose proof (flattenVisible_len rt).
  unfold is_int, int_min, int_max in *. lia.
Qed.

Lemma consistent_init t bs repo bin :
  consistent t (newModel t bs repo bin).
Proof.
  unfold consistent, scroll_inv. simpl.
  pose proof (flattenVisible_len t).
  change (viewportHeight (newModel t bs repo bin)) with 1.
  repeat split; try reflexivity; lia.
Qed.

Lemma consistent_step t0 m ms m' c :
  Z.of_nat (tree_size t0) <= int_max ->
  consistent t0 m -> Update m ms = Some (m', c) -> consistent t0 m'.
Proof.
  intros Hb Hm HU.
  destruct (consistent_ints t0 m Hb Hm) as (Hci & Hoi & HL).
  pose proof Hm as (Hs & Hv & Hc & Hsc).
  destruct ms as [w h|k|]; simpl in HU.
  - injection HU as <- <-. apply consistent_ensure; assumption.
  - destruct (key_Matches k keys_Quit).
    { injection HU as <- <-. destruct m; exact Hm. }
    destruct (key_Matches k keys_Up).
    { injection HU as <- <-.
      destruct (0 <? cursor m); apply consistent_ensure; try assumption.
      apply wrap64_is_int. }
    destruct (key_Matches k keys_Down).
    { injection HU as <- <-.
      destruct (cursor m <? int_sub (len (vis m)) 1);
        apply consistent_ensure; try assumption.
      apply wrap64_is_int. }
    destruct (key_Matches k keys_Right).
    { unfold expandAtCursor in HU.
      destruct (vis_at m) as [p|]; [|discriminate]. cbn [mbind option_bind] in HU.
      destruct (deref (root m) p) as [n|]; [|discriminate]. cbn [mbind option_bind] in HU.
      destruct (isDir n && negb (expanded n) && (0 <? len (children n)));
        cbn [mbind option_bind] in HU; injection HU as <- <-;
        [apply consistent_expand; assumption | exact Hm]. }
    destruct (key_Matches k keys_Left).
    { unfold collapseAtCursor in HU.
      destruct (vis_at m) as [p|]; [|discriminate]. cbn [mbind option_bind] in HU.
      destruct (deref (root m) p) as [n|]; [|discriminate]. cbn [mbind option_bind] in HU.
      destruct (isDir n && expanded n && (0 <? len (children n)));
        cbn [mbind option_bind] in HU; injection HU as <- <-;
        [apply consistent_expand; assumption | exact Hm]. }
    destruct (key_Matches k keys_Toggle).
    { unfold toggle in HU.
      destruct (vis_at m) as [p|]; [|discriminate]. cbn [mbind option_bind] in HU.
      destruct (deref (root m) p) as [n|]; [|discriminate]. cbn [mbind option_bind] in HU.
      destruct (negb (isDir n)); cbn [mbind option_bind] in HU;
        injection HU as <- <-; [|exact Hm].
      destruct m as [rt v cu o w h bs rp ab sc a cf].
      unfold consistent, scroll_inv in *. simpl in *.
      split; [rewrite tree_size_store; [exact Hs | intros []; reflexivity]|].
      split; [|split; assumption].
      unfold flattenVisible. rewrite walkVisible_store_selected. exact Hv. }
    destruct (key_Matches k keys_Confirm).
    { injection HU as <- <-. destruct m; exact Hm. }
    injection HU as <- <-. exact Hm.
  - injection HU as <- <-. exact Hm.
Qed.

Lemma reachable_consistent t bs repo bin m :
  Z.of_nat (tree_size t) <= int_max ->
  reachable (newModel t bs repo bin) m -> consistent t m.
Proof.
  intros Hb Hr. induction Hr as [|m ms m' c _ IH HU].
  - apply consistent_init.
  - eapply consistent_step; eassumption.
Qed.

(** X28.  No state of a session makes [Update] panic: in every state that
    key and resize events produce from the first model, [Update] returns a
    model for every message. *)
Lemma reachable_Update_total t bs repo bin m ms :
  Z.of_nat (tree_size t) <= int_max ->
  reachable (newModel t bs repo bin) m ->
  exists m' c, Update m ms = Some (m', c).
Proof.
  intros Hb Hr. pose proof (reachable_consistent _ _ _ _ _ Hb Hr) as (_ & Hv & Hc & _).
  assert (exists p n, vis_at m = Some p /\ deref (root m) p = Some n) as (p & n & Hp & Hn).
  { unfold vis_at. destruct (Z.ltb_spec (cursor m) 0); [lia|].
    destruct (lookup_lt_is_Some_2 (vis m) (Z.to_nat (cursor m))) as [p Hp].
    { unfold len in Hc. lia. }
    assert (Hin : p ∈ flattenVisible (root m))
      by (rewrite <- Hv; eapply list_elem_of_lookup_2, Hp).
    apply elem_of_flattenVisible, visible_deref in Hin as [n Hn].
    exists p, n. split; assumption. }
  assert (He : exists m', expandAtCursor m = Some m').
  { unfold expandAtCursor. rewrite Hp. cbn [mbind option_bind]. rewrite Hn.
    cbn [mbind option_bind]. destruct (_ && _); eauto. }
  assert (Hl : exists m', collapseAtCursor m = Some m').
  { unfold collapseAtCursor. rewrite Hp. cbn [mbind option_bind]. rewrite Hn.
    cbn [mbind option_bind]. destruct (_ && _); eauto. }
  assert (Ht : exists m', toggle m = Some m').
  { unfold toggle. rewrite Hp. cbn [mbind option_bind]. rewrite Hn.
    cbn [mbind option_bind]. destruct (negb _); eauto. }
  destruct He as [me He], Hl as [ml Hl], Ht as [mt Ht].
  destruct ms as [w h|k|]; simpl; eauto.
  rewrite He, Hl, Ht. cbn [mbind option_bind].
  repeat match goal with |- context [if ?b then _ else _] => destruct b end; eauto.
Qed.

(** C8.  In every state that key and resize events produce from the
    initial state of a session, the cursor lies in
    [[offset, offset + viewportHeight)] and the offset in
    [[0, max(0, len(vis) - viewportHeight)]]. *)
Theorem scroll_invariant t bs repo bin m :
  Z.of_nat (tree_size t) <= int_max ->
  reachable (newModel t bs repo bin) m ->
  offset m <= cursor m < offset m + viewportHeight m /\
  0 <= offset m <= Z.max 0 (len (vis m) - viewportHeight m).
Proof.
  intros Hb Hr. apply (reachable_consistent _ _ _ _ _ Hb Hr).
Qed.

Lemma scroll_invariant_witness :
  cursor model_down2 = 2 /\ offset model_down2 = 1 /\ viewportHeight model_down2 = 2 /\
  (offset model_down2 <= cursor model_down2 < offset model_down2 + viewportHeight model_down2 /\
   0 <= offset model_down2 <=
     Z.max 0 (len (vis model_down2) - viewportHeight model_down2)).
Proof.
  split; [reflexivity|]. split; [reflexivity|]. split; [reflexivity|].
  apply (scroll_invariant tree_two_levels "" false false model_down2);
    [vm_compute; discriminate|].
  apply (reach_step _ model_down1 (KeyMsg "down") _ CmdNil); [|reflexivity].
  apply (reach_step _ model_sized (KeyMsg "down") _ CmdNil); [|reflexivity].
  apply (reach_step _ model_start (WindowSizeMsg 80 4) _ CmdNil); [|reflexivity].
  apply reach_init.
Defined.

(** ** Selected files *)

Lemma walkSelected_selPtrs n : walkSelected n = map (path_at n) (selPtrs n).
Proof.
  induction n as [n IH] using node_ind_children.
  destruct n as [nm rel d cs dep e s]. simpl in IH.
  change (walkSelected (mkNode nm rel d cs dep e s)) with
    ((if negb d && s then [filepath_ToSlash rel] else []) ++
     (if d then range_from (fun _ c => walkSelected c) O cs else [])).
  change (selPtrs (mkNode nm rel d cs dep e s)) with
    ((if negb d && s then [[]] else []) ++
     (if d then range_from (fun i c => map (cons i) (selPtrs c)) O cs else [])).
  rewrite map_app. f_equal; [destruct (negb d && s); reflexivity|].
  destruct d; [|reflexivity].
  rewrite range_from_map. apply range_from_ext. intros k c Hk.
  rewrite Forall_forall in IH. rewrite (IH c (list_elem_of_lookup_2 _ _ _ Hk)).
  rewrite map_map. apply map_ext. intros q. unfold path_at. simpl.
  rewrite Hk. reflexivity.
Qed.

Lemma range_from_cons_head {A} (g : A -> list ptr) cs : forall i x,
  x ∈ range_from (fun i c => map (cons i) (g c)) i cs ->
  exists k q, x = (i + k)%nat :: q.
Proof.
  intros i x H. apply elem_of_range_from in H as (k & c & _ & H).
  apply list_elem_of_fmap in H as (q & -> & _). exists k, q. reflexivity.
Qed.

Lemma NoDup_range_from_cons {A} (g : A -> list ptr) cs : forall i,
  Forall (fun c => NoDup (g c)) cs ->
  NoDup (range_from (fun i c => map (cons i) (g c)) i cs).
Proof.
  induction cs as [|c cs IH]; intros i H; simpl; [constructor|].
  inversion H as [|? ? Hc Hcs]; subst.
  apply NoDup_app. split; [|split].
  - apply NoDup_fmap_2_strong; [|exact Hc]. intros ? ? _ _ Heq. congruence.
  - intros x Hx Hx'. apply list_elem_of_fmap in Hx as (q & -> & _).
    apply range_from_cons_head in Hx' as (k & q' & Heq). injection Heq as Heq _. lia.
  - apply IH, Hcs.
Qed.

Lemma NoDup_selPtrs n : NoDup (selPtrs n).
Proof.
  induction n as [n IH] using node_ind_children.
  destruct n as [nm rel d cs dep e s]. simpl in IH.
  change (selPtrs (mkNode nm rel d cs dep e s)) with
    ((if negb d && s then [[]] else []) ++
     (if d then range_from (fun i c => map (cons i) (selPtrs c)) O cs else [])).
  apply NoDup_app. split; [|split].
  - destruct (negb d && s); [apply NoDup_singleton | constructor].
  - intros x Hx Hx'. destruct (negb d && s); [|inversion Hx].
    apply list_elem_of_singleton in Hx as ->. destruct d; [|inversion Hx'].
    apply range_from_cons_head in Hx' as (k & q & Heq). discriminate.
  - destruct d; [|constructor]. apply NoDup_range_from_cons, IH.
Qed.

Lemma selPtrs_sound n : forall p,
  p ∈ selPtrs n -> exists x, deref n p = Some x /\ is_selected_file x = true.
Proof.
  induction n as [n IH] using node_ind_children. intros p.
  destruct n as [nm rel d cs dep e s]. simpl in IH.
  change (selPtrs (mkNode nm rel d cs dep e s)) with
    ((if negb d && s then [[]] else []) ++
     (if d then range_from (fun i c => map (cons i) (selPtrs c)) O cs else [])).
  rewrite elem_of_app. intros [H|H].
  - destruct (negb d && s) eqn:E; [|inversion H].
    apply list_elem_of_singleton in H as ->. eexists. split; [reflexivity | exact E].
  - destruct d; [|inversion H].
    apply elem_of_range_from in H as (k & c & Hk & H). simpl in H.
    apply list_elem_of_fmap in H as (q & -> & Hq).
    rewrite Forall_forall in IH.
    destruct (IH c (list_elem_of_lookup_2 _ _ _ Hk) q Hq) as (x & Hx & Hs).
    exists x. simpl. rewrite Hk. split; [exact Hx | exact Hs].
Qed.

Lemma selPtrs_complete p : forall n d x,
  wf_node d n -> deref n p = Some x -> is_selected_file x = true -> p ∈ selPtrs n.
Proof.
  induction p as [|i q IH]; intros n d x Hwf Hx Hs; simpl in Hx.
  - injection Hx as ->. destruct x as [nm rel dd cs dep e s].
    change (selPtrs (mkNode nm rel dd cs dep e s)) with
      ((if negb dd && s then [[]] else []) ++
       (if dd then range_from (fun i c => map (cons i) (selPtrs c)) O cs else [])).
    unfold is_selected_file in Hs. simpl in Hs. rewrite Hs.
    apply elem_of_app. left. apply list_elem_of_singleton. reflexivity.
  - destruct (children n !! i) as [c|] eqn:Hc; [|discriminate]. simpl in Hx.
    destruct Hwf as [d n _ _ Hleaf Hcs].
    assert (Hd : isDir n = true).
    { destruct (isDir n); [reflexivity|]. rewrite Hleaf in Hc by reflexivity. discriminate. }
    destruct n as [nm rel dd cs dep e s]. simpl in *. subst dd.
    change (selPtrs (mkNode nm rel true cs dep e s)) with
      ((if negb true && s then [[]] else []) ++
       range_from (fun i c => map (cons i) (selPtrs c)) O cs).
    apply elem_of_app. right. apply elem_of_range_from.
    exists i, c. split; [exact Hc|]. simpl. apply list_elem_of_fmap.
    exists q. split; [reflexivity|].
    eapply IH; [|exact Hx | exact Hs]. eapply Forall_lookup_1; eassumption.
Qed.

Lemma erase_unfold n :
  erase n = mkNode (name n) (relBase n) (isDir n) (map erase (children n)) (depth n)
                   false false.
Proof. destruct n; reflexivity. Qed.

Lemma flag_only_id : flag_only (fun x => x).
Proof. intros x. done. Qed.

Lemma flag_only_expanded b : flag_only (set_expanded b).
Proof. intros []. done. Qed.

Lemma flag_only_selected b : flag_only (set_selected b).
Proof. intros []. done. Qed.

Lemma store_keys f p t :
  flag_only f ->
  name (store f p t) = name t /\ isDir (store f p t) = isDir t /\
  depth (store f p t) = depth t /\ relBase (store f p t) = relBase t.
Proof.
  intros Hf. destruct p as [|i p]; simpl.
  - destruct (Hf t) as (? & ? & ? & ? & ?). done.
  - destruct t; done.
Qed.

Lemma erase_store f p : flag_only f -> forall t, erase (store f p t) = erase t.
Proof.
  intros Hf. induction p as [|i p IH]; intros t; simpl.
  - rewrite (erase_unfold (f t)), (erase_unfold t).
    destruct (Hf t) as (-> & -> & -> & -> & ->). reflexivity.
  - destruct t as [nm rel d cs dep e s].
    rewrite !erase_unfold. simpl. f_equal.
    apply alter_fmap_same. intros x _. apply IH.
Qed.

Lemma wf_store f p : flag_only f -> forall d t, wf_node d t -> wf_node d (store f p t).
Proof.
  intros Hf. induction p as [|i p IH]; intros d t Hwf; simpl.
  - destruct Hwf as [d t Hdep Hnd Hleaf Hcs].
    destruct (Hf t) as (Hn & _ & Hd & Hc & Hdp).
    constructor; rewrite ?Hc, ?Hd, ?Hdp; assumption.
  - destruct Hwf as [d t Hdep Hnd Hleaf Hcs].
    destruct t as [nm rel dd cs dep e s]. simpl in *.
    constructor; simpl.
    + exact Hdep.
    + rewrite alter_fmap_same; [exact Hnd|].
      intros x _. apply (store_keys f p x Hf).
    + intros Hd. rewrite (Hleaf Hd). reflexivity.
    + apply Forall_alter; [exact Hcs|]. intros x _ Hx. apply IH, Hx.
Qed.

Lemma Update_root m ms m' c :
  Update m ms = Some (m', c) ->
  exists f p, flag_only f /\ root m' = store f p (root m).
Proof.
  assert (Hid : forall m1, root m1 = root m ->
            exists f p, flag_only f /\ root m1 = store f p (root m)).
  { intros m1 H. exists (fun x => x), []. split; [apply flag_only_id | exact H]. }
  intros HU. destruct ms as [w h|k|]; simpl in HU.
  - injection HU as <- <-. apply Hid. destruct m; reflexivity.
  - destruct (key_Matches k keys_Quit).
    { injection HU as <- <-. apply Hid. destruct m; reflexivity. }
    destruct (key_Matches k keys_Up).
    { injection HU as <- <-. apply Hid.
      destruct (0 <? cursor m); destruct m; reflexivity. }
    destruct (key_Matches k keys_Down).
    { injection HU as <- <-. apply Hid.
      destruct (cursor m <? int_sub (len (vis m)) 1); destruct m; reflexivity. }
    destruct (key_Matches k keys_Right).
    { unfold expandAtCursor in HU.
      destruct (vis_at m) as [p|]; [|discriminate]. cbn [mbind option_bind] in HU.
      destruct (deref (root m) p) as [n|]; [|discriminate]. cbn [mbind option_bind] in HU.
      destruct (isDir n && negb (expanded n) && (0 <? len (children n)));
        cbn [mbind option_bind] in HU; injection HU as <- <-; [|apply Hid; reflexivity].
      exists (set_expanded true), p. split; [apply flag_only_expanded|].
      destruct m; reflexivity. }
    destruct (key_Matches k keys_Left).
    { unfold collapseAtCursor in HU.
      destruct (vis_at m) as [p|]; [|discriminate]. cbn [mbind option_bind] in HU.
      destruct (deref (root m) p) as [n|]; [|discriminate]. cbn [mbind option_bind] in HU.
      destruct (isDir n && expanded n && (0 <? len (children n)));
        cbn [mbind option_bind] in HU; injection HU as <- <-; [|apply Hid; reflexivity].
      exists (set_expanded false), p. split; [apply flag_only_expanded|].
      destruct m; reflexivity. }
    destruct (key_Matches k keys_Toggle).
    { unfold toggle in HU.
      destruct (vis_at m) as [p|]; [|discriminate]. cbn [mbind option_bind] in HU.
      destruct (deref (root m) p) as [n|]; [|discriminate]. cbn [mbind option_bind] in HU.
      destruct (negb (isDir n)); cbn [mbind option_bind] in HU;
        injection HU as <- <-; [|apply Hid; reflexivity].
      exists (set_selected (negb (selected n))), p. split; [apply flag_only_selected|].
      destruct m; reflexivity. }
    destruct (key_Matches k keys_Confirm).
    { injection HU as <- <-. apply Hid. destruct m; reflexivity. }
    injection HU as <- <-. apply Hid. reflexivity.
  - injection HU as <- <-. apply Hid. reflexivity.
Qed.

Lemma run_root msgs : forall m m' d,
  run m msgs = Some m' ->
  erase (root m') = erase (root m) /\ (wf_node d (root m) -> wf_node d (root m')).
Proof.
  induction msgs as [|ms msgs IH]; intros m m' d Hr; simpl in Hr.
  - injection Hr as <-. split; [reflexivity | auto].
  - destruct (Update m ms) as [[m1 c]|] eqn:HU; [|discriminate]. simpl in Hr.
    destruct (Update_root _ _ _ _ HU) as (f & p & Hf & Hroot).
    destruct (IH m1 m' d Hr) as [He Hw]. split.
    + rewrite He, Hroot. apply erase_store, Hf.
    + intros H. apply Hw. rewrite Hroot. apply wf_store; assumption.
Qed.

Lemma range_from_pointwise {A B} (g : A -> list B) cs1 cs2 :
  Forall2 (fun a b => g a = g b) cs1 cs2 ->
  forall i j, range_from (fun _ => g) i cs1 = range_from (fun _ => g) j cs2.
Proof.
  induction 1 as [|a b cs1 cs2 Hab _ IH]; intros i j; simpl; [reflexivity|].
  rewrite Hab, (IH (S i) (S j)). reflexivity.
Qed.

(** Two trees that differ in flags only and agree on the [selected] flag
    of every file yield the same walk. *)
Lemma walkSelected_same t1 : forall t2,
  erase t1 = erase t2 ->
  (forall p n1 n2, deref t1 p = Some n1 -> deref t2 p = Some n2 ->
                   isDir n1 = false -> selected n2 = selected n1) ->
  walkSelected t1 = walkSelected t2.
Proof.
  induction t1 as [t1 IH] using node_ind_children. intros t2 He Hs.
  destruct t1 as [nm rel d cs dep e s]. destruct t2 as [nm2 rel2 d2 cs2 dep2 e2 s2].
  rewrite !erase_unfold in He. simpl in He, IH.
  injection He as <- <- <- Hcs <-.
  change (walkSelected (mkNode nm rel d cs dep e s)) with
    ((if negb d && s then [filepath_ToSlash rel] else []) ++
     (if d then range_from (fun _ c => walkSelected c) O cs else [])).
  change (walkSelected (mkNode nm rel d cs2 dep e2 s2)) with
    ((if negb d && s2 then [filepath_ToSlash rel] else []) ++
     (if d then range_from (fun _ c => walkSelected c) O cs2 else [])).
  f_equal.
  - destruct d; [reflexivity|].
    pose proof (Hs [] _ _ eq_refl eq_refl eq_refl) as H0. simpl in H0.
    rewrite H0. reflexivity.
  - destruct d; [|reflexivity].
    apply range_from_pointwise. apply Forall2_same_length_lookup_2.
    + apply (f_equal length) in Hcs. rewrite !length_map in Hcs. exact Hcs.
    + intros k c1 c2 H1 H2. rewrite Forall_forall in IH.
      apply (IH c1 (list_elem_of_lookup_2 _ _ _ H1)).
      * apply (f_equal (fun l => l !! k)) in Hcs.
        rewrite !list_lookup_fmap, H1, H2 in Hcs. simpl in Hcs. congruence.
      * intros p n1 n2 Hn1 Hn2. apply (Hs (k :: p)); simpl.
        -- rewrite H1. exact Hn1.
        -- rewrite H2. exact Hn2.
Qed.

(** C3.  On the tree built from the input paths, after any run of the
    event loop: the paths that [selectedFiles] returns are those of the
    selected file nodes, each node once; they stand in the byte-wise
    lexicographic order; another run that ends with the same [selected]
    flags on the files returns the same list; and so does sorting the
    paths collected in any other order. *)
Theorem selectedFiles_sorted_selection start files t0 bs repo bin msgs m :
  Forall (fun f => Z.of_nat (String.length f) < int_max) files ->
  buildTree start files = Some t0 ->
  run (newModel t0 bs repo bin) msgs = Some m ->
  (exists ps,
     NoDup ps /\
     (forall p, p ∈ ps <->
        exists n, deref (root m) p = Some n /\ isDir n = false /\ selected n = true) /\
     selectedFiles m ≡ₚ map (path_at (root m)) ps) /\
  StronglySorted String.le (selectedFiles m) /\
  (forall msgs' m',
     run (newModel t0 bs repo bin) msgs' = Some m' ->
     (forall p n n', deref (root m) p = Some n -> deref (root m') p = Some n' ->
                     isDir n = false -> selected n' = selected n) ->
     selectedFiles m' = selectedFiles m) /\
  (forall l, l ≡ₚ walkSelected (root m) -> sort_Strings l = selectedFiles m).
Proof.
  intros Hl Hb Hr.
  destruct (buildTree_wf _ _ _ Hl Hb) as [Hwf0 _].
  destruct (run_root _ _ _ 0 Hr) as [He Hwf]. simpl in He, Hwf.
  specialize (Hwf Hwf0).
  split; [|split; [|split]].
  - exists (selPtrs (root m)). split; [apply NoDup_selPtrs|]. split.
    + intros p. split.
      * intros Hp. apply selPtrs_sound in Hp as (x & Hx & Hs).
        unfold is_selected_file in Hs. apply andb_true_iff in Hs as [Hd Hs].
        exists x. split; [exact Hx|]. split; [|exact Hs].
        destruct (isDir x); [discriminate | reflexivity].
      * intros (x & Hx & Hd & Hs). eapply selPtrs_complete; [exact Hwf | exact Hx|].
        unfold is_selected_file. rewrite Hd, Hs. reflexivity.
    + unfold selectedFiles, sort_Strings.
      rewrite sort_Slice_Permutation, walkSelected_selPtrs. reflexivity.
  - apply sort_Strings_sorted.
  - intros msgs' m' Hr' Hsel.
    destruct (run_root _ _ _ 0 Hr') as [He' _]. simpl in He'.
    unfold selectedFiles. f_equal. symmetry. apply walkSelected_same.
    + congruence.
    + exact Hsel.
  - intros l Hp. apply sort_Strings_perm_eq, Hp.
Qed.

Lemma selectedFiles_sorted_selection_witness :
  StronglySorted String.le (selectedFiles model_confirmed).
Proof.
  refine (proj1 (proj2
    (selectedFiles_sorted_selection "." files_example tree_three_files "" false false
       msgs_example model_confirmed _ _ _))).
  - repeat (constructor; [vm_compute; reflexivity|]). constructor.
  - vm_compute. reflexivity.
  - vm_compute. reflexivity.
Defined.

(** * Further properties of the interaction *)

Lemma Update_toggle m :
  Update m (KeyMsg " ") = m' ← toggle m; Some (m', CmdNil).
Proof. reflexivity. Qed.

Lemma int_add_sub_1 c : is_int c -> int_sub (int_add c 1) 1 = c.
Proof.
  unfold is_int, int_min, int_max, int_add, int_sub. intros H.
  repeat wrap_case. lia.
Qed.

Lemma int_sub_add_1 c : is_int c -> int_add (int_sub c 1) 1 = c.
Proof.
  unfold is_int, int_min, int_max, int_add, int_sub. intros H.
  repeat wrap_case. lia.
Qed.

(** X1.  With the cursor on a file, the toggle key flips the [selected]
    flag of that file and moves the counter by one; pressed once more it
    gives back the state it started from, tree, counter and all. *)
Theorem toggle_twice_restores (m : model) (p : ptr) (n : node) :
  vis_at m = Some p ->
  deref (root m) p = Some n ->
  isDir n = false ->
  is_int (selectedCount m) ->
  exists m1,
    Update m (KeyMsg " ") = Some (m1, CmdNil) /\
    deref (root m1) p = Some (set_selected (negb (selected n)) n) /\
    selectedCount m1 =
      (if selected n then int_sub (selectedCount m) 1 else int_add (selectedCount m) 1) /\
    vis m1 = vis m /\
    Update m1 (KeyMsg " ") = Some (m, CmdNil).
Proof.
  intros Hat Hn Hd Hc.
  set (rt := store (set_selected (negb (selected n))) p (root m)).
  set (c1 := if negb (selected n) then int_add (selectedCount m) 1
             else int_sub (selectedCount m) 1).
  exists (with_selectedCount c1 (with_tree rt (vis m) m)).
  assert (H1 : toggle m = Some (with_selectedCount c1 (with_tree rt (vis m) m))).
  { unfold toggle. rewrite Hat. cbn [mbind option_bind]. rewrite Hn.
    cbn [mbind option_bind]. rewrite Hd. reflexivity. }
  assert (Hn1 : deref rt p = Some (set_selected (negb (selected n)) n)).
  { unfold rt. rewrite deref_store, Hn. reflexivity. }
  split; [rewrite Update_toggle, H1; reflexivity|].
  split; [destruct m; exact Hn1|].
  split; [destruct m; unfold c1; simpl; destruct (selected n); reflexivity|].
  split; [destruct m; reflexivity|].
  rewrite Update_toggle. unfold toggle.
  assert (vis_at (with_selectedCount c1 (with_tree rt (vis m) m)) = Some p) as ->
    by (destruct m; exact Hat).
  cbn [mbind option_bind].
  assert (root (with_selectedCount c1 (with_tree rt (vis m) m)) = rt) as ->
    by (destruct m; reflexivity).
  rewrite Hn1. cbn [mbind option_bind].
  assert (Hrt : store (set_selected (negb (selected (set_selected (negb (selected n)) n))))
                  p rt = root m).
  { unfold rt. rewrite store_store. eapply store_id; [exact Hn|].
    destruct n as [nm rel d cs dep e s]. simpl. rewrite Bool.negb_involutive. reflexivity. }
  assert (Hd1 : isDir (set_selected (negb (selected n)) n) = false)
    by (destruct n; exact Hd).
  rewrite Hd1, Hrt. cbn [negb mbind option_bind].
  destruct m as [r v cu o w h bs rp ab sc a cf]. simpl in *.
  unfold with_selectedCount, with_tree. simpl.
  rewrite Bool.negb_involutive. unfold c1.
  destruct (selected n); simpl.
  - rewrite int_sub_add_1 by exact Hc. reflexivity.
  - rewrite int_add_sub_1 by exact Hc. reflexivity.
Qed.

Lemma toggle_twice_restores_witness :
  exists m1,
    Update model_down2 (KeyMsg " ") = Some (m1, CmdNil) /\
    deref (root m1) [0; 0]%nat =
      Some (set_selected (negb true) (mkNode "x" "d/x" false [] 2 false true)) /\
    selectedCount m1 =
      (if true then int_sub (selectedCount model_down2) 1
       else int_add (selectedCount model_down2) 1) /\
    vis m1 = vis model_down2 /\
    Update m1 (KeyMsg " ") = Some (model_down2, CmdNil).
Proof.
  apply (toggle_twice_restores model_down2 [0; 0]%nat
           (mkNode "x" "d/x" false [] 2 false true));
    [reflexivity | reflexivity | reflexivity | vm_compute; split; discriminate].
Defined.

(** X2.  A state whose cursor is in range and that satisfies the scroll
    invariant is left as it is by [ensureCursorVisible]: the window does not
    scroll while the cursor stays inside it. *)
Theorem ensureCursorVisible_fixpoint (m : model) :
  0 <= cursor m < len (vis m) ->
  len (vis m) <= int_max ->
  scroll_inv m ->
  ensureCursorVisible m = m.
Proof.
  intros Hc HL [H1 H2].
  pose proof (viewportHeight_range m) as Hvh.
  unfold ensureCursorVisible.
  set (vh := viewportHeight m) in *. clearbody vh.
  destruct m as [rt v c o w h bs rp ab sc a cf].
  unfold with_cursor, with_offset. cbv zeta. cbn [cursor offset vis] in *.
  set (L := len v) in *. clearbody L.
  unfold int_add, int_sub, int_max in *.
  assert (E1 : (if c <? 0 then 0 else c) = c) by (if_case; lia).
  rewrite !E1.
  assert (E2 : (if L <=? c
                then if wrap64 (L - 1) <? 0 then 0 else wrap64 (L - 1)
                else c) = c) by (destruct (Z.leb_spec L c); [lia | reflexivity]).
  rewrite !E2.
  assert (E3 : (if c <? o then c else o) = o) by (if_case; lia).
  rewrite !E3.
  assert (E4 : (if wrap64 (o + vh) <=? c then wrap64 (wrap64 (c - vh) + 1) else o) = o).
  { destruct (Z.leb_spec (wrap64 (o + vh)) c) as [Hle|]; [|reflexivity].
    exfalso. revert Hle. repeat wrap_case. lia. }
  rewrite !E4.
  assert (E5 : (if wrap64 (L - vh) <? 0 then 0 else wrap64 (L - vh)) = Z.max 0 (L - vh)).
  { repeat wrap_case. if_case; lia. }
  rewrite !E5.
  assert (E6 : (if Z.max 0 (L - vh) <? o then Z.max 0 (L - vh) else o) = o)
    by (if_case; lia).
  rewrite !E6.
  assert (E7 : (if o <? 0 then 0 else o) = o) by (if_case; lia).
  rewrite E7. reflexivity.
Qed.

Lemma ensureCursorVisible_fixpoint_witness :
  ensureCursorVisible model_down2 = model_down2.
Proof.
  apply (ensureCursorVisible_fixpoint model_down2);
    [vm_compute; split; [discriminate | reflexivity]
    | vm_compute; discriminate
    | vm_compute; repeat split; discriminate].
Defined.

Lemma indexOf_from_first l : forall i p,
  (p ∈ l ->
   exists k, indexOf_from i l p = Some (i + Z.of_nat k) /\ l !! k = Some p /\
             forall j, (j < k)%nat -> l !! j <> Some p) /\
  (p ∉ l -> indexOf_from i l p = None).
Proof.
  induction l as [|x l IH]; intros i p.
  - split; [intros H; inversion H | reflexivity].
  - simpl. unfold ptr_eqb. destruct (bool_decide_reflect (x = p)) as [->|Hne].
    + split.
      * intros _. exists O. rewrite Z.add_0_r. split; [reflexivity|].
        split; [reflexivity | intros j Hj; lia].
      * intros H. exfalso. apply H. left.
    + destruct (IH (i + 1) p) as [IH1 IH2]. split.
      * intros Hp. apply elem_of_cons in Hp as [->|Hp]; [congruence|].
        destruct (IH1 Hp) as (k & Hk & Hl & Hfirst).
        exists (S k). split; [rewrite Hk; f_equal; lia|]. split; [exact Hl|].
        intros [|j] Hj; simpl; [congruence | apply Hfirst; lia].
      * intros Hp. apply IH2. intros H. apply Hp. right. exact H.
Qed.

(** X3.  [indexOf] returns the index of the first occurrence of the target;
    when the target does not occur it returns 0, the same answer as for a
    target found at the head of the slice. *)
Theorem indexOf_first_or_zero (l : list ptr) (p : ptr) :
  (p ∈ l ->
     0 <= indexOf l p < len l /\
     l !! Z.to_nat (indexOf l p) = Some p /\
     forall j, (j < Z.to_nat (indexOf l p))%nat -> l !! j <> Some p) /\
  (p ∉ l -> indexOf l p = 0).
Proof.
  destruct (indexOf_from_first l 0 p) as [H1 H2]. split.
  - intros Hp. destruct (H1 Hp) as (k & Hk & Hl & Hfirst).
    rewrite Z.add_0_l in Hk. unfold indexOf. rewrite Hk.
    unfold default, from_option, id. rewrite Nat2Z.id.
    apply lookup_lt_Some in Hl as Hlt. unfold len.
    split; [lia|]. split; [exact Hl | exact Hfirst].
  - intros Hp. unfold indexOf. rewrite (H2 Hp). reflexivity.
Qed.

Lemma walkVisible_prefix n pos x :
  x ∈ walkVisible pos n -> exists q, x = pos ++ q.
Proof. intros H. apply elem_of_walkVisible in H as (q & -> & _). eauto. Qed.

Lemma NoDup_range_from_walk (F : nat -> node -> list ptr) pos cs : forall i,
  (forall k c, c ∈ cs -> NoDup (F k c)) ->
  (forall k c x, x ∈ F k c -> exists q, x = pos ++ k :: q) ->
  NoDup (range_from F i cs).
Proof.
  induction cs as [|c cs IH]; intros i Hnd Hpre; simpl; [constructor|].
  apply NoDup_app. split; [|split].
  - apply Hnd. left.
  - intros x Hx Hx'. apply Hpre in Hx as (q & ->).
    apply elem_of_range_from in Hx' as (k & c' & _ & Hx').
    apply Hpre in Hx' as (q' & Heq).
    apply app_inv_head in Heq. injection Heq as Heq _. lia.
  - apply IH; [|exact Hpre]. intros k c' Hc'. apply Hnd. right. exact Hc'.
Qed.

Lemma NoDup_walkVisible n : forall pos, NoDup (walkVisible pos n).
Proof.
  induction n as [n IH] using node_ind_children. intros pos.
  destruct n as [nm rel d cs dep e s]. simpl in IH.
  change (walkVisible pos (mkNode nm rel d cs dep e s)) with
    (pos :: (if d && e
             then range_from (fun i c => walkVisible (pos ++ [i]) c) O cs
             else [])).
  apply NoDup_cons. split.
  - destruct (d && e); [|apply not_elem_of_nil].
    intros H. apply elem_of_range_from in H as (k & c & _ & H). simpl in H.
    apply walkVisible_prefix in H as (q & Heq).
    apply (f_equal length) in Heq. rewrite !length_app in Heq. simpl in Heq. lia.
  - destruct (d && e); [|constructor].
    apply (NoDup_range_from_walk _ pos).
    + intros k c Hc. rewrite Forall_forall in IH. apply IH, Hc.
    + intros k c x Hx. apply walkVisible_prefix in Hx as (q & ->).
      exists q. rewrite <- app_assoc. reflexivity.
Qed.

(** X4.  [flattenVisible] lists a node exactly when every directory on the
    way from the root to it is expanded, lists it once, and starts with the
    root. *)
Theorem flattenVisible_lists_visible_once (t : node) :
  NoDup (flattenVisible t) /\
  (forall p, p ∈ flattenVisible t <-> visible t p) /\
  head (flattenVisible t) = Some [].
Proof.
  split; [apply NoDup_walkVisible|]. split; [apply elem_of_flattenVisible|].
  destruct t; reflexivity.
Qed.

Lemma arrow_pins_cursor b m p :
  visible (root m) p ->
  let rt := store (set_expanded b) p (root m) in
  let m' := ensureCursorVisible
              (with_cursor (indexOf (flattenVisible rt) p)
                 (with_tree rt (flattenVisible rt) m)) in
  vis_at m' = Some p /\ vis m' = flattenVisible (root m').
Proof.
  intros Hv rt m'.
  assert (Hp : p ∈ flattenVisible rt)
    by (apply elem_of_flattenVisible, visible_store, Hv).
  destruct (indexOf_elem _ _ Hp) as [Hrange Hlook].
  set (ma := with_cursor (indexOf (flattenVisible rt) p)
               (with_tree rt (flattenVisible rt) m)) in *.
  destruct (ensureCursorVisible_tree ma) as (Hr & Hvis & _).
  pose proof (ensureCursorVisible_cursor ma Hrange) as Hc.
  split.
  - unfold vis_at, m'. rewrite Hc, Hvis.
    destruct (Z.ltb_spec (cursor ma) 0); [simpl in *; lia | exact Hlook].
  - unfold m'. rewrite Hvis, Hr. reflexivity.
Qed.

(** X5.  In a state whose visible sequence is the flattening of its tree,
    the expand key and the collapse key leave the cursor on the node it was
    on, whether or not they change the tree, and the visible sequence is
    again the flattening of the tree. *)
Theorem arrows_keep_cursor_on_node (m : model) (p : ptr) :
  vis m = flattenVisible (root m) ->
  vis_at m = Some p ->
  (exists m', Update m (KeyMsg "right") = Some (m', CmdNil) /\
              vis_at m' = Some p /\ vis m' = flattenVisible (root m')) /\
  (exists m', Update m (KeyMsg "left") = Some (m', CmdNil) /\
              vis_at m' = Some p /\ vis m' = flattenVisible (root m')).
Proof.
  intros Hvis Hat.
  assert (Hv : visible (root m) p).
  { apply elem_of_flattenVisible. rewrite <- Hvis. apply vis_at_elem, Hat. }
  destruct (visible_deref _ _ Hv) as [n Hn].
  split.
  - rewrite Update_right. unfold expandAtCursor. rewrite Hat. cbn [mbind option_bind].
    rewrite Hn. cbn [mbind option_bind].
    destruct (isDir n && negb (expanded n) && (0 <? len (children n))).
    + eexists. split; [reflexivity|]. apply (arrow_pins_cursor true m p Hv).
    + exists m. split; [reflexivity|]. split; assumption.
  - rewrite Update_left. unfold collapseAtCursor. rewrite Hat. cbn [mbind option_bind].
    rewrite Hn. cbn [mbind option_bind].
    destruct (isDir n && expanded n && (0 <? len (children n))).
    + eexists. split; [reflexivity|]. apply (arrow_pins_cursor false m p Hv).
    + exists m. split; [reflexivity|]. split; assumption.
Qed.

Lemma arrows_keep_cursor_on_node_witness :
  (exists m', Update model_on_dir (KeyMsg "right") = Some (m', CmdNil) /\
              vis_at m' = Some [0%nat] /\ vis m' = flattenVisible (root m')) /\
  (exists m', Update model_on_dir (KeyMsg "left") = Some (m', CmdNil) /\
              vis_at m' = Some [0%nat] /\ vis m' = flattenVisible (root m')).
Proof.
  apply (arrows_keep_cursor_on_node model_on_dir [0%nat]); reflexivity.
Defined.

Lemma ensureCursorVisible_rest m :
  selectedCount (ensureCursorVisible m) = selectedCount m /\
  aborted (ensureCursorVisible m) = aborted m /\
  confirmed (ensureCursorVisible m) = confirmed m /\
  width (ensureCursorVisible m) = width m.
Proof. destruct m. repeat split; reflexivity. Qed.

(** X6.  With the cursor in range, the down key moves it one row down and
    stays on the last row; the up key moves it one row up and stays on the
    first row.  Neither changes the tree, the visible sequence or the
    selection counter. *)
Theorem up_down_move_one_row (m : model) :
  0 <= cursor m < len (vis m) ->
  len (vis m) <= int_max ->
  (exists m', Update m (KeyMsg "down") = Some (m', CmdNil) /\
              cursor m' = Z.min (cursor m + 1) (len (vis m) - 1) /\
              root m' = root m /\ vis m' = vis m /\
              selectedCount m' = selectedCount m) /\
  (exists m', Update m (KeyMsg "up") = Some (m', CmdNil) /\
              cursor m' = Z.max (cursor m - 1) 0 /\
              root m' = root m /\ vis m' = vis m /\
              selectedCount m' = selectedCount m).
Proof.
  intros Hc HL. unfold int_max in HL. split.
  - eexists. split; [reflexivity|].
    set (m1 := if cursor m <? int_sub (len (vis m)) 1
               then with_cursor (int_add (cursor m) 1) m else m).
    assert (H1 : root m1 = root m /\ vis m1 = vis m /\
                 selectedCount m1 = selectedCount m /\
                 cursor m1 = Z.min (cursor m + 1) (len (vis m) - 1)).
    { unfold m1, int_sub, int_add. repeat wrap_case.
      if_case; destruct m; simpl in *; repeat split; lia. }
    destruct H1 as (Hr & Hv & Hs & Hcu).
    destruct (ensureCursorVisible_tree m1) as (-> & -> & _).
    destruct (ensureCursorVisible_rest m1) as (-> & _).
    rewrite ensureCursorVisible_cursor by (rewrite Hv, Hcu; lia).
    repeat split; assumption.
  - eexists. split; [reflexivity|].
    set (m1 := if 0 <? cursor m then with_cursor (int_sub (cursor m) 1) m else m).
    assert (H1 : root m1 = root m /\ vis m1 = vis m /\
                 selectedCount m1 = selectedCount m /\
                 cursor m1 = Z.max (cursor m - 1) 0).
    { unfold m1, int_sub. repeat wrap_case.
      if_case; destruct m; simpl in *; repeat split; lia. }
    destruct H1 as (Hr & Hv & Hs & Hcu).
    destruct (ensureCursorVisible_tree m1) as (-> & -> & _).
    destruct (ensureCursorVisible_rest m1) as (-> & _).
    rewrite ensureCursorVisible_cursor by (rewrite Hv, Hcu; lia).
    repeat split; assumption.
Qed.

Lemma up_down_move_one_row_witness :
  (exists m', Update model_down2 (KeyMsg "down") = Some (m', CmdNil) /\
              cursor m' = Z.min (cursor model_down2 + 1) (len (vis model_down2) - 1) /\
              root m' = root model_down2 /\ vis m' = vis model_down2 /\
              selectedCount m' = selectedCount model_down2) /\
  (exists m', Update model_down2 (KeyMsg "up") = Some (m', CmdNil) /\
              cursor m' = Z.max (cursor model_down2 - 1) 0 /\
              root m' = root model_down2 /\ vis m' = vis model_down2 /\
              selectedCount m' = selectedCount model_down2).
Proof.
  apply (up_down_move_one_row model_down2);
    [vm_compute; split; [discriminate | reflexivity] | vm_compute; discriminate].
Defined.

Lemma filter_keeps_all {A} (P : A -> Prop) `{!forall x, Decision (P x)} (l : list A) :
  (forall x, x ∈ l -> P x) -> filter P l = l.
Proof.
  induction l as [|x l IH]; intros Hall; [reflexivity|].
  rewrite filter_cons_True by (apply Hall; left).
  f_equal. apply IH. intros y Hy. apply Hall. right. exact Hy.
Qed.

Lemma filter_drops_all {A} (P : A -> Prop) `{!forall x, Decision (P x)} (l : list A) :
  (forall x, x ∈ l -> ~ P x) -> filter P l = [].
Proof.
  induction l as [|x l IH]; intros Hall; [reflexivity|].
  rewrite filter_cons_False by (apply Hall; left).
  apply IH. intros y Hy. apply Hall. right. exact Hy.
Qed.

Lemma range_from_alter_filter (F : nat -> node -> list ptr) (g : node -> node)
      (P : ptr -> Prop) `{!forall x, Decision (P x)} cs : forall i k c,
  cs !! i = Some c ->
  F (k + i)%nat (g c) = filter P (F (k + i)%nat c) ->
  (forall k' c' x, k' <> (k + i)%nat -> x ∈ F k' c' -> P x) ->
  range_from F k (alter g i cs) = filter P (range_from F k cs).
Proof.
  induction cs as [|c0 cs IH]; intros i k c Hi Hg Hother; [discriminate|].
  destruct i as [|i]; simpl in Hi.
  - injection Hi as ->. simpl. rewrite Nat.add_0_r in Hg. rewrite filter_app, Hg.
    f_equal. symmetry. apply filter_keeps_all.
    intros x Hx. apply elem_of_range_from in Hx as (j & c' & _ & Hx).
    apply (Hother (S k + j)%nat c' x); [lia | exact Hx].
  - simpl. rewrite filter_app. f_equal.
    + symmetry. apply filter_keeps_all. intros x Hx.
      apply (Hother k c0 x); [lia | exact Hx].
    + apply (IH i (S k) c Hi).
      * replace (S k + i)%nat with (k + S i)%nat by lia. exact Hg.
      * intros k' c' x Hk'. apply Hother. lia.
Qed.

(** Setting [expanded] to false at the visible position [p] takes the
    positions strictly below [p] out of the walk and nothing else. *)
Lemma walkVisible_collapse p : forall t pos tgt,
  tgt = pos ++ p ->
  visible t p ->
  walkVisible pos (store (set_expanded false) p t) =
  filter (fun q => ~ (tgt `prefix_of` q /\ q <> tgt)) (walkVisible pos t).
Proof.
  induction p as [|i p IH]; intros t pos tgt Htgt Hv.
  - rewrite app_nil_r in Htgt. subst tgt.
    pose proof (NoDup_walkVisible t pos) as Hnd.
    assert (Hall : forall x, x ∈ walkVisible pos t -> pos `prefix_of` x).
    { intros x Hx. apply walkVisible_prefix in Hx as (q & ->). exists q. reflexivity. }
    destruct t as [nm rel d cs dep e s].
    change (store (set_expanded false) [] (mkNode nm rel d cs dep e s))
      with (mkNode nm rel d cs dep false s).
    change (walkVisible pos (mkNode nm rel d cs dep false s))
      with (pos :: (if d && false then
                      range_from (fun i c => walkVisible (pos ++ [i]) c) O cs else [])).
    rewrite Bool.andb_false_r.
    revert Hnd Hall.
    change (walkVisible pos (mkNode nm rel d cs dep e s))
      with (pos :: (if d && e then
                      range_from (fun i c => walkVisible (pos ++ [i]) c) O cs else [])).
    intros Hnd Hall. apply NoDup_cons in Hnd as [Hnotin _].
    rewrite filter_cons_True by (intros [_ H]; congruence).
    f_equal. symmetry. apply filter_drops_all.
    intros x Hx HP. apply HP. split.
    + apply Hall. right. exact Hx.
    + intros ->. contradiction.
  - simpl in Hv. destruct Hv as (Hde & c & Hc & Hv).
    destruct t as [nm rel d cs dep e s]. simpl in Hde, Hc.
    change (store (set_expanded false) (i :: p) (mkNode nm rel d cs dep e s))
      with (mkNode nm rel d (alter (store (set_expanded false) p) i cs) dep e s).
    change (walkVisible pos
              (mkNode nm rel d (alter (store (set_expanded false) p) i cs) dep e s))
      with (pos :: (if d && e then
                      range_from (fun i c => walkVisible (pos ++ [i]) c) O
                        (alter (store (set_expanded false) p) i cs) else [])).
    change (walkVisible pos (mkNode nm rel d cs dep e s))
      with (pos :: (if d && e then
                      range_from (fun i c => walkVisible (pos ++ [i]) c) O cs else [])).
    rewrite Hde.
    rewrite filter_cons_True.
    2:{ intros [[k Hk] _]. subst tgt. apply (f_equal length) in Hk.
        rewrite !length_app in Hk. simpl in Hk. lia. }
    f_equal.
    apply (range_from_alter_filter _ _ _ cs i O c Hc).
    + simpl. apply IH; [|exact Hv]. subst tgt. rewrite <- app_assoc. reflexivity.
    + intros k' c' x Hk' Hx [[r Hr] _]. simpl in Hk'.
      apply walkVisible_prefix in Hx as (q & ->). subst tgt.
      rewrite <- !app_assoc in Hr. apply app_inv_head in Hr.
      simpl in Hr. injection Hr as Hr _. congruence.
Qed.

Lemma visible_child f p : forall t D i c,
  visible t p -> deref t p = Some D ->
  isDir (f D) && expanded (f D) = true -> children (f D) !! i = Some c ->
  visible (store f p t) (p ++ [i]).
Proof.
  induction p as [|j p IH]; intros t D i c Hv HD Hf Hc; simpl in *.
  - injection HD as ->. split; [exact Hf|]. exists c. split; [exact Hc | exact I].
  - destruct Hv as (Hde & x & Hx & Hv). rewrite Hx in HD. simpl in HD.
    destruct t as [nm rel d cs dep e s]. simpl in *.
    split; [exact Hde|]. exists (store f p x).
    split; [rewrite list_lookup_alter_eq, Hx; reflexivity|].
    eapply IH; eassumption.
Qed.

(** X7.  The collapse key on an expanded directory with children removes
    from the visible sequence the positions strictly below the directory and
    nothing else; the order of the rest is kept. *)
Theorem collapse_hides_descendants (m : model) (p : ptr) (D : node) :
  vis m = flattenVisible (root m) ->
  vis_at m = Some p ->
  deref (root m) p = Some D ->
  isDir D = true -> expanded D = true -> children D <> [] ->
  exists m',
    Update m (KeyMsg "left") = Some (m', CmdNil) /\
    vis m' = filter (fun q => ~ (p `prefix_of` q /\ q <> p)) (vis m).
Proof.
  intros Hvis Hat HD Hdir Hexp Hcs.
  assert (Hlen : (0 <? len (children D)) = true).
  { destruct (children D); [congruence|]. reflexivity. }
  assert (Hv : visible (root m) p).
  { apply elem_of_flattenVisible. rewrite <- Hvis. apply vis_at_elem, Hat. }
  eexists. split.
  { rewrite Update_left. unfold collapseAtCursor. rewrite Hat. cbn [mbind option_bind].
    rewrite HD. cbn [mbind option_bind]. rewrite Hdir, Hexp, Hlen. reflexivity. }
  match goal with |- vis (ensureCursorVisible ?ma) = _ =>
    destruct (ensureCursorVisible_tree ma) as (_ & -> & _) end.
  cbn [vis with_cursor with_tree]. rewrite Hvis.
  unfold flattenVisible. apply walkVisible_collapse; [reflexivity | exact Hv].
Qed.

Lemma collapse_hides_descendants_witness :
  exists m',
    Update model_on_dir (KeyMsg "left") = Some (m', CmdNil) /\
    vis m' = filter (fun q => ~ ([0%nat] `prefix_of` q /\ q <> [0%nat])) (vis model_on_dir).
Proof.
  apply (collapse_hides_descendants model_on_dir [0%nat]
           (mkNode "d" "d" true [mkNode "x" "d/x" false [] 2 false true] 1 true false));
    [reflexivity | reflexivity | reflexivity | reflexivity | reflexivity | discriminate].
Defined.

(** X8.  The expand key on a collapsed directory with children adds to the
    visible sequence only positions strictly below the directory (taking
    them out again gives the sequence before), and every child of the
    directory is among them. *)
Theorem expand_reveals_children (m : model) (p : ptr) (D : node) :
  vis m = flattenVisible (root m) ->
  vis_at m = Some p ->
  deref (root m) p = Some D ->
  isDir D = true -> expanded D = false -> children D <> [] ->
  exists m',
    Update m (KeyMsg "right") = Some (m', CmdNil) /\
    filter (fun q => ~ (p `prefix_of` q /\ q <> p)) (vis m') = vis m /\
    (forall i c, children D !! i = Some c -> p ++ [i] ∈ vis m').
Proof.
  intros Hvis Hat HD Hdir Hexp Hcs.
  assert (Hlen : (0 <? len (children D)) = true).
  { destruct (children D); [congruence|]. reflexivity. }
  assert (Hv : visible (root m) p).
  { apply elem_of_flattenVisible. rewrite <- Hvis. apply vis_at_elem, Hat. }
  set (rt := store (set_expanded true) p (root m)).
  eexists. split.
  { rewrite Update_right. unfold expandAtCursor. rewrite Hat. cbn [mbind option_bind].
    rewrite HD. cbn [mbind option_bind]. rewrite Hdir, Hexp, Hlen. reflexivity. }
  match goal with |- context [vis (ensureCursorVisible ?ma)] =>
    destruct (ensureCursorVisible_tree ma) as (_ & -> & _) end.
  cbn [vis with_cursor with_tree]. fold rt. split.
  - assert (Hback : store (set_expanded false) p rt = root m).
    { unfold rt. rewrite store_store. eapply store_id; [exact HD|].
      destruct D; simpl in *; subst; reflexivity. }
    rewrite Hvis, <- Hback. unfold flattenVisible. symmetry.
    apply walkVisible_collapse; [reflexivity|]. apply visible_store, Hv.
  - intros i c Hc. apply elem_of_flattenVisible.
    apply (visible_child (set_expanded true) p (root m) D i c Hv HD).
    + destruct D; simpl in *. rewrite Hdir. reflexivity.
    + destruct D; exact Hc.
Qed.

Lemma expand_reveals_children_witness :
  exists m',
    Update model_collapsed (KeyMsg "right") = Some (m', CmdNil) /\
    filter (fun q => ~ ([0%nat] `prefix_of` q /\ q <> [0%nat])) (vis m') =
      vis model_collapsed /\
    (forall i c,
       children (mkNode "d" "d" true [mkNode "x" "d/x" false [] 2 false true] 1 false false)
         !! i = Some c ->
       [0%nat] ++ [i] ∈ vis m').
Proof.
  apply (expand_reveals_children model_collapsed [0%nat]
           (mkNode "d" "d" true [mkNode "x" "d/x" false [] 2 false true] 1 false false));
    [reflexivity | reflexivity | reflexivity | reflexivity | reflexivity | discriminate].
Defined.

(** * Witnesses of the properties proved above *)

Lemma text_block_shape_witness :
  emitFile world_example false "b.go" =
    Some (bytes "## b.go" ++ nl ++ nl ++ bytes "````go" ++ nl ++
          bytes "hi ``` there" ++ nl ++ line "````" ++ nl) /\
  forall n, (4 <= n)%nat -> ~ has_run backtick n (bytes "hi ``` there").
Proof.
  refine (text_block_shape world_example false "b.go" (bytes "hi ``` there") _ _ _ _);
    [reflexivity | reflexivity | vm_compute; reflexivity | reflexivity].
Defined.

Lemma duplicate_path_is_skipped_witness :
  buildTree "." (files_example ++ ["d/x"%string]) = Some tree_three_files.
Proof.
  refine (duplicate_path_is_skipped "." files_example "d/x" tree_three_files _ _);
    [left | vm_compute; reflexivity].
Defined.

Lemma reachable_Update_total_witness :
  exists m' c, Update model_down2 (KeyMsg " ") = Some (m', c).
Proof.
  refine (reachable_Update_total tree_two_levels "" false false model_down2 (KeyMsg " ") _ _);
    [vm_compute; discriminate|].
  apply (reach_step _ model_down1 (KeyMsg "down") _ CmdNil); [|reflexivity].
  apply (reach_step _ model_sized (KeyMsg "down") _ CmdNil); [|reflexivity].
  apply (reach_step _ model_start (WindowSizeMsg 80 4) _ CmdNil); [|reflexivity].
  apply reach_init.
Defined.

(** * Further properties of the tree builder *)

(** The four ways in which the loop body of [buildTree] leaves a node:
    the leaf exists, the leaf is appended, the directory exists and the rest
    goes below it, the directory is appended and the rest goes below it. *)
Lemma insertParts_cases cur part rest cur' :
  insertParts cur (part :: rest) = Some cur' ->
  let rel := filepath_Join (relBase cur) (filepath_FromSlash part) in
  (rest = [] /\ is_Some (child cur part) /\ cur' = cur) \/
  (rest = [] /\ child cur part = None /\ isDir cur = true /\
   cur' = set_children cur (children cur ++ [newFile (Some cur) part rel])) \/
  (rest <> [] /\ exists i c c',
     child cur part = Some (i, c) /\ insertParts c rest = Some c' /\
     cur' = set_children cur (<[i := c']> (children cur))) \/
  (rest <> [] /\ child cur part = None /\ isDir cur = true /\
   exists d',
     insertParts (newDir (Some cur) part rel) rest = Some d' /\
     cur' = set_children cur (children cur ++ [d'])).
Proof.
  intros Hi rel. destruct rest as [|r rest'].
  - simpl in Hi. destruct (child cur part) as [[i c]|] eqn:Ec.
    + injection Hi as <-. left. split; [reflexivity|]. split; [eauto | reflexivity].
    + unfold addChild in Hi. destruct (isDir cur) eqn:Hdir; [|discriminate].
      simpl in Hi. injection Hi as <-. right. left. repeat split; reflexivity.
  - change (insertParts cur (part :: r :: rest')) with
      (match child cur part with
       | Some (i, c) =>
           c' ← insertParts c (r :: rest');
           Some (set_children cur (<[i := c']> (children cur)))
       | None =>
           let d := newDir (Some cur) part rel in
           cur' ← addChild cur d;
           d' ← insertParts d (r :: rest');
           Some (set_children cur' (<[length (children cur) := d']> (children cur')))
       end) in Hi.
    destruct (child cur part) as [[i c]|] eqn:Ec.
    + destruct (insertParts c (r :: rest')) as [c'|] eqn:E; [|discriminate].
      cbn [mbind option_bind] in Hi. injection Hi as <-.
      right. right. left. split; [discriminate|]. exists i, c, c'. repeat split; assumption.
    + cbv zeta in Hi. unfold addChild at 1 in Hi.
      destruct (isDir cur) eqn:Hdir; [|discriminate].
      cbn [mbind option_bind negb] in Hi.
      destruct (insertParts (newDir (Some cur) part rel) (r :: rest')) as [d'|] eqn:E;
        [|discriminate].
      cbn [mbind option_bind] in Hi. injection Hi as <-.
      right. right. right. split; [discriminate|]. split; [reflexivity|].
      split; [reflexivity|]. exists d'. split; [reflexivity|].
      destruct cur as [nm rl d cs dep e s]. cbn [children set_children].
      rewrite insert_app_r_alt by lia. rewrite Nat.sub_diag. reflexivity.
Qed.

(** What holds of the new nodes and does not look at the children of a
    directory holds of every node of the tree after an insertion. *)
Lemma insertParts_Every (Q : node -> Prop) :
  (forall n cs, isDir n = true -> Q n -> Q (set_children n cs)) ->
  (forall par nm rel, Q (newFile par nm rel)) ->
  (forall par nm rel, Q (newDir par nm rel)) ->
  forall parts cur cur',
    Every Q cur -> insertParts cur parts = Some cur' -> Every Q cur'.
Proof.
  intros Hset Hfile Hdir.
  induction parts as [|part rest IH]; intros cur cur' HE Hi.
  - simpl in Hi. injection Hi as <-. exact HE.
  - destruct HE as [cur HQ Hcs].
    destruct (insertParts_cases _ _ _ _ Hi)
      as [(_ & _ & ->) | [(_ & _ & Hd & ->) |
          [(_ & i & c & c' & Ec & E & ->) | (_ & _ & Hd & d' & E & ->)]]].
    + constructor; assumption.
    + constructor; [apply Hset; assumption|].
      cbn [children set_children].
      apply Forall_app. split; [exact Hcs|].
      constructor; [|constructor]. constructor; [apply Hfile | constructor].
    + apply child_Some in Ec as (Hd & Hi' & _).
      constructor; [apply Hset; assumption|].
      cbn [children set_children].
      apply Forall_insert; [exact Hcs|].
      apply (IH c c'); [|exact E]. eapply Forall_lookup_1; eassumption.
    + constructor; [apply Hset; assumption|].
      cbn [children set_children].
      apply Forall_app. split; [exact Hcs|].
      constructor; [|constructor].
      refine (IH _ d' _ E). constructor; [apply Hdir | constructor].
Qed.

Lemma insertPaths_Every (Q : node -> Prop) start :
  (forall n cs, isDir n = true -> Q n -> Q (set_children n cs)) ->
  (forall par nm rel, Q (newFile par nm rel)) ->
  (forall par nm rel, Q (newDir par nm rel)) ->
  forall files root root',
    Every Q root -> insertPaths start root files = Some root' -> Every Q root'.
Proof.
  intros Hset Hfile Hdir.
  induction files as [|f files IH]; intros root root' HE Hi; simpl in Hi.
  - injection Hi as <-. exact HE.
  - destruct (insertPath start root f) as [r1|] eqn:E; [|discriminate]. simpl in Hi.
    apply (IH r1 root'); [|exact Hi].
    rewrite insertPath_parts in E. destruct (path_parts start f) as [parts|].
    + eapply insertParts_Every; eassumption.
    + injection E as <-. exact HE.
Qed.

Lemma finalizeTree_flags n : Every fresh_flags n -> Every default_flags (finalizeTree n).
Proof.
  induction n as [n IH] using node_ind_children. intros HE.
  destruct HE as [n (Hs & He & Hleaf) Hcs].
  destruct (isDir n) eqn:Hd.
  - rewrite (finalizeTree_dir n Hd). cbv zeta.
    set (cs := map finalizeTree (sort_Slice node_less (children n))).
    constructor.
    + unfold default_flags. cbn [selected expanded isDir children set_expanded set_children].
      rewrite Hd. split; [exact Hs|]. split; [reflexivity | discriminate].
    + cbn [children set_expanded set_children].
      unfold cs. apply Forall_fmap, Forall_forall. intros c Hc. simpl.
      rewrite (sort_Slice_Permutation node_less) in Hc.
      rewrite Forall_forall in IH. rewrite Forall_forall in Hcs.
      apply IH; [exact Hc | apply Hcs, Hc].
  - rewrite (finalizeTree_file n Hd). constructor.
    + split; [exact Hs|]. split; [rewrite He, Hd; reflexivity | intros _; apply Hleaf; reflexivity].
    + rewrite (Hleaf eq_refl). constructor.
Qed.

Lemma buildTree_Every_default start files t :
  buildTree start files = Some t -> Every default_flags t.
Proof.
  unfold buildTree.
  destruct (insertPaths start _ files) as [r|] eqn:E; [|discriminate].
  simpl. intros Ht. injection Ht as <-.
  apply finalizeTree_flags.
  refine (insertPaths_Every fresh_flags start _ _ _ files _ r _ E).
  - intros n cs Hd (Hs & He & _). destruct n; simpl in *.
    split; [assumption|]. split; [assumption|].
    intros H. cbn [isDir set_children] in H. congruence.
  - intros par nm rel. split; [reflexivity|]. split; reflexivity.
  - intros par nm rel. split; [reflexivity|]. split; [reflexivity | discriminate].
  - constructor; [|constructor]. split; [reflexivity|]. split; [reflexivity | discriminate].
Qed.

(** X9.  In the tree that [buildTree] returns no node is selected, a
    directory is expanded exactly when it has at most 32 children, and a
    file is not expanded and has no children. *)
Theorem buildTree_default_flags start files t :
  buildTree start files = Some t ->
  forall p n, deref t p = Some n ->
    selected n = false /\
    expanded n = isDir n && (len (children n) <=? 32) /\
    (isDir n = false -> children n = []).
Proof.
  intros Ht p n Hd.
  apply (Every_deref default_flags t (buildTree_Every_default _ _ _ Ht) p n Hd).
Qed.

Lemma buildTree_default_flags_witness :
  buildTree "." files_example = Some tree_three_files /\
  deref tree_three_files [1%nat] = Some (mkNode "a.go" "a.go" false [] 1 false false) /\
  selected (mkNode "a.go" "a.go" false [] 1 false false) = false /\
  expanded (mkNode "a.go" "a.go" false [] 1 false false) =
    isDir (mkNode "a.go" "a.go" false [] 1 false false) &&
    (len (children (mkNode "a.go" "a.go" false [] 1 false false)) <=? 32) /\
  (isDir (mkNode "a.go" "a.go" false [] 1 false false) = false ->
   children (mkNode "a.go" "a.go" false [] 1 false false) = []).
Proof.
  split; [vm_compute; reflexivity|].
  split; [reflexivity|].
  refine (buildTree_default_flags "." files_example tree_three_files _ [1%nat] _ _);
    [vm_compute; reflexivity | reflexivity].
Defined.

(** * The selection counter *)

Lemma walkSelected_dir n :
  isDir n = true ->
  walkSelected n = range_from (fun _ c => walkSelected c) O (children n).
Proof. destruct n; simpl; intros ->; reflexivity. Qed.

Lemma walkSelected_file n :
  isDir n = false ->
  walkSelected n = if selected n then [filepath_ToSlash (relBase n)] else [].
Proof. destruct n as [nm rel d cs dep e s]; simpl; intros ->; destruct s; reflexivity. Qed.

Lemma walkSelected_length n : (length (walkSelected n) <= tree_size n)%nat.
Proof.
  induction n as [n IH] using node_ind_children.
  assert (Hcs : forall k, (length (range_from (fun _ c => walkSelected c) k (children n))
                           <= list_sum (map tree_size (children n)))%nat).
  { induction IH as [|c cs Hc _ IHcs]; intros k; simpl; [lia|].
    rewrite length_app. specialize (IHcs (S k)). lia. }
  destruct (isDir n) eqn:Hd.
  - rewrite (walkSelected_dir n Hd). specialize (Hcs O).
    destruct n; simpl in *. lia.
  - rewrite (walkSelected_file n Hd). destruct n as [nm rel d cs dep e s]; simpl.
    destruct s; simpl; lia.
Qed.

Lemma walkSelected_unselected n :
  Every (fun x => selected x = false) n -> walkSelected n = [].
Proof.
  induction n as [n IH] using node_ind_children. intros HE.
  destruct HE as [n Hs Hcs].
  assert (H0 : forall k, range_from (fun _ c => walkSelected c) k (children n) = []).
  { induction IH as [|c cs Hc _ IHcs]; intros k; simpl; [reflexivity|].
    apply Forall_cons in Hcs as [Hc' Hcs].
    rewrite (Hc Hc'), (IHcs Hcs). reflexivity. }
  destruct (isDir n) eqn:Hd.
  - rewrite (walkSelected_dir n Hd). apply H0.
  - rewrite (walkSelected_file n Hd), Hs. reflexivity.
Qed.

Lemma range_from_alter_length {A B} (F : A -> list B) (g : A -> A) cs : forall i k c,
  cs !! i = Some c ->
  (length (range_from (fun _ x => F x) k (alter g i cs)) + length (F c) =
   length (range_from (fun _ x => F x) k cs) + length (F (g c)))%nat.
Proof.
  induction cs as [|c0 cs IH]; intros [|i] k c Hc; simpl in *; try discriminate.
  - injection Hc as ->. rewrite !length_app. lia.
  - rewrite !length_app. specialize (IH i (S k) c Hc).
    change (list_alter g i cs) with (alter g i cs). lia.
Qed.

(** Writing the flag [b] into the visible file at [p] changes the number
    of selected files by the difference of the new and the old flag. *)
Lemma walkSelected_toggle b p : forall t n,
  visible t p -> deref t p = Some n -> isDir n = false ->
  (length (walkSelected (store (set_selected b) p t)) + (if selected n then 1 else 0) =
   length (walkSelected t) + (if b then 1 else 0))%nat.
Proof.
  induction p as [|i p IH]; intros t n Hv Hd Hf.
  - simpl in Hd. injection Hd as ->.
    change (store (set_selected b) [] n) with (set_selected b n).
    rewrite !walkSelected_file by (destruct n; exact Hf).
    destruct n as [nm rel d cs dep e s]; simpl. destruct b, s; reflexivity.
  - simpl in Hv. destruct Hv as (Hde & c & Hc & Hv).
    simpl in Hd. rewrite Hc in Hd. simpl in Hd.
    apply andb_prop in Hde as [Hdir _].
    change (store (set_selected b) (i :: p) t)
      with (set_children t (alter (store (set_selected b) p) i (children t))).
    rewrite (walkSelected_dir t Hdir).
    rewrite walkSelected_dir by (destruct t; exact Hdir).
    replace (children (set_children t (alter (store (set_selected b) p) i (children t))))
      with (alter (store (set_selected b) p) i (children t)) by (destruct t; reflexivity).
    pose proof (range_from_alter_length walkSelected (store (set_selected b) p)
                  (children t) i O c Hc) as Hlen.
    specialize (IH c n Hv Hd Hf). lia.
Qed.

Lemma walkSelected_store_expanded e p t :
  walkSelected (store (set_expanded e) p t) = walkSelected t.
Proof.
  apply walkSelected_same.
  - apply erase_store, flag_only_expanded.
  - intros q n1 n2 H1 H2 _.
    pose proof (deref_store_selected (set_expanded e)
                  (fun x => eq_refl) (fun x => eq_refl) p t q) as Hs.
    rewrite H1, H2 in Hs. simpl in Hs. congruence.
Qed.

Lemma Every_store (Q : node -> Prop) f p :
  (forall n cs, Q n -> Q (set_children n cs)) ->
  forall t n,
    Every Q t -> deref t p = Some n -> Q (f n) -> children (f n) = children n ->
    Every Q (store f p t).
Proof.
  intros Hset. induction p as [|i p IH]; intros t n HE Hd HQ Hc.
  - simpl in Hd. injection Hd as ->. simpl. constructor; [exact HQ|].
    rewrite Hc. destruct HE; assumption.
  - simpl in Hd. destruct (children t !! i) as [c|] eqn:Ec; [|discriminate].
    simpl in Hd. destruct HE as [t HQt Hcs].
    change (store f (i :: p) t) with (set_children t (alter (store f p) i (children t))).
    constructor; [apply Hset, HQt|].
    destruct t; cbn [children set_children] in *.
    apply Forall_alter; [exact Hcs|].
    intros x Hx Hx'. rewrite Ec in Hx. injection Hx as <-.
    apply (IH c n); assumption.
Qed.

Lemma counted_step t0 m ms m' c :
  Z.of_nat (tree_size t0) <= int_max ->
  consistent t0 m -> counted m -> Update m ms = Some (m', c) -> counted m'.
Proof.
  intros Hb (Hs & Hv & Hc & _) [Hn Hf] HU.
  assert (Hsame : forall m1, root m1 = root m -> selectedCount m1 = selectedCount m ->
                             counted m1).
  { intros m1 H1 H2. unfold counted. rewrite H1, H2. split; assumption. }
  assert (Hens : forall m1, root m1 = root m -> selectedCount m1 = selectedCount m ->
                            counted (ensureCursorVisible m1)).
  { intros m1 H1 H2. apply Hsame.
    - destruct (ensureCursorVisible_tree m1) as (-> & _). exact H1.
    - destruct (ensureCursorVisible_rest m1) as (-> & _). exact H2. }
  assert (Hexp : forall e p n, deref (root m) p = Some n ->
            counted (ensureCursorVisible
                       (with_cursor (indexOf (flattenVisible (store (set_expanded e) p (root m))) p)
                          (with_tree (store (set_expanded e) p (root m))
                             (flattenVisible (store (set_expanded e) p (root m))) m)))).
  { intros e p n Hd. unfold counted.
    match goal with |- context [ensureCursorVisible ?ma] =>
      destruct (ensureCursorVisible_tree ma) as (-> & _);
      destruct (ensureCursorVisible_rest ma) as (-> & _) end.
    cbn [root selectedCount with_cursor with_tree].
    rewrite walkSelected_store_expanded. split; [exact Hn|].
    apply (Every_store files_only (set_expanded e) p) with (n := n).
    - intros x cs H. destruct x; exact H.
    - exact Hf.
    - exact Hd.
    - pose proof (Every_deref _ _ Hf p n Hd) as H. destruct n; exact H.
    - destruct n; reflexivity. }
  destruct ms as [w h|k|]; simpl in HU.
  - injection HU as <- <-. apply Hens; destruct m; reflexivity.
  - destruct (key_Matches k keys_Quit).
    { injection HU as <- <-. apply Hsame; destruct m; reflexivity. }
    destruct (key_Matches k keys_Up).
    { injection HU as <- <-.
      destruct (0 <? cursor m); apply Hens; destruct m; reflexivity. }
    destruct (key_Matches k keys_Down).
    { injection HU as <- <-.
      destruct (cursor m <? int_sub (len (vis m)) 1); apply Hens; destruct m; reflexivity. }
    destruct (key_Matches k keys_Right).
    { unfold expandAtCursor in HU.
      destruct (vis_at m) as [p|]; [|discriminate]. cbn [mbind option_bind] in HU.
      destruct (deref (root m) p) as [n|] eqn:Hd; [|discriminate].
      cbn [mbind option_bind] in HU.
      destruct (isDir n && negb (expanded n) && (0 <? len (children n)));
        cbn [mbind option_bind] in HU; injection HU as <- <-;
        [apply (Hexp true p n Hd) | split; assumption]. }
    destruct (key_Matches k keys_Left).
    { unfold collapseAtCursor in HU.
      destruct (vis_at m) as [p|]; [|discriminate]. cbn [mbind option_bind] in HU.
      destruct (deref (root m) p) as [n|] eqn:Hd; [|discriminate].
      cbn [mbind option_bind] in HU.
      destruct (isDir n && expanded n && (0 <? len (children n)));
        cbn [mbind option_bind] in HU; injection HU as <- <-;
        [apply (Hexp false p n Hd) | split; assumption]. }
    destruct (key_Matches k keys_Toggle).
    { unfold toggle in HU.
      destruct (vis_at m) as [p|] eqn:Hat; [|discriminate]. cbn [mbind option_bind] in HU.
      destruct (deref (root m) p) as [n|] eqn:Hd; [|discriminate].
      cbn [mbind option_bind] in HU.
      destruct (isDir n) eqn:Hdir; cbn [mbind option_bind negb] in HU;
        injection HU as <- <-; [split; assumption|].
      assert (Hvp : visible (root m) p).
      { apply elem_of_flattenVisible. rewrite <- Hv. apply vis_at_elem, Hat. }
      pose proof (walkSelected_toggle (negb (selected n)) p (root m) n Hvp Hd Hdir) as Hlen.
      pose proof (walkSelected_length (store (set_selected (negb (selected n))) p (root m)))
        as Hle.
      rewrite tree_size_store in Hle by (intros []; reflexivity).
      rewrite Hs in Hle.
      split.
      - cbn [selectedCount root with_selectedCount with_tree]. rewrite Hn. unfold len.
        destruct (selected n); cbn [negb] in *.
        + rewrite int_sub_id by (unfold is_int, int_min, int_max in *; lia). lia.
        + rewrite int_add_id by (unfold is_int, int_min, int_max in *; lia). lia.
      - cbn [root with_selectedCount with_tree].
        apply (Every_store files_only _ p) with (n := n).
        + intros x cs H. destruct x; exact H.
        + exact Hf.
        + exact Hd.
        + intros _. destruct n; exact Hdir.
        + destruct n; reflexivity. }
    destruct (key_Matches k keys_Confirm).
    { injection HU as <- <-. apply Hsame; destruct m; reflexivity. }
    injection HU as <- <-. split; assumption.
  - injection HU as <- <-. split; assumption.
Qed.

Lemma run_reachable m0 msgs : forall m m',
  reachable m0 m -> run m msgs = Some m' -> reachable m0 m'.
Proof.
  induction msgs as [|ms msgs IH]; intros m m' Hr Hrun; simpl in Hrun.
  - injection Hrun as <-. exact Hr.
  - destruct (Update m ms) as [[m1 c]|] eqn:HU; [|discriminate]. simpl in Hrun.
    apply (IH m1 m'); [|exact Hrun]. eapply reach_step; eassumption.
Qed.

(** X10.  In every state of a session on a tree from [buildTree] the
    counter shown in the status line is the number of paths that
    [selectedFiles] returns, and no directory is selected. *)
Theorem selectedCount_counts_selectedFiles start files t bs repo bin m :
  buildTree start files = Some t ->
  Z.of_nat (tree_size t) <= int_max ->
  reachable (newModel t bs repo bin) m ->
  selectedCount m = len (selectedFiles m) /\
  (forall p n, deref (root m) p = Some n -> selected n = true -> isDir n = false).
Proof.
  intros Ht Hb Hr.
  assert (Hc : counted m).
  { induction Hr as [|m ms m' c Hr IH HU].
    - pose proof (buildTree_Every_default _ _ _ Ht) as HE.
      assert (Hun : Every (fun x => selected x = false) t).
      { clear -HE. induction t as [n IH] using node_ind_children.
        destruct HE as [n (Hs & _) Hcs]. constructor; [exact Hs|].
        rewrite Forall_forall in IH. rewrite Forall_forall in Hcs.
        apply Forall_forall. intros c Hc. apply IH; [exact Hc | apply Hcs, Hc]. }
      split.
      + cbn [selectedCount root newModel]. rewrite (walkSelected_unselected _ Hun).
        reflexivity.
      + cbn [root newModel]. clear -Hun.
        induction t as [n IH] using node_ind_children.
        destruct Hun as [n Hs Hcs]. constructor; [intros H; congruence|].
        rewrite Forall_forall in IH. rewrite Forall_forall in Hcs.
        apply Forall_forall. intros c Hc. apply IH; [exact Hc | apply Hcs, Hc].
    - eapply counted_step; [exact Hb | | exact IH | exact HU].
      apply (reachable_consistent _ _ _ _ _ Hb Hr). }
  destruct Hc as [Hn Hf]. split.
  - rewrite Hn. unfold selectedFiles, sort_Strings, len.
    rewrite (Permutation_length (sort_Slice_Permutation String.ltb _)). reflexivity.
  - intros p n Hd. apply (Every_deref _ _ Hf p n Hd).
Qed.

Lemma selectedCount_counts_selectedFiles_witness :
  selectedCount model_confirmed = len (selectedFiles model_confirmed) /\
  (forall p n, deref (root model_confirmed) p = Some n ->
               selected n = true -> isDir n = false).
Proof.
  apply (selectedCount_counts_selectedFiles "." files_example tree_three_files "" false false).
  - vm_compute. reflexivity.
  - vm_compute. discriminate.
  - apply (run_reachable _ msgs_example (newModel tree_three_files "" false false));
      [apply reach_init | vm_compute; reflexivity].
Defined.

(** * The nodes of the tree and the input paths *)

Lemma resolve_app q : forall t r,
  resolve t (q ++ r) = n ← resolve t q; resolve n r.
Proof.
  induction q as [|x q IH]; intros t r; [reflexivity|].
  simpl. destruct (child t x) as [[j c]|]; [|reflexivity]. simpl. apply IH.
Qed.

Lemma resolve_prefix t q ps :
  q `prefix_of` ps -> is_Some (resolve t ps) -> is_Some (resolve t q).
Proof.
  intros [r ->] [n Hn]. rewrite resolve_app in Hn.
  destruct (resolve t q) as [x|]; [eauto | discriminate].
Qed.

Lemma resolve_leaf n q : children n = [] -> q <> [] -> resolve n q = None.
Proof.
  intros Hc Hq. destruct q as [|x q]; [congruence|]. simpl.
  unfold child. rewrite Hc. destruct (negb (isDir n)); reflexivity.
Qed.

(** A node found after an insertion was there before, with the same kind,
    or it is one of the nodes of the inserted path; among these the file is
    the node of the whole path. *)
Lemma insertParts_new parts : forall cur cur' q n',
  insertParts cur parts = Some cur' ->
  resolve cur' q = Some n' ->
  (exists n, resolve cur q = Some n /\ isDir n = isDir n') \/
  (q <> [] /\ q `prefix_of` parts /\ (isDir n' = false <-> q = parts)).
Proof.
  induction parts as [|part rest IH]; intros cur cur' q n' Hi Hr.
  { simpl in Hi. injection Hi as <-. left. eauto. }
  destruct q as [|x q'].
  { simpl in Hr. injection Hr as <-. left. exists cur. split; [reflexivity|].
    symmetry. apply (insertParts_keys _ _ _ Hi). }
  assert (Hcons : forall n0 : node,
            (q' <> [] /\ q' `prefix_of` rest /\ (isDir n0 = false <-> q' = rest)) ->
            part :: q' <> [] /\ part :: q' `prefix_of` part :: rest /\
            (isDir n0 = false <-> part :: q' = part :: rest)).
  { intros n0 (_ & Hp & Hiff). split; [discriminate|].
    split; [apply prefix_cons, Hp|]. rewrite Hiff.
    split; [intros ->; reflexivity | intros H; injection H as H; exact H]. }
  simpl in Hr. destruct (child cur' x) as [[j cj]|] eqn:Ecx; [|discriminate].
  simpl in Hr.
  destruct (insertParts_cases _ _ _ _ Hi)
    as [(_ & _ & ->) | [(-> & Ec & Hd & ->) |
        [(Hrest & i & c & c' & Ec & E & ->) | (Hrest & Ec & Hd & d' & E & ->)]]].
  - left. exists n'. split; [|reflexivity]. simpl. rewrite Ecx. exact Hr.
  - rewrite (child_set_children _ _ _ Hd), child_from_app in Ecx.
    cbn [name newFile] in Ecx.
    destruct (String.eqb_spec part x) as [->|Hne].
    + injection Ecx as _ <-. destruct q' as [|y q''].
      * simpl in Hr. injection Hr as <-. right.
        split; [discriminate|]. split; [reflexivity|]. split; reflexivity.
      * rewrite resolve_leaf in Hr by (reflexivity || discriminate). discriminate.
    + left. exists n'. split; [|reflexivity]. simpl.
      rewrite (child_dir _ _ Hd), Ecx. exact Hr.
  - pose proof (child_Some _ _ _ _ Ec) as (Hd & Hic & Hnc).
    destruct (insertParts_keys _ _ _ E) as [Hn' _].
    rewrite (child_set_children _ _ _ Hd) in Ecx.
    rewrite (child_from_insert x (children cur) O i c c' Hic Hn') in Ecx.
    destruct (child_from x O (children cur)) as [[j0 y]|] eqn:E0; [|discriminate].
    injection Ecx as <- <-. change (0 + i)%nat with i in Hr.
    destruct (decide (j0 = i)) as [->|Hji].
    + apply child_from_Some in E0 as (k & Hk & Hy & Hx). simpl in Hk. subst k.
      rewrite Hic in Hy. injection Hy as <-. rewrite Hnc in Hx. subst x.
      destruct (IH c c' q' n' E Hr) as [(n & Hn & Hk) | Hnew].
      * left. exists n. split; [|exact Hk]. simpl. rewrite Ec. exact Hn.
      * right. apply Hcons, Hnew.
    + left. exists n'. split; [|reflexivity]. simpl.
      rewrite (child_dir _ _ Hd), E0. exact Hr.
  - destruct (insertParts_keys _ _ _ E) as [Hn' Hk'].
    cbn [name isDir newDir] in Hn', Hk'.
    rewrite (child_set_children _ _ _ Hd), child_from_app in Ecx.
    rewrite Hn' in Ecx.
    destruct (String.eqb_spec part x) as [->|Hne].
    + injection Ecx as _ <-.
      destruct (IH _ d' q' n' E Hr) as [(n & Hn & Hk) | Hnew].
      * destruct q' as [|y q''].
        -- simpl in Hn, Hr. injection Hn as <-. injection Hr as <-.
           right. split; [discriminate|]. split.
           ++ exists rest. reflexivity.
           ++ rewrite Hk'. split; [discriminate|].
              intros H. injection H as H. symmetry in H. contradiction.
        -- rewrite resolve_leaf in Hn by (reflexivity || discriminate). discriminate.
      * right. apply Hcons, Hnew.
    + left. exists n'. split; [|reflexivity]. simpl.
      rewrite (child_dir _ _ Hd), Ecx. exact Hr.
Qed.

(** The same for the whole loop over the input paths. *)
Lemma insertPaths_new start files : forall root root' q n',
  insertPaths start root files = Some root' ->
  resolve root' q = Some n' ->
  (exists n, resolve root q = Some n /\ isDir n = isDir n') \/
  (q <> [] /\ exists f ps,
     f ∈ files /\ path_parts start f = Some ps /\ q `prefix_of` ps /\
     (isDir n' = false <-> q = ps)).
Proof.
  induction files as [|f files IH]; intros root root' q n' Hi Hr; simpl in Hi.
  { injection Hi as <-. left. eauto. }
  destruct (insertPath start root f) as [r1|] eqn:E1; [|discriminate]. simpl in Hi.
  destruct (IH r1 root' q n' Hi Hr) as [(n1 & Hn1 & Hk1) | (Hq & g & ps & Hg & Hps & Hrest)].
  - rewrite insertPath_parts in E1.
    destruct (path_parts start f) as [ps|] eqn:Eps.
    + destruct (insertParts_new ps root r1 q n1 E1 Hn1) as [(n & Hn & Hk) | (Hq & Hp & Hiff)].
      * left. exists n. split; [exact Hn | congruence].
      * right. split; [exact Hq|]. exists f, ps.
        split; [left|]. split; [exact Eps|]. split; [exact Hp|].
        rewrite <- Hk1. exact Hiff.
    + injection E1 as <-. left. eauto.
  - right. split; [exact Hq|]. exists g, ps. split; [right; exact Hg|].
    split; [exact Hps | exact Hrest].
Qed.

Lemma insertPaths_resolves start files f ps : forall root root',
  f ∈ files -> path_parts start f = Some ps ->
  insertPaths start root files = Some root' ->
  is_Some (resolve root' ps).
Proof.
  intros root root' Hin Hps Hi.
  apply list_elem_of_split in Hin as (l1 & l2 & ->).
  rewrite insertPaths_app in Hi.
  destruct (insertPaths start root l1) as [r1|]; [|discriminate]. simpl in Hi.
  destruct (insertPath start r1 f) as [r2|] eqn:E2; [|discriminate]. simpl in Hi.
  rewrite insertPath_parts, Hps in E2.
  destruct (insertParts_resolves _ _ _ (path_parts_nonempty _ _ _ Hps) E2) as [n Hn].
  destruct (insertPaths_keeps _ _ _ _ _ _ Hi Hn) as [n' Hn'].
  eauto.
Qed.

Lemma child_from_absent nm cs : forall i,
  Forall (fun c => name c <> nm) cs -> child_from nm i cs = None.
Proof.
  induction cs as [|c cs IH]; intros i H; [reflexivity|].
  apply Forall_cons in H as [Hc Hcs]. simpl. rewrite (IH _ Hcs).
  destruct (String.eqb_spec (name c) nm); [contradiction | reflexivity].
Qed.

Lemma child_from_unique nm cs c : forall i,
  NoDup (map name cs) -> c ∈ cs -> name c = nm ->
  exists j, child_from nm i cs = Some (j, c).
Proof.
  induction cs as [|c0 cs IH]; intros i Hnd Hin Hnm.
  { apply elem_of_nil in Hin. contradiction. }
  simpl in Hnd. apply NoDup_cons in Hnd as [Hnot Hnd].
  apply elem_of_cons in Hin as [->|Hin].
  - simpl. rewrite child_from_absent.
    + rewrite Hnm, String.eqb_refl. eauto.
    + apply Forall_forall. intros x Hx Heq. apply Hnot.
      apply list_elem_of_fmap. exists x. split; [congruence | exact Hx].
  - destruct (IH (S i) Hnd Hin Hnm) as [j Hj]. simpl. rewrite Hj. eauto.
Qed.

(** [finalizeTree] reorders the children and sets flags: a path of names
    leads to the finalised node of the node it led to. *)
Lemma resolve_finalizeTree q : forall t d,
  wf_node d t -> resolve (finalizeTree t) q = finalizeTree <$> resolve t q.
Proof.
  induction q as [|x q IH]; intros t d Hwf; [reflexivity|].
  destruct (isDir t) eqn:Hd.
  2:{ rewrite (finalizeTree_file t Hd). simpl. rewrite (child_file _ _ Hd). reflexivity. }
  pose proof (finalizeTree_wf t d Hwf) as [Hwf' _].
  assert (Hnd' : NoDup (map name (children (finalizeTree t))))
    by (inversion Hwf'; assumption).
  clear Hwf'. destruct Hwf as [d t _ Hnd _ Hcs].
  assert (Hd' : isDir (finalizeTree t) = true)
    by (destruct (finalizeTree_keys t) as (_ & -> & _); exact Hd).
  assert (Hch : children (finalizeTree t) =
                map finalizeTree (sort_Slice node_less (children t))).
  { rewrite (finalizeTree_dir t Hd). reflexivity. }
  simpl. rewrite (child_dir _ _ Hd'), (child_dir _ _ Hd).
  destruct (child_from x O (children t)) as [[j c]|] eqn:E.
  - apply child_from_Some in E as (k & _ & Hk & Hx).
    assert (Hin : finalizeTree c ∈ children (finalizeTree t)).
    { rewrite Hch. apply list_elem_of_fmap. exists c. split; [reflexivity|].
      rewrite (sort_Slice_Permutation node_less). eapply list_elem_of_lookup_2, Hk. }
    destruct (child_from_unique x _ (finalizeTree c) O Hnd' Hin) as [j' ->].
    { destruct (finalizeTree_keys c) as (-> & _). exact Hx. }
    simpl. apply (IH c (d + 1)). eapply Forall_lookup_1; eassumption.
  - apply child_from_None in E. rewrite child_from_absent; [reflexivity|].
    rewrite Hch. apply Forall_fmap, Forall_forall. intros c Hc. simpl.
    rewrite (sort_Slice_Permutation node_less) in Hc.
    destruct (finalizeTree_keys c) as (-> & _).
    rewrite Forall_forall in E. apply E, Hc.
Qed.

Lemma buildTree_resolve start files t :
  Forall (fun f => Z.of_nat (String.length f) < int_max) files ->
  buildTree start files = Some t ->
  exists r,
    insertPaths start (newDir None start (filepath_FromSlash start)) files = Some r /\
    forall q, resolve t q = finalizeTree <$> resolve r q.
Proof.
  intros Hlen. unfold buildTree.
  destruct (insertPaths start _ files) as [r|] eqn:E; [|discriminate].
  simpl. intros Ht. injection Ht as <-. exists r. split; [reflexivity|].
  intros q. apply (resolve_finalizeTree q r 0).
  refine (proj1 (insertPaths_wf start files _ r Hlen _ E)).
  constructor; simpl; [reflexivity | constructor | discriminate | constructor].
Qed.

(** Where a node of the tree comes from: an input path whose segments the
    path of names to the node is a prefix of, the whole of them exactly when
    the node is a file. *)
Lemma buildTree_node_origin start files t q n :
  Forall (fun f => Z.of_nat (String.length f) < int_max) files ->
  buildTree start files = Some t ->
  q <> [] -> resolve t q = Some n ->
  exists f ps, f ∈ files /\ path_parts start f = Some ps /\ q `prefix_of` ps /\
               (isDir n = false <-> q = ps).
Proof.
  intros Hlen Ht Hq Hn.
  destruct (buildTree_resolve _ _ _ Hlen Ht) as (r & Hr & Hres).
  rewrite Hres in Hn.
  destruct (resolve r q) as [n0|] eqn:En0; [|discriminate]. simpl in Hn.
  injection Hn as <-.
  destruct (insertPaths_new _ _ _ _ _ _ Hr En0) as [(x & Hx & _) | (_ & f & ps & H)].
  - rewrite resolve_leaf in Hx by (reflexivity || exact Hq). discriminate.
  - exists f, ps. destruct (finalizeTree_keys n0) as (_ & -> & _). exact H.
Qed.

(** X11.  The tree of [buildTree] has a node for every input path and for
    every directory on the way to one, and no other node: below the root, a
    path of names leads to a node exactly when it is a prefix of the
    segments of an input path.  A file node stands at the whole of an input
    path, a directory at a proper prefix of one. *)
Theorem buildTree_nodes_are_input_prefixes start files t :
  Forall (fun f => Z.of_nat (String.length f) < int_max) files ->
  buildTree start files = Some t ->
  forall q, q <> [] ->
    (is_Some (resolve t q) <->
     exists f ps, f ∈ files /\ path_parts start f = Some ps /\ q `prefix_of` ps) /\
    (forall n, resolve t q = Some n -> isDir n = false ->
       exists f, f ∈ files /\ path_parts start f = Some q) /\
    (forall n, resolve t q = Some n -> isDir n = true ->
       exists f ps, f ∈ files /\ path_parts start f = Some ps /\
                    q `prefix_of` ps /\ q <> ps).
Proof.
  intros Hlen Ht q Hq.
  pose proof (fun n => buildTree_node_origin start files t q n Hlen Ht Hq) as Hnew.
  destruct (buildTree_resolve _ _ _ Hlen Ht) as (r & Hr & Hres).
  split; [split|split].
  - intros [n Hn]. destruct (Hnew n Hn) as (f & ps & Hf & Hps & Hp & _). eauto.
  - intros (f & ps & Hf & Hps & Hp). rewrite Hres.
    destruct (resolve_prefix r q ps Hp (insertPaths_resolves _ _ _ _ _ _ Hf Hps Hr))
      as [n ->].
    simpl. eauto.
  - intros n Hn Hk. destruct (Hnew n Hn) as (f & ps & Hf & Hps & _ & Hiff).
    exists f. split; [exact Hf|]. rewrite (proj1 Hiff Hk). exact Hps.
  - intros n Hn Hk. destruct (Hnew n Hn) as (f & ps & Hf & Hps & Hp & Hiff).
    exists f, ps. repeat (split; [assumption|]).
    intros Heq. apply Hiff in Heq. congruence.
Qed.

Lemma buildTree_nodes_are_input_prefixes_witness :
  (is_Some (resolve tree_three_files ["d"%string]) <->
   exists f ps, f ∈ files_example /\ path_parts "." f = Some ps /\ ["d"%string] `prefix_of` ps) /\
  (forall n, resolve tree_three_files ["d"%string] = Some n -> isDir n = false ->
     exists f, f ∈ files_example /\ path_parts "." f = Some ["d"%string]) /\
  (forall n, resolve tree_three_files ["d"%string] = Some n -> isDir n = true ->
     exists f ps, f ∈ files_example /\ path_parts "." f = Some ps /\
                  ["d"%string] `prefix_of` ps /\ ["d"%string] <> ps).
Proof.
  apply (buildTree_nodes_are_input_prefixes "." files_example tree_three_files).
  - repeat (constructor; [vm_compute; reflexivity|]). constructor.
  - vm_compute. reflexivity.
  - discriminate.
Defined.

Lemma insertPath_isDir start root root' f :
  insertPath start root f = Some root' -> isDir root' = isDir root.
Proof.
  rewrite insertPath_parts. destruct (path_parts start f) as [ps|].
  - intros H. apply (insertParts_keys _ _ _ H).
  - intros H. injection H as <-. reflexivity.
Qed.

Lemma insertPaths_total start root0 : forall todo done root,
  children root0 = [] ->
  insertPaths start root0 done = Some root ->
  isDir root = true ->
  no_file_below_file start (done ++ todo) ->
  is_Some (insertPaths start root todo).
Proof.
  induction todo as [|f todo IH]; intros done root H0 Hdone Hd Hfree; [simpl; eauto|].
  simpl.
  assert (Hstep : is_Some (insertPath start root f)).
  { rewrite insertPath_parts. destruct (path_parts start f) as [ps|] eqn:Eps; [|eauto].
    destruct (insertParts root ps) as [r1|] eqn:E; [eauto|].
    apply (insertParts_panics ps root Hd) in E
      as (ds & rest & fn & Hps & Hds & Hrest & Hres & Hfile).
    destruct (insertPaths_new _ _ _ _ _ _ Hdone Hres)
      as [(x & Hx & _) | (_ & g & qs & Hg & Hqs & _ & Hiff)].
    - rewrite resolve_leaf in Hx by assumption. discriminate.
    - apply Hiff in Hfile. subst qs. exfalso. apply Hrest.
      assert (Heq : ds = ps).
      { apply (Hfree g f ds ps); try assumption.
        - apply elem_of_app. left. exact Hg.
        - apply elem_of_app. right. left.
        - exists rest. exact Hps. }
      rewrite Heq in Hps. rewrite <- (app_nil_r ps) in Hps at 1.
      apply app_inv_head in Hps. congruence. }
  destruct Hstep as [r1 E1]. rewrite E1. simpl.
  apply (IH (done ++ [f]) r1 H0).
  - rewrite insertPaths_app, Hdone. simpl. rewrite E1. reflexivity.
  - rewrite (insertPath_isDir _ _ _ _ E1). exact Hd.
  - rewrite <- app_assoc. exact Hfree.
Qed.

(** X12.  When no input path lies below another input path (no file is
    also a directory of the listing), [buildTree] returns a tree: the panic
    of [addChild] cannot happen. *)
Theorem buildTree_total_on_listing start files :
  no_file_below_file start files ->
  exists t, buildTree start files = Some t.
Proof.
  intros Hfree. unfold buildTree.
  destruct (insertPaths_total start (newDir None start (filepath_FromSlash start))
              files [] _ eq_refl eq_refl eq_refl Hfree) as [r ->].
  simpl. eauto.
Qed.

Lemma buildTree_total_on_listing_witness :
  exists t, buildTree "." files_example = Some t.
Proof.
  apply (buildTree_total_on_listing "." files_example).
  intros f g ps qs Hf Hg.
  repeat (apply elem_of_cons in Hf as [->|Hf]); [| | |apply elem_of_nil in Hf; contradiction];
    (repeat (apply elem_of_cons in Hg as [->|Hg]);
       [| | |apply elem_of_nil in Hg; contradiction]);
    vm_compute; intros H1 H2; injection H1 as <-; injection H2 as <-;
    intros [k Hk]; try reflexivity; discriminate.
Defined.

(** * The paths kept in the nodes *)

Lemma string_app_cons x a b :
  String.append (String x a) b = String x (String.append a b).
Proof. reflexivity. Qed.

Lemma string_app_assoc a b c :
  String.append (String.append a b) c = String.append a (String.append b c).
Proof.
  induction a as [|x a IH]; [reflexivity|].
  rewrite !string_app_cons, IH. reflexivity.
Qed.

Lemma string_substring_full s : String.substring 0 (String.length s) s = s.
Proof. induction s as [|c s IH]; simpl; [reflexivity|]. rewrite IH. reflexivity. Qed.

Lemma string_prefix_split p : forall s,
  String.prefix p s = true ->
  s = String.append p
        (String.substring (String.length p) (String.length s - String.length p) s).
Proof.
  induction p as [|a p IH]; intros s H.
  - simpl. rewrite Nat.sub_0_r, string_substring_full. reflexivity.
  - destruct s as [|b s]; [discriminate|]. simpl in H.
    destruct (ascii_dec a b) as [->|]; [|discriminate].
    simpl. rewrite string_app_cons. f_equal. apply IH, H.
Qed.

Lemma strings_Split_cons s sep : exists p ps, strings_Split s sep = p :: ps.
Proof.
  pose proof (strings_Split_length s sep) as [H _].
  destruct (strings_Split s sep) as [|p ps]; [simpl in H; lia | eauto].
Qed.

Lemma strings_Join_String c p ps sep :
  strings_Join (String c p :: ps) sep = String c (strings_Join (p :: ps) sep).
Proof. destruct ps; reflexivity. Qed.

(** Joining the parts of a split gives the string back. *)
Lemma strings_Join_Split s :
  strings_Join (strings_Split s slash) "/" = s.
Proof.
  induction s as [|c s IH]; [reflexivity|]. simpl.
  destruct (strings_Split_cons s slash) as (p & ps & E). rewrite E in *.
  destruct (Ascii.eqb_spec c slash) as [->|Hc].
  - change (strings_Join ("" :: p :: ps) "/")
      with (String.append "" (String.append "/" (strings_Join (p :: ps) "/"))).
    rewrite IH. reflexivity.
  - rewrite strings_Join_String, IH. reflexivity.
Qed.

(** The parts of a split hold no separator: each is its own split. *)
Lemma strings_Split_parts s :
  Forall (fun p => strings_Split p slash = [p]) (strings_Split s slash).
Proof.
  induction s as [|c s IH]; [repeat constructor|]. simpl.
  destruct (Ascii.eqb_spec c slash) as [->|Hc].
  - constructor; [reflexivity | exact IH].
  - destruct (strings_Split s slash) as [|p ps]; [repeat constructor|].
    + simpl. destruct (Ascii.eqb_spec c slash); [contradiction | reflexivity].
    + apply Forall_cons in IH as [Hp Hps]. constructor; [|exact Hps].
      simpl. rewrite Hp. destruct (Ascii.eqb_spec c slash); [contradiction | reflexivity].
Qed.

Lemma strings_Split_app a b :
  strings_Split (String.append a (String.append "/" b)) slash =
  strings_Split a slash ++ strings_Split b slash.
Proof.
  induction a as [|c a IH]; [reflexivity|].
  change (String.append (String c a) (String.append "/" b))
    with (String c (String.append a (String.append "/" b))).
  simpl. rewrite IH.
  destruct (Ascii.eqb_spec c slash); [reflexivity|].
  destruct (strings_Split_cons a slash) as (p & ps & ->). reflexivity.
Qed.

Lemma clean_step_normal rooted out e :
  normal_seg e = true -> clean_step rooted out e = e :: out.
Proof.
  unfold normal_seg, clean_step. intros H.
  apply andb_prop in H as [H H3]. apply andb_prop in H as [H1 H2].
  destruct (String.eqb e ""); [discriminate|].
  destruct (String.eqb e "."); [discriminate|].
  destruct (String.eqb e ".."); [discriminate | reflexivity].
Qed.

Lemma fold_clean_step_normal rooted segs : forall out,
  forallb normal_seg segs = true ->
  fold_left (clean_step rooted) segs out = rev segs ++ out.
Proof.
  induction segs as [|e segs IH]; intros out H; [reflexivity|].
  simpl in H. apply andb_prop in H as [He Hs].
  simpl. rewrite (clean_step_normal _ _ _ He), (IH _ Hs), <- app_assoc. reflexivity.
Qed.

Lemma normal_path_shape p :
  normal_path p = true -> String.eqb p "" = false /\ String.prefix "/" p = false.
Proof.
  unfold normal_path. destruct p as [|c p]; [discriminate|].
  intros H. split; [reflexivity|].
  change (String.prefix "/" (String c p))
    with (if ascii_dec "/" c then String.prefix "" p else false).
  destruct (ascii_dec "/" c) as [<-|]; [|reflexivity].
  simpl in H. discriminate.
Qed.

(** [filepath.Clean] keeps a path in normal form. *)
Lemma filepath_Clean_normal p : normal_path p = true -> filepath_Clean p = p.
Proof.
  intros H. destruct (normal_path_shape p H) as [He Hr].
  unfold filepath_Clean. rewrite He, Hr.
  rewrite (fold_clean_step_normal false _ [] H), app_nil_r, rev_involutive.
  rewrite strings_Join_Split, He. reflexivity.
Qed.

Lemma normal_path_app a b :
  normal_path a = true -> normal_path b = true ->
  normal_path (String.append a (String.append "/" b)) = true.
Proof.
  unfold normal_path. intros Ha Hb.
  rewrite strings_Split_app, forallb_app, Ha, Hb. reflexivity.
Qed.

Lemma filepath_Join_normal a b :
  normal_path a = true -> normal_path b = true ->
  filepath_Join a b = String.append a (String.append "/" b).
Proof.
  intros Ha Hb. unfold filepath_Join.
  destruct (normal_path_shape a Ha) as [-> _]. simpl.
  apply filepath_Clean_normal, normal_path_app; assumption.
Qed.

Lemma filepath_Join_dot b : normal_path b = true -> filepath_Join "." b = b.
Proof.
  intros Hb. destruct (normal_path_shape b Hb) as [He Hr].
  unfold filepath_Join. simpl. unfold filepath_Clean.
  change (String.eqb (String.append "." (String.append "/" b)) "") with false.
  change (String.prefix "/" (String.append "." (String.append "/" b))) with false.
  cbv iota. rewrite strings_Split_app.
  change (strings_Split "." slash) with ["."%string].
  change (fold_left (clean_step false) (["."%string] ++ strings_Split b slash) [])
    with (fold_left (clean_step false) (strings_Split b slash) []).
  rewrite (fold_clean_step_normal false _ [] Hb), app_nil_r, rev_involutive.
  rewrite strings_Join_Split, He. reflexivity.
Qed.

(** The paths joined on the way down a list of segments in normal form. *)
Lemma fold_filepath_Join q : forall b,
  normal_path b = true ->
  forallb normal_seg q = true ->
  Forall (fun x => strings_Split x slash = [x]) q ->
  q <> [] ->
  fold_left (fun b x => filepath_Join b (filepath_FromSlash x)) q b =
    String.append b (String.append "/" (strings_Join q "/")) /\
  normal_path (strings_Join q "/") = true.
Proof.
  induction q as [|x q IH]; intros b Hb Hq Hs Hne; [congruence|].
  simpl in Hq. apply andb_prop in Hq as [Hx Hq].
  apply Forall_cons in Hs as [Hsx Hs].
  assert (Hnx : normal_path x = true).
  { unfold normal_path. rewrite Hsx. simpl. rewrite Hx. reflexivity. }
  cbn [fold_left]. unfold filepath_FromSlash at 2.
  rewrite (filepath_Join_normal b x Hb Hnx).
  destruct q as [|y q].
  - simpl. split; [reflexivity | exact Hnx].
  - destruct (IH (String.append b (String.append "/" x))
                (normal_path_app _ _ Hb Hnx) Hq Hs) as [-> Hn]; [discriminate|].
    change (strings_Join (x :: y :: q) "/")
      with (String.append x (String.append "/" (strings_Join (y :: q) "/"))).
    split.
    + rewrite !string_app_assoc. reflexivity.
    + apply normal_path_app; assumption.
Qed.

Lemma fold_filepath_Join_dot q :
  forallb normal_seg q = true ->
  Forall (fun x => strings_Split x slash = [x]) q ->
  q <> [] ->
  fold_left (fun b x => filepath_Join b (filepath_FromSlash x)) q "."%string =
    strings_Join q "/".
Proof.
  intros Hq Hs Hne. destruct q as [|x q]; [congruence|].
  simpl in Hq. apply andb_prop in Hq as [Hx Hq].
  apply Forall_cons in Hs as [Hsx Hs].
  assert (Hnx : normal_path x = true).
  { unfold normal_path. rewrite Hsx. simpl. rewrite Hx. reflexivity. }
  cbn [fold_left]. unfold filepath_FromSlash at 2.
  rewrite (filepath_Join_dot x Hnx).
  destruct q as [|y q]; [reflexivity|].
  destruct (fold_filepath_Join (y :: q) x Hnx Hq Hs) as [-> _]; [discriminate|].
  reflexivity.
Qed.

Lemma insertParts_rel parts : forall cur cur',
  Every rel_linked cur -> insertParts cur parts = Some cur' ->
  Every rel_linked cur' /\ relBase cur' = relBase cur /\ name cur' = name cur.
Proof.
  induction parts as [|part rest IH]; intros cur cur' HE Hi.
  { simpl in Hi. injection Hi as <-. auto. }
  destruct HE as [cur HQ Hcs]. unfold rel_linked in HQ.
  destruct (insertParts_cases _ _ _ _ Hi)
    as [(_ & _ & ->) | [(_ & _ & Hd & ->) |
        [(_ & i & c & c' & Ec & E & ->) | (_ & _ & Hd & d' & E & ->)]]].
  - split; [constructor; assumption | auto].
  - split; [|split; destruct cur; reflexivity].
    constructor; [unfold rel_linked|]; cbn [children relBase set_children].
    + apply Forall_app. split; [exact HQ|]. repeat constructor.
    + apply Forall_app. split; [exact Hcs|].
      constructor; [|constructor]. constructor; constructor.
  - apply child_Some in Ec as (Hd & Hic & Hnc).
    destruct (IH c c') as (HE' & Hr' & Hn'); [|exact E|].
    { eapply Forall_lookup_1; eassumption. }
    split; [|split; destruct cur; reflexivity].
    constructor; [unfold rel_linked|]; cbn [children relBase set_children].
    + apply Forall_insert; [exact HQ|]. rewrite Hr', Hn'.
      apply (Forall_lookup_1 _ _ _ _ HQ Hic).
    + apply Forall_insert; assumption.
  - assert (HE0 : Every rel_linked
                    (newDir (Some cur) part
                       (filepath_Join (relBase cur) (filepath_FromSlash part))))
      by (constructor; constructor).
    destruct (IH _ d' HE0 E) as (HE' & Hr' & Hn').
    split; [|split; destruct cur; reflexivity].
    constructor; [unfold rel_linked|]; cbn [children relBase set_children].
    + apply Forall_app. split; [exact HQ|]. constructor; [|constructor].
      rewrite Hr', Hn'. reflexivity.
    + apply Forall_app. split; [exact Hcs|]. constructor; [exact HE' | constructor].
Qed.

Lemma insertPaths_rel start files : forall root root',
  Every rel_linked root -> insertPaths start root files = Some root' ->
  Every rel_linked root' /\ relBase root' = relBase root.
Proof.
  induction files as [|f files IH]; intros root root' HE Hi; simpl in Hi.
  { injection Hi as <-. auto. }
  destruct (insertPath start root f) as [r1|] eqn:E; [|discriminate]. simpl in Hi.
  rewrite insertPath_parts in E. destruct (path_parts start f) as [ps|].
  - destruct (insertParts_rel _ _ _ HE E) as (HE1 & Hr1 & _).
    destruct (IH r1 root' HE1 Hi) as [H1 H2]. split; [exact H1 | congruence].
  - injection E as <-. apply IH; assumption.
Qed.

Lemma resolve_relBase q : forall t n,
  Every rel_linked t -> resolve t q = Some n ->
  relBase n = fold_left (fun b x => filepath_Join b (filepath_FromSlash x)) q (relBase t).
Proof.
  induction q as [|x q IH]; intros t n HE Hr; simpl in Hr.
  { injection Hr as <-. reflexivity. }
  destruct (child t x) as [[j c]|] eqn:Ec; [|discriminate]. simpl in Hr.
  apply child_Some in Ec as (_ & Hj & Hx).
  destruct HE as [t HQ Hcs].
  rewrite (IH c n (Forall_lookup_1 _ _ _ _ Hcs Hj) Hr).
  cbn [fold_left]. rewrite (Forall_lookup_1 _ _ _ _ HQ Hj), Hx. reflexivity.
Qed.

Lemma resolve_name q x : forall t n,
  resolve t (q ++ [x]) = Some n -> name n = x.
Proof.
  intros t n. rewrite resolve_app.
  destruct (resolve t q) as [m|]; [|discriminate]. simpl.
  destruct (child m x) as [[j c]|] eqn:Ec; [|discriminate]. simpl.
  intros H. injection H as <-. apply (child_Some _ _ _ _ Ec).
Qed.

(** The path kept in the node that the segments of an input path lead to. *)
Lemma buildTree_relBase start files t f ps n :
  Forall (fun f => Z.of_nat (String.length f) < int_max) files ->
  buildTree start files = Some t ->
  start = "."%string \/ normal_path start = true ->
  path_parts start f = Some ps ->
  forallb normal_seg ps = true ->
  resolve t ps = Some n ->
  filepath_ToSlash (relBase n) = f /\ Some (name n) = last ps.
Proof.
  intros Hlen Ht Hstart Hps Hnorm Hres.
  pose proof (path_parts_nonempty _ _ _ Hps) as Hne.
  split.
  2:{ destruct (exists_last Hne) as (q & x & ->).
      rewrite last_snoc. f_equal. eapply resolve_name, Hres. }
  destruct (buildTree_resolve _ _ _ Hlen Ht) as (r & Hr & Hfin).
  rewrite Hfin in Hres. destruct (resolve r ps) as [n0|] eqn:En0; [|discriminate].
  simpl in Hres. injection Hres as <-.
  destruct (finalizeTree_keys n0) as (_ & _ & _ & -> & _).
  unfold filepath_ToSlash.
  assert (HE0 : Every rel_linked (newDir None start (filepath_FromSlash start)))
    by (constructor; constructor).
  destruct (insertPaths_rel start files _ r HE0 Hr) as [HE Hroot].
  rewrite (resolve_relBase ps r n0 HE En0), Hroot.
  cbn [relBase newDir]. unfold filepath_FromSlash at 2.
  unfold path_parts in Hps.
  destruct (String.eqb_spec start ".") as [->|Hdot].
  - simpl in Hps. destruct (String.eqb f ""); [discriminate|].
    injection Hps as <-.
    rewrite fold_filepath_Join_dot;
      [apply strings_Join_Split | exact Hnorm | apply strings_Split_parts | exact Hne].
  - destruct Hstart as [->|Hstart]; [congruence|].
    cbn [negb andb] in Hps.
    destruct (strings_HasPrefix f (String.append start "/")) eqn:Hpre; [|discriminate].
    cbn [negb] in Hps.
    destruct (String.eqb (strings_TrimPrefix f (String.append start "/")) "");
      [discriminate|].
    injection Hps as <-.
    destruct (fold_filepath_Join _ start Hstart Hnorm (strings_Split_parts _) Hne)
      as [-> _].
    rewrite strings_Join_Split. unfold strings_TrimPrefix. rewrite Hpre.
    unfold strings_HasPrefix in Hpre.
    rewrite (string_prefix_split _ _ Hpre) at 3.
    rewrite string_app_assoc. reflexivity.
Qed.

(** X13.  The node that the segments of an input path lead to keeps that
    very path in [relBase] (the path that [selectedFiles] reports and
    [buildMarkdown] opens), and the last segment as its name, when the
    segments are in normal form: none is empty, [.] or [..]. *)
Theorem relBase_is_input_path start files t f ps n :
  Forall (fun f => Z.of_nat (String.length f) < int_max) files ->
  buildTree start files = Some t ->
  start = "."%string \/ normal_path start = true ->
  path_parts start f = Some ps ->
  forallb normal_seg ps = true ->
  resolve t ps = Some n ->
  filepath_ToSlash (relBase n) = f /\ Some (name n) = last ps.
Proof. apply buildTree_relBase. Qed.

Lemma relBase_is_input_path_witness :
  filepath_ToSlash (relBase (mkNode "x" "d/x" false [] 2 false false)) = "d/x"%string /\
  Some (name (mkNode "x" "d/x" false [] 2 false false)) = last ["d"; "x"]%string.
Proof.
  apply (relBase_is_input_path "." files_example tree_three_files "d/x" ["d"; "x"]%string).
  - repeat (constructor; [vm_compute; reflexivity|]). constructor.
  - vm_compute. reflexivity.
  - left. reflexivity.
  - reflexivity.
  - reflexivity.
  - reflexivity.
Defined.

(** * From the selection back to the listing *)

Lemma erase_keys n :
  name (erase n) = name n /\ relBase (erase n) = relBase n /\ isDir (erase n) = isDir n /\
  children (erase n) = map erase (children n).
Proof. destruct n; repeat split; reflexivity. Qed.

Lemma deref_erase p : forall t1 t2 n1,
  erase t1 = erase t2 -> deref t1 p = Some n1 ->
  exists n2, deref t2 p = Some n2 /\ erase n1 = erase n2.
Proof.
  induction p as [|i p IH]; intros t1 t2 n1 He Hd; simpl in Hd.
  - injection Hd as <-. exists t2. split; [reflexivity | exact He].
  - destruct (children t1 !! i) as [c1|] eqn:E1; [|discriminate]. simpl in Hd.
    assert (Hcs : map erase (children t1) = map erase (children t2)).
    { destruct (erase_keys t1) as (_ & _ & _ & <-).
      destruct (erase_keys t2) as (_ & _ & _ & <-). rewrite He. reflexivity. }
    assert (Hc : map erase (children t2) !! i = Some (erase c1)).
    { rewrite <- Hcs, list_lookup_fmap, E1. reflexivity. }
    rewrite list_lookup_fmap in Hc.
    destruct (children t2 !! i) as [c2|] eqn:E2; [|discriminate].
    simpl in Hc. injection Hc as Hc.
    destruct (IH c1 c2 n1 (eq_sym Hc) Hd) as (n2 & Hn2 & Hen).
    exists n2. split; [|exact Hen]. simpl. rewrite E2. exact Hn2.
Qed.

(** In a tree with distinct sibling names the node at a position is the
    node that the names on the way lead to. *)
Lemma deref_resolve p : forall t d n,
  wf_node d t -> deref t p = Some n ->
  exists q, resolve t q = Some n /\ length q = length p.
Proof.
  induction p as [|i p IH]; intros t d n Hwf Hd; simpl in Hd.
  - injection Hd as <-. exists []. split; reflexivity.
  - destruct (children t !! i) as [c|] eqn:Ec; [|discriminate]. simpl in Hd.
    destruct Hwf as [d t _ Hnd Hleaf Hcs].
    destruct (IH c (d + 1) n (Forall_lookup_1 _ _ _ _ Hcs Ec) Hd) as (q & Hq & Hlen).
    assert (Hdir : isDir t = true).
    { destruct (isDir t); [reflexivity|]. rewrite Hleaf in Ec by reflexivity. discriminate. }
    destruct (child_from_unique (name c) (children t) c O Hnd) as [j Hj];
      [eapply list_elem_of_lookup_2, Ec | reflexivity|].
    exists (name c :: q). split; [|simpl; congruence].
    simpl. rewrite (child_dir _ _ Hdir), Hj. exact Hq.
Qed.

Lemma reachable_erase t bs repo bin m :
  reachable (newModel t bs repo bin) m -> erase (root m) = erase t.
Proof.
  induction 1 as [|m ms m' c _ IH HU]; [reflexivity|].
  destruct (Update_root _ _ _ _ HU) as (f & p & Hf & ->).
  rewrite (erase_store f p Hf). exact IH.
Qed.

Lemma insertPaths_isDir start files : forall root root',
  insertPaths start root files = Some root' -> isDir root' = isDir root.
Proof.
  induction files as [|f files IH]; intros root root' Hi; simpl in Hi.
  { injection Hi as <-. reflexivity. }
  destruct (insertPath start root f) as [r1|] eqn:E; [|discriminate]. simpl in Hi.
  rewrite (IH _ _ Hi). apply (insertPath_isDir _ _ _ _ E).
Qed.

Lemma buildTree_root_isDir start files t :
  buildTree start files = Some t -> isDir t = true.
Proof.
  unfold buildTree.
  destruct (insertPaths start _ files) as [r|] eqn:E; [|discriminate].
  simpl. intros Ht. injection Ht as <-.
  destruct (finalizeTree_keys r) as (_ & -> & _).
  rewrite (insertPaths_isDir _ _ _ _ E). reflexivity.
Qed.

(** The paths of the selection are paths of the listing. *)
Lemma selectedFiles_from_listing start files t bs repo bin m :
  Forall (fun f => Z.of_nat (String.length f) < int_max) files ->
  buildTree start files = Some t ->
  start = "."%string \/ normal_path start = true ->
  (forall f ps, f ∈ files -> path_parts start f = Some ps ->
                forallb normal_seg ps = true) ->
  reachable (newModel t bs repo bin) m ->
  forall x, x ∈ selectedFiles m -> x ∈ files.
Proof.
  intros Hlen Ht Hstart Hnorm Hr x Hx.
  unfold selectedFiles, sort_Strings in Hx.
  rewrite (sort_Slice_Permutation String.ltb) in Hx.
  rewrite walkSelected_selPtrs in Hx.
  apply list_elem_of_fmap in Hx as (p & -> & Hp).
  apply selPtrs_sound in Hp as (n & Hn & Hsel).
  unfold path_at. rewrite Hn.
  destruct (deref_erase p _ t n (reachable_erase _ _ _ _ _ Hr) Hn) as (n0 & Hn0 & He).
  assert (Hrel : relBase n = relBase n0).
  { destruct (erase_keys n) as (_ & <- & _). destruct (erase_keys n0) as (_ & <- & _).
    rewrite He. reflexivity. }
  assert (Hfile : isDir n0 = false).
  { destruct (erase_keys n0) as (_ & _ & <- & _). rewrite <- He.
    destruct (erase_keys n) as (_ & _ & -> & _).
    unfold is_selected_file in Hsel. destruct (isDir n); [discriminate | reflexivity]. }
  destruct (buildTree_wf _ _ _ Hlen Ht) as [Hwf _].
  destruct (deref_resolve p t 0 n0 Hwf Hn0) as (q & Hq & _).
  assert (Hne : q <> []).
  { intros ->. simpl in Hq. injection Hq as <-.
    rewrite (buildTree_root_isDir _ _ _ Ht) in Hfile. discriminate. }
  destruct (buildTree_node_origin _ _ _ _ _ Hlen Ht Hne Hq)
    as (f & ps & Hf & Hps & _ & Hiff).
  apply Hiff in Hfile. subst ps.
  destruct (buildTree_relBase _ _ _ _ _ _ Hlen Ht Hstart Hps (Hnorm _ _ Hf Hps) Hq)
    as [Hpath _].
  rewrite Hrel, Hpath. exact Hf.
Qed.

(** X14.  Whatever the user does in a session on the tree of a listing,
    every path that [selectedFiles] returns is a path of the listing, when
    the paths of the listing are in normal form. *)
Theorem selectedFiles_are_input_paths start files t bs repo bin m :
  Forall (fun f => Z.of_nat (String.length f) < int_max) files ->
  buildTree start files = Some t ->
  start = "."%string \/ normal_path start = true ->
  (forall f ps, f ∈ files -> path_parts start f = Some ps ->
                forallb normal_seg ps = true) ->
  reachable (newModel t bs repo bin) m ->
  forall x, x ∈ selectedFiles m -> x ∈ files.
Proof. apply selectedFiles_from_listing. Qed.

Lemma selectedFiles_are_input_paths_witness :
  selectedFiles model_confirmed = ["a.go"; "d/x"]%string /\
  "a.go"%string ∈ files_example.
Proof.
  split; [vm_compute; reflexivity|].
  refine (selectedFiles_are_input_paths "." files_example tree_three_files "" false false
            model_confirmed _ _ _ _ _ "a.go"%string _).
  - repeat (constructor; [vm_compute; reflexivity|]). constructor.
  - vm_compute. reflexivity.
  - left. reflexivity.
  - intros f ps Hf.
    repeat (apply elem_of_cons in Hf as [->|Hf]);
      [| | |apply elem_of_nil in Hf; contradiction];
      vm_compute; intros H; injection H as <-; reflexivity.
  - apply (run_reachable _ msgs_example (newModel tree_three_files "" false false));
      [apply reach_init | vm_compute; reflexivity].
  - let v := eval vm_compute in (selectedFiles model_confirmed) in
    change (selectedFiles model_confirmed) with v.
    left.
Defined.

(** * Listing the files *)

Lemma byte_eqb_refl (c : byte) : Byte.eqb c c = true.
Proof. apply Byte.byte_dec_lb. reflexivity. Qed.

Lemma bytes_Split_cons s sep : exists p ps, bytes_Split s sep = p :: ps.
Proof.
  induction s as [|c s (p & ps & IH)]; simpl; [eauto|].
  destruct (Byte.eqb c sep); [eauto|]. rewrite IH. eauto.
Qed.

Lemma bytes_Split_terminated p sep rest :
  sep ∉ p ->
  bytes_Split (p ++ sep :: rest) sep = p :: bytes_Split rest sep.
Proof.
  induction p as [|c p IH]; intros Hp; simpl.
  - rewrite byte_eqb_refl. reflexivity.
  - apply not_elem_of_cons in Hp as [Hc Hp]. rewrite (IH Hp).
    destruct (Byte.eqb c sep) eqn:E; [|reflexivity].
    apply Byte.byte_dec_bl in E. congruence.
Qed.

Lemma bytes_Split_parts s sep : Forall (fun p => sep ∉ p) (bytes_Split s sep).
Proof.
  induction s as [|c s IH]; simpl.
  - repeat constructor. apply not_elem_of_nil.
  - destruct (Byte.eqb c sep) eqn:E.
    + constructor; [apply not_elem_of_nil | exact IH].
    + destruct (bytes_Split s sep) as [|p ps].
      * repeat constructor. apply not_elem_of_cons. split; [|apply not_elem_of_nil].
        intros <-. rewrite byte_eqb_refl in E. discriminate.
      * apply Forall_cons in IH as [Hp Hps]. constructor; [|exact Hps].
        apply not_elem_of_cons. split; [|exact Hp].
        intros <-. rewrite byte_eqb_refl in E. discriminate.
Qed.

(** X15.  [gitListFiles] reads the NUL-terminated listing of [git ls-files
    -z] back as it was written: no path it returns is empty or holds a NUL
    byte, and when the output is a sequence of such paths, each followed by
    a NUL byte, it returns exactly that sequence, in order. *)
Theorem gitListFiles_reads_listing git base startRelSlash out :
  git (gitListFiles_args base startRelSlash) = Some out ->
  exists files,
    gitListFiles git base startRelSlash = Some files /\
    (forall f, f ∈ files -> f <> ""%string /\ x00 ∉ bytes f) /\
    (forall l,
       Forall (fun f => f <> ""%string /\ x00 ∉ bytes f) l ->
       out = concat (map (fun f => bytes f ++ [x00]) l) ->
       files = l).
Proof.
  intros Hout. unfold gitListFiles. rewrite Hout. cbn [mbind option_bind].
  eexists. split; [reflexivity|]. split.
  - intros f Hf. apply list_elem_of_fmap in Hf as (p & -> & Hp).
    apply list_elem_of_In, filter_In in Hp as [Hp Hne].
    apply list_elem_of_In in Hp.
    pose proof (bytes_Split_parts out x00) as Hparts.
    rewrite Forall_forall in Hparts. specialize (Hparts p Hp).
    split.
    + destruct p; [discriminate | discriminate].
    + unfold bytes. rewrite list_byte_of_string_of_list_byte. exact Hparts.
  - intros l Hl ->. clear Hout. induction l as [|f l IH]; [reflexivity|].
    apply Forall_cons in Hl as [[Hf Hnul] Hl].
    cbn [map concat]. rewrite <- app_assoc. cbn [app].
    rewrite (bytes_Split_terminated _ _ _ Hnul). cbn [List.filter].
    assert (Hlen : negb (len (bytes f) =? 0) = true).
    { destruct f; [congruence | reflexivity]. }
    rewrite Hlen. cbn [map]. unfold bytes at 1.
    rewrite string_of_list_byte_of_string. f_equal. apply IH, Hl.
Qed.

Lemma gitListFiles_reads_listing_witness :
  exists files,
    gitListFiles (fun _ => Some (bytes "a.go" ++ [x00] ++ bytes "d/x" ++ [x00])) "/r" "." =
      Some files /\
    (forall f, f ∈ files -> f <> ""%string /\ x00 ∉ bytes f) /\
    (forall l,
       Forall (fun f => f <> ""%string /\ x00 ∉ bytes f) l ->
       bytes "a.go" ++ [x00] ++ bytes "d/x" ++ [x00] =
         concat (map (fun f => bytes f ++ [x00]) l) ->
       files = l).
Proof.
  apply (gitListFiles_reads_listing
           (fun _ => Some (bytes "a.go" ++ [x00] ++ bytes "d/x" ++ [x00])) "/r" ".").
  reflexivity.
Defined.

(** * Binary detection *)

Lemma utf8_Valid_ascii b :
  Forall (fun c => (Byte.to_N c < 128)%N) b -> utf8_Valid b = true.
Proof.
  induction 1 as [|c b Hc _ IH]; [reflexivity|].
  cbn [utf8_Valid]. apply N.ltb_lt in Hc. rewrite Hc. exact IH.
Qed.

(** X16.  A file whose first read holds a NUL byte is binary; a file whose
    first read is ASCII without a NUL byte (the empty file among them) is
    not, whatever control characters it holds. *)
Theorem isBinary_nul_and_ascii (b : list byte) :
  (x00 ∈ b -> isBinary_bytes b = true) /\
  (x00 ∉ b -> Forall (fun c => (Byte.to_N c < 128)%N) b -> isBinary_bytes b = false).
Proof.
  unfold isBinary_bytes. split.
  - intros Hin. destruct b as [|c b]; [apply elem_of_nil in Hin; contradiction|].
    change (len (c :: b) =? 0) with false. cbv iota.
    assert (existsb (Byte.eqb x00) (c :: b) = true) as ->; [|reflexivity].
    apply existsb_exists. exists x00. split; [apply list_elem_of_In, Hin | reflexivity].
  - intros Hnot Hascii. destruct (len b =? 0); [reflexivity|].
    destruct (existsb (Byte.eqb x00) b) eqn:E.
    + apply existsb_exists in E as (x & Hx & Heq).
      apply Byte.byte_dec_bl in Heq. subst x. apply list_elem_of_In in Hx. contradiction.
    + rewrite (utf8_Valid_ascii b Hascii). reflexivity.
Qed.

(** The other branches on examples: Latin-1 text that is not UTF-8 goes by
    the share of control characters. *)
Example isBinary_ratio_examples :
  isBinary_bytes [xe9; x61; x62; x63; x64; x65; x66; x67; x68; x69] = false /\
  isBinary_bytes [xe9; x01; x02; x63; x64; x65; x66; x67; x68; x69] = true /\
  isBinary_bytes [xe9; x01; x62; x63; x64; x65; x66; x67; x68; x69] = false /\
  isBinary_bytes [xc3; xa9] = false.
Proof. repeat split; vm_compute; reflexivity. Qed.

(** * The language of a fence *)

Lemma string_app_nonempty a b :
  String.eqb (String.append a (String.append "/" b)) "" = false.
Proof. destruct a; reflexivity. Qed.

(** X17.  The language tag of a file goes by the name of the file alone:
    the directories before the name do not change it. *)
Theorem languageFor_by_file_name (dir f : string) :
  f <> ""%string ->
  strings_Split f slash = [f] ->
  languageFor (String.append dir (String.append "/" f)) = languageFor f.
Proof.
  intros Hf Hs.
  assert (Hne : negb (String.eqb f "") = true).
  { destruct (String.eqb_spec f ""); [contradiction | reflexivity]. }
  assert (Hbase : filepath_Base (String.append dir (String.append "/" f)) = filepath_Base f).
  { unfold filepath_Base. rewrite string_app_nonempty, strings_Split_app, Hs.
    apply negb_true_iff in Hne. rewrite Hne.
    rewrite rev_app_distr. simpl rev at 1. cbn [app].
    change (rev [f]) with [f].
    rewrite !filter_cons_True by (apply Is_true_true, negb_true_iff, Hne).
    reflexivity. }
  assert (Hext : filepath_Ext (String.append dir (String.append "/" f)) = filepath_Ext f).
  { unfold filepath_Ext. rewrite strings_Split_app, Hs, rev_app_distr. reflexivity. }
  unfold languageFor. rewrite Hbase, Hext. reflexivity.
Qed.

Lemma languageFor_by_file_name_witness :
  languageFor (String.append "cmd/tool" (String.append "/" "Main.GO")) = languageFor "Main.GO".
Proof.
  apply (languageFor_by_file_name "cmd/tool" "Main.GO"); [discriminate | reflexivity].
Defined.

(** * What a session never changes *)

Lemma Update_frame m ms m' c :
  Update m ms = Some (m', c) ->
  base m' = base m /\ inRepo m' = inRepo m /\ allowBinary m' = allowBinary m /\
  (aborted m = true -> aborted m' = true) /\
  (confirmed m = true -> confirmed m' = true).
Proof.
  assert (Hens : forall m1,
            base m1 = base m -> inRepo m1 = inRepo m -> allowBinary m1 = allowBinary m ->
            aborted m1 = aborted m -> confirmed m1 = confirmed m ->
            base (ensureCursorVisible m1) = base m /\
            inRepo (ensureCursorVisible m1) = inRepo m /\
            allowBinary (ensureCursorVisible m1) = allowBinary m /\
            (aborted m = true -> aborted (ensureCursorVisible m1) = true) /\
            (confirmed m = true -> confirmed (ensureCursorVisible m1) = true)).
  { intros m1 H1 H2 H3 H4 H5. destruct m1; simpl in *. subst. auto. }
  intros HU. destruct ms as [w h|k|]; simpl in HU.
  - injection HU as <- <-. apply Hens; destruct m; reflexivity.
  - destruct (key_Matches k keys_Quit).
    { injection HU as <- <-. destruct m; simpl; auto. }
    destruct (key_Matches k keys_Up).
    { injection HU as <- <-.
      destruct (0 <? cursor m); apply Hens; destruct m; reflexivity. }
    destruct (key_Matches k keys_Down).
    { injection HU as <- <-.
      destruct (cursor m <? int_sub (len (vis m)) 1); apply Hens; destruct m; reflexivity. }
    destruct (key_Matches k keys_Right).
    { unfold expandAtCursor in HU.
      destruct (vis_at m) as [p|]; [|discriminate]. cbn [mbind option_bind] in HU.
      destruct (deref (root m) p) as [n|]; [|discriminate]. cbn [mbind option_bind] in HU.
      destruct (isDir n && negb (expanded n) && (0 <? len (children n)));
        cbn [mbind option_bind] in HU; injection HU as <- <-;
        [apply Hens; destruct m; reflexivity | auto]. }
    destruct (key_Matches k keys_Left).
    { unfold collapseAtCursor in HU.
      destruct (vis_at m) as [p|]; [|discriminate]. cbn [mbind option_bind] in HU.
      destruct (deref (root m) p) as [n|]; [|discriminate]. cbn [mbind option_bind] in HU.
      destruct (isDir n && expanded n && (0 <? len (children n)));
        cbn [mbind option_bind] in HU; injection HU as <- <-;
        [apply Hens; destruct m; reflexivity | auto]. }
    destruct (key_Matches k keys_Toggle).
    { unfold toggle in HU.
      destruct (vis_at m) as [p|]; [|discriminate]. cbn [mbind option_bind] in HU.
      destruct (deref (root m) p) as [n|]; [|discriminate]. cbn [mbind option_bind] in HU.
      destruct (negb (isDir n)); cbn [mbind option_bind] in HU;
        injection HU as <- <-; [destruct m; simpl; auto | auto]. }
    destruct (key_Matches k keys_Confirm).
    { injection HU as <- <-. destruct m; simpl; auto. }
    injection HU as <- <-. auto.
  - injection HU as <- <-. auto.
Qed.

(** What [Update] keeps, along a session. *)
Lemma reachable_frame t bs repo bin m :
  reachable (newModel t bs repo bin) m ->
  erase (root m) = erase t /\ base m = bs /\ inRepo m = repo /\ allowBinary m = bin.
Proof.
  intros Hr. split; [apply (reachable_erase _ _ _ _ _ Hr)|].
  induction Hr as [|m ms m' c _ IH HU]; [auto|].
  destruct (Update_frame _ _ _ _ HU) as (-> & -> & -> & _). exact IH.
Qed.

(** X18.  A session never adds, removes, renames or moves a node of the
    tree (only the [expanded] and [selected] flags change), and it never
    changes the base directory or the two modes that the program was started
    with. *)
Theorem session_keeps_tree_and_modes t bs repo bin m :
  reachable (newModel t bs repo bin) m ->
  erase (root m) = erase t /\ base m = bs /\ inRepo m = repo /\ allowBinary m = bin.
Proof. apply reachable_frame. Qed.

Lemma session_keeps_tree_and_modes_witness :
  erase (root model_confirmed) = erase tree_three_files /\
  base model_confirmed = ""%string /\ inRepo model_confirmed = false /\
  allowBinary model_confirmed = false.
Proof.
  apply (session_keeps_tree_and_modes tree_three_files "" false false).
  apply (run_reachable _ msgs_example (newModel tree_three_files "" false false));
    [apply reach_init | vm_compute; reflexivity].
Defined.

(** ** The share of control characters *)

Lemma uint63_of_Z_small z : 0 <= z < 2 ^ 63 -> Uint63.to_Z (Uint63.of_Z z) = z.
Proof. intros H. rewrite Uint63.of_Z_spec. apply Z.mod_small. exact H. Qed.

Lemma uint63_of_Z_succ z :
  0 <= z < 2 ^ 62 -> PrimInt63.add (Uint63.of_Z z) (Uint63.of_Z 1) = Uint63.of_Z (z + 1).
Proof.
  intros H. apply Uint63.to_Z_inj.
  rewrite Uint63.add_spec, !uint63_of_Z_small by lia.
  apply Z.mod_small. change Uint63.wB with (2 ^ 63). lia.
Qed.

Lemma uint63_of_Z_pred z :
  1 <= z < 2 ^ 62 -> PrimInt63.sub (Uint63.of_Z z) (Uint63.of_Z 1) = Uint63.of_Z (z - 1).
Proof.
  intros H. apply Uint63.to_Z_inj.
  rewrite Uint63.sub_spec, !uint63_of_Z_small by lia.
  apply Z.mod_small. change Uint63.wB with (2 ^ 63). lia.
Qed.

Lemma ShareCheck_upto fuel : forall k n,
  0 <= k -> k + Z.of_nat fuel < 2 ^ 62 ->
  ShareCheck.upto fuel (Uint63.of_Z k) n = true ->
  forall j, k <= j < k + Z.of_nat fuel -> ShareCheck.agrees (Uint63.of_Z j) n = true.
Proof.
  induction fuel as [|f IH]; intros k n Hk Hb H j Hj; [lia|].
  cbn [ShareCheck.upto] in H. apply andb_prop in H as [H0 H1].
  destruct (Z.eq_dec j k) as [->|Hne]; [exact H0|].
  change ShareCheck.one with (Uint63.of_Z 1) in H1.
  rewrite uint63_of_Z_succ in H1 by lia.
  apply (IH (k + 1) n); [lia | lia | exact H1 | lia].
Qed.

Lemma ShareCheck_all fuel :
  Z.of_nat fuel < 2 ^ 61 ->
  ShareCheck.all fuel (Uint63.of_Z (Z.of_nat fuel)) = true ->
  forall n k, 1 <= n <= Z.of_nat fuel -> 0 <= k <= n ->
    ShareCheck.agrees (Uint63.of_Z k) (Uint63.of_Z n) = true.
Proof.
  induction fuel as [|f IH]; intros Hb H n k Hn Hk; [lia|].
  cbn [ShareCheck.all] in H. apply andb_prop in H as [H0 H1].
  destruct (Z.eq_dec n (Z.of_nat (S f))) as [->|Hne].
  - change ShareCheck.zero with (Uint63.of_Z 0) in H0.
    apply (ShareCheck_upto (S (S f)) 0 _); [lia | lia | exact H0 | lia].
  - change ShareCheck.one with (Uint63.of_Z 1) in H1.
    rewrite uint63_of_Z_pred in H1 by lia.
    replace (Z.of_nat (S f) - 1) with (Z.of_nat f) in H1 by lia.
    apply IH; [lia | exact H1 | lia | lia].
Qed.

Lemma ShareCheck_8192 :
  ShareCheck.all (Z.to_nat 8192) (Uint63.of_Z (Z.of_nat (Z.to_nat 8192))) = true.
Proof. vm_compute. reflexivity. Qed.

(** On counts and lengths up to the size of the buffer the rounding of the
    division and of the constant [0.10] never changes the verdict. *)
Lemma share_test_exact k n :
  1 <= n <= 8192 -> 0 <= k <= n ->
  PrimFloat.ltb Float64.tenth (PrimFloat.div (float64_of_int k) (float64_of_int n)) =
  (n <? 10 * k).
Proof.
  intros Hn Hk.
  pose proof (ShareCheck_all (Z.to_nat 8192) ltac:(vm_compute; reflexivity)
                ShareCheck_8192 n k ltac:(lia) Hk) as H.
  unfold ShareCheck.agrees in H. apply Bool.eqb_prop in H.
  unfold float64_of_int. rewrite H. clear H.
  destruct (Z.ltb_spec n (10 * k)) as [Hlt|Hge].
  - apply Uint63.ltb_spec. rewrite Uint63.mul_spec, !uint63_of_Z_small by lia.
    change (Uint63.to_Z ShareCheck.ten) with 10. rewrite Z.mod_small; [lia|].
    change Uint63.wB with (2 ^ 63). lia.
  - destruct (PrimInt63.ltb (Uint63.of_Z n) (PrimInt63.mul ShareCheck.ten (Uint63.of_Z k))) eqn:E;
      [|reflexivity].
    apply Uint63.ltb_spec in E. rewrite Uint63.mul_spec, !uint63_of_Z_small in E by lia.
    change (Uint63.to_Z ShareCheck.ten) with 10 in E. rewrite Z.mod_small in E; [lia|].
    change Uint63.wB with (2 ^ 63). lia.
Qed.

Lemma count_ctrl_fold b : forall a,
  0 <= a -> a + len b <= int_max ->
  fold_left (fun ctrl c => if is_ctrl c then int_add ctrl 1 else ctrl) b a =
  a + len (List.filter is_ctrl b).
Proof.
  induction b as [|c b IH]; intros a Ha Hb.
  - unfold len. simpl. lia.
  - rewrite len_cons in Hb. pose proof (len_nonneg b).
    cbn [fold_left List.filter]. destruct (is_ctrl c).
    + rewrite int_add_id by (unfold is_int, int_min, int_max in *; lia).
      rewrite IH by lia. rewrite len_cons. lia.
    + apply IH; lia.
Qed.

Lemma filter_len_le {A} (f : A -> bool) l : len (List.filter f l) <= len l.
Proof.
  unfold len. induction l as [|x l IH]; simpl; [lia|].
  destruct (f x); simpl; lia.
Qed.

(** X19.  On a first read of at most 8192 bytes (the size of the buffer)
    that holds no NUL byte and is not valid UTF-8, [isBinary] says binary
    exactly when more than a tenth of the bytes are control characters other
    than newline, carriage return, tab and form feed: the rounding of the
    [float64] division never changes the verdict. *)
Theorem isBinary_share_is_exact (b : list byte) :
  len b <= 8192 ->
  x00 ∉ b ->
  utf8_Valid b = false ->
  isBinary_bytes b = (len b <? 10 * len (List.filter is_ctrl b)).
Proof.
  intros Hlen Hnul Hutf.
  assert (Hne : 1 <= len b).
  { destruct b as [|c b']; [discriminate|]. rewrite len_cons.
    pose proof (len_nonneg b'). lia. }
  unfold isBinary_bytes.
  destruct (Z.eqb_spec (len b) 0); [lia|].
  destruct (existsb (Byte.eqb x00) b) eqn:E.
  { apply existsb_exists in E as (x & Hx & Heq).
    apply Byte.byte_dec_bl in Heq. subst x. apply list_elem_of_In in Hx. contradiction. }
  rewrite Hutf. cbv zeta.
  rewrite count_ctrl_fold by (unfold int_max; lia). rewrite Z.add_0_l.
  apply share_test_exact; [lia|].
  split; [apply len_nonneg | apply filter_len_le].
Qed.

Lemma isBinary_share_is_exact_witness :
  isBinary_bytes [xe9; x01; x02; x63; x64; x65; x66; x67; x68; x69] =
  (len [xe9; x01; x02; x63; x64; x65; x66; x67; x68; x69] <?
   10 * len (List.filter is_ctrl [xe9; x01; x02; x63; x64; x65; x66; x67; x68; x69])).
Proof.
  apply (isBinary_share_is_exact [xe9; x01; x02; x63; x64; x65; x66; x67; x68; x69]).
  - vm_compute. discriminate.
  - intros H. repeat (apply elem_of_cons in H as [H|H]; [discriminate|]).
    apply elem_of_nil in H. exact H.
  - reflexivity.
Defined.

(** * The view *)

Lemma tree_size_child t i c :
  children t !! i = Some c -> (tree_size c < tree_size t)%nat.
Proof.
  destruct t as [nm rel d cs dep e s]. cbn [children].
  change (tree_size (mkNode nm rel d cs dep e s)) with (S (list_sum (map tree_size cs))).
  revert i. induction cs as [|c0 cs IH]; intros [|i] H; simpl in *; try discriminate.
  - injection H as ->. lia.
  - specialize (IH i H). lia.
Qed.

Lemma deref_length_lt p : forall t n,
  deref t p = Some n -> (length p < tree_size t)%nat.
Proof.
  induction p as [|i p IH]; intros t n Hd; simpl in Hd.
  - destruct t; simpl; lia.
  - destruct (children t !! i) as [c|] eqn:Ec; [|discriminate]. simpl in Hd.
    specialize (IH c n Hd). pose proof (tree_size_child t i c Ec). simpl. lia.
Qed.

Lemma reachable_wf t bs repo bin m d :
  wf_node d t -> reachable (newModel t bs repo bin) m -> wf_node d (root m).
Proof.
  intros Hwf. induction 1 as [|m ms m' c _ IH HU]; [exact Hwf|].
  destruct (Update_root _ _ _ _ HU) as (f & p & Hf & ->).
  apply wf_store; assumption.
Qed.

(** In a state of a session every row of the window can be written. *)
Lemma View_row_Some t m i :
  wf_node 0 t ->
  2 * Z.of_nat (tree_size t) <= int_max ->
  wf_node 0 (root m) ->
  consistent t m ->
  0 <= i < len (vis m) ->
  exists row rest,
    View_row m i = Some row /\
    row = String.append (if i =? cursor m then ">"%string else " "%string) rest.
Proof.
  intros _ Hb Hwf (Hs & Hv & _) Hi. unfold View_row.
  destruct (Z.ltb_spec i 0); [lia|].
  destruct (lookup_lt_is_Some_2 (vis m) (Z.to_nat i)) as [p Hp]; [unfold len in Hi; lia|].
  rewrite Hp. cbn [mbind option_bind].
  assert (Hvis : visible (root m) p).
  { apply elem_of_flattenVisible. rewrite <- Hv. eapply list_elem_of_lookup_2, Hp. }
  destruct (visible_deref _ _ Hvis) as [n Hn]. rewrite Hn. cbn [mbind option_bind].
  assert (Hdep : depth n = 0 + len p)
    by (pose proof (wf_node_deref _ _ Hwf p n Hn) as Hwn; inversion Hwn; assumption).
  pose proof (deref_length_lt p _ n Hn) as Hlt. rewrite Hs in Hlt.
  unfold strings_Repeat_checked. rewrite Hdep.
  destruct (Z.ltb_spec (0 + len p) 0); [pose proof (len_nonneg p); lia|].
  change (Z.of_nat (String.length "  ")) with 2.
  destruct (Z.ltb_spec int_max (2 * (0 + len p))); [unfold len in *; lia|].
  cbn [mbind option_bind].
  destruct (isDir n); eexists; eexists; (split; [reflexivity|]);
    rewrite ?string_app_assoc; reflexivity.
Qed.

Lemma string_prefix_mark (a b : ascii) rest :
  String.prefix (String a EmptyString) (String.append (String b EmptyString) rest) = true
  <-> a = b.
Proof.
  rewrite string_app_cons.
  change (String.prefix (String a "") (String b (String.append "" rest)))
    with (if ascii_dec a b then String.prefix "" (String.append "" rest) else false).
  destruct (ascii_dec a b) as [->|Hne].
  - split; [reflexivity|]. intros _. destruct (String.append "" rest); reflexivity.
  - split; [discriminate | contradiction].
Qed.

(** X20.  In every state of a session [View] returns a text: the status
    line, one row for each visible node of the window, the help.  The window
    has as many rows as fit, the row of the cursor is among them, and it is
    the only row that starts with the mark [>]. *)
Theorem View_marks_the_cursor_row start files t bs repo bin m helpView :
  Forall (fun f => Z.of_nat (String.length f) < int_max) files ->
  buildTree start files = Some t ->
  2 * Z.of_nat (tree_size t) <= int_max ->
  reachable (newModel t bs repo bin) m ->
  exists rows,
    View helpView m =
      Some (View_status m +:+ newline +:+ String.concat "" rows +:+ helpView) /\
    len rows = Z.min (viewportHeight m) (len (vis m) - offset m) /\
    (forall j row, rows !! j = Some row ->
       View_row m (offset m + Z.of_nat j) = Some row /\
       (String.prefix ">" row = true <-> offset m + Z.of_nat j = cursor m)) /\
    is_Some (rows !! Z.to_nat (cursor m - offset m)).
Proof.
  intros Hlen Ht Hb Hr.
  destruct (buildTree_wf _ _ _ Hlen Ht) as [Hwf _].
  pose proof (reachable_wf _ _ _ _ _ _ Hwf Hr) as Hwfm.
  assert (Hb1 : Z.of_nat (tree_size t) <= int_max) by lia.
  pose proof (reachable_consistent _ _ _ _ _ Hb1 Hr) as Hcons.
  pose proof Hcons as (Hs & Hv & Hc & (Hsc1 & Hsc2)).
  pose proof (viewportHeight_range m) as Hvh.
  pose proof (flattenVisible_len (root m)) as HL. rewrite <- Hv, Hs in HL.
  set (vh := viewportHeight m) in *.
  assert (Hend : (if len (vis m) <? int_add (offset m) vh then len (vis m)
                  else int_add (offset m) vh) - offset m
                 = Z.min vh (len (vis m) - offset m)).
  { rewrite int_add_id by (unfold is_int, int_min, int_max in *; lia).
    destruct (Z.ltb_spec (len (vis m)) (offset m + vh)); lia. }
  assert (Hrows : exists rows,
            mapM (View_row m) (seqZ (offset m) (Z.min vh (len (vis m) - offset m)))
              = Some rows).
  { apply mapM_is_Some_2, Forall_seqZ. intros i Hi.
    destruct (View_row_Some t m i Hwf Hb Hwfm Hcons) as (row & rest & Hrow & _); [lia|].
    unfold compose. rewrite Hrow. eauto. }
  destruct Hrows as [rows Hrows]. exists rows.
  assert (Hlenrows : length rows = Z.to_nat (Z.min vh (len (vis m) - offset m))).
  { rewrite <- (length_mapM _ _ _ Hrows). apply length_seqZ. }
  split; [|split; [|split]].
  - unfold View. destruct (Z.eqb_spec (len (vis m)) 0); [lia|].
    unfold View_rows. fold vh. cbv zeta. rewrite Hend, Hrows. reflexivity.
  - unfold len at 1. rewrite Hlenrows. lia.
  - intros j row Hj. apply mapM_Some_1 in Hrows.
    destruct (Forall2_lookup_r _ _ _ _ _ Hrows Hj) as (i & Hi & Hrow).
    apply lookup_seqZ in Hi as [-> Hjlt].
    split; [exact Hrow|].
    destruct (View_row_Some t m (offset m + Z.of_nat j) Hwf Hb Hwfm Hcons)
      as (row' & rest & Hrow' & Heq); [lia|].
    rewrite Hrow in Hrow'. injection Hrow' as <-. rewrite Heq.
    destruct (Z.eqb_spec (offset m + Z.of_nat j) (cursor m)) as [He|He].
    + split; [intros _; exact He | intros _; apply string_prefix_mark; reflexivity].
    + split; [|intros; contradiction].
      intros H. apply string_prefix_mark in H. discriminate.
  - apply lookup_lt_is_Some_2. rewrite Hlenrows. lia.
Qed.

Lemma View_marks_the_cursor_row_witness :
  exists rows,
    View "help" model_confirmed =
      Some (View_status model_confirmed +:+ newline +:+ String.concat "" rows +:+ "help") /\
    len rows =
      Z.min (viewportHeight model_confirmed)
            (len (vis model_confirmed) - offset model_confirmed) /\
    (forall j row, rows !! j = Some row ->
       View_row model_confirmed (offset model_confirmed + Z.of_nat j) = Some row /\
       (String.prefix ">" row = true <->
        offset model_confirmed + Z.of_nat j = cursor model_confirmed)) /\
    is_Some (rows !! Z.to_nat (cursor model_confirmed - offset model_confirmed)).
Proof.
  apply (View_marks_the_cursor_row "." files_example tree_three_files "" false false).
  - repeat (constructor; [vm_compute; reflexivity|]). constructor.
  - vm_compute. reflexivity.
  - vm_compute. discriminate.
  - apply (run_reachable _ msgs_example (newModel tree_three_files "" false false));
      [apply reach_init | vm_compute; reflexivity].
Defined.

(** The window of a session that was resized to four rows: the status
    line, the two rows that fit, the help. *)
Example View_example :
  View "help" model_down2 =
    Some ("fs | text | selected=0" +:+ newline +:+
          "   ▾ d/" +:+ newline +:+
          ">    [x] x" +:+ newline +:+ "help").
Proof. vm_compute. reflexivity. Qed.

(** * The program *)




(** * Finding the repository *)

Lemma has_slash_cons c s : has_slash (String c s) = Ascii.eqb c slash || has_slash s.
Proof. reflexivity. Qed.

Lemma upto_last_slash_cons c s :
  upto_last_slash (String c s) =
  if Ascii.eqb c slash || has_slash s then String c (upto_last_slash s) else EmptyString.
Proof. reflexivity. Qed.

Lemma strings_Split_String c s :
  strings_Split (String c s) slash =
  if Ascii.eqb c slash then EmptyString :: strings_Split s slash
  else match strings_Split s slash with
       | p :: ps => String c p :: ps
       | [] => [String c EmptyString]
       end.
Proof. reflexivity. Qed.

Lemma has_slash_Split s : has_slash s = false -> strings_Split s slash = [s].
Proof.
  induction s as [|c s IH]; [reflexivity|]. rewrite has_slash_cons. intros H.
  apply orb_false_elim in H as [Hc Hs].
  rewrite strings_Split_String, Hc, (IH Hs). reflexivity.
Qed.

Lemma upto_last_slash_none s : has_slash s = false -> upto_last_slash s = EmptyString.
Proof.
  destruct s as [|c s]; [reflexivity|]. rewrite has_slash_cons, upto_last_slash_cons.
  intros ->. reflexivity.
Qed.

Lemma has_slash_app a s :
  has_slash (String.append a (String.append "/" s)) = true.
Proof.
  induction a as [|c a IH]; [reflexivity|].
  rewrite string_app_cons, has_slash_cons, IH. apply orb_true_r.
Qed.

Lemma upto_last_slash_app a s :
  has_slash s = false ->
  upto_last_slash (String.append a (String.append "/" s)) = String.append a "/".
Proof.
  intros Hs. induction a as [|c a IH].
  - change (String.append "" (String.append "/" s)) with (String "/" s).
    rewrite upto_last_slash_cons, (upto_last_slash_none s Hs). reflexivity.
  - rewrite !(string_app_cons c a), upto_last_slash_cons, has_slash_app, orb_true_r, IH.
    reflexivity.
Qed.

Lemma strings_Join_snoc l s :
  l <> [] ->
  strings_Join (l ++ [s]) "/" =
  String.append (strings_Join l "/") (String.append "/" s).
Proof.
  induction l as [|x l IH]; intros Hne; [congruence|].
  destruct l as [|y l]; [reflexivity|].
  change (strings_Join ((x :: y :: l) ++ [s]) "/")
    with (String.append x (String.append "/" (strings_Join ((y :: l) ++ [s]) "/"))).
  rewrite IH by discriminate.
  change (strings_Join (x :: y :: l) "/")
    with (String.append x (String.append "/" (strings_Join (y :: l) "/"))).
  rewrite !string_app_assoc. reflexivity.
Qed.

Lemma strings_Split_Join l :
  Forall path_seg l -> l <> [] -> strings_Split (strings_Join l "/") slash = l.
Proof.
  induction 1 as [|x l [_ Hx] Hl IH]; intros Hne; [congruence|].
  destruct l as [|y l]; [apply has_slash_Split, Hx|].
  change (strings_Join (x :: y :: l) "/")
    with (String.append x (String.append "/" (strings_Join (y :: l) "/"))).
  rewrite strings_Split_app, (has_slash_Split x Hx), IH by discriminate. reflexivity.
Qed.

Lemma path_segs_normal l : Forall path_seg l -> forallb normal_seg l = true.
Proof.
  induction 1 as [|x l [Hx _] _ IH]; [reflexivity|]. simpl. rewrite Hx, IH. reflexivity.
Qed.

Lemma string_prefix_slash q : String.prefix "/" (String "/" q) = true.
Proof.
  change (String.prefix "/" (String "/" q))
    with (if ascii_dec "/" "/" then String.prefix "" q else false).
  destruct (ascii_dec "/" "/"); [destruct q; reflexivity | congruence].
Qed.

Lemma filepath_Clean_rooted q :
  filepath_Clean (String "/" q) =
  String.append "/"
    (strings_Join (rev (fold_left (clean_step true) (strings_Split (String "/" q) slash) []))
                  "/").
Proof. unfold filepath_Clean. rewrite string_prefix_slash. reflexivity. Qed.

(** [filepath.Dir] of an absolute path in normal form drops the last
    segment. *)
Lemma filepath_Dir_abs l s :
  Forall path_seg l -> path_seg s ->
  filepath_Dir (abs_path (l ++ [s])) = abs_path l.
Proof.
  intros Hl [_ Hs]. unfold filepath_Dir, abs_path.
  destruct l as [|x l].
  - change (String "/" (strings_Join ([] ++ [s]) "/"))
      with (String.append "" (String.append "/" s)).
    rewrite (upto_last_slash_app "" s Hs). reflexivity.
  - rewrite strings_Join_snoc by discriminate.
    set (a := strings_Join (x :: l) "/").
    change (String "/" (String.append a (String.append "/" s)))
      with (String.append (String "/" a) (String.append "/" s)).
    rewrite (upto_last_slash_app _ s Hs).
    rewrite string_app_cons, filepath_Clean_rooted.
    change (String "/" (String.append a "/"))
      with (String.append "" (String.append "/" (String.append a (String.append "/" "")))).
    rewrite !strings_Split_app. unfold a.
    rewrite (strings_Split_Join (x :: l) Hl) by discriminate.
    change (strings_Split "" slash) with [""%string].
    rewrite !fold_left_app.
    change (fold_left (clean_step true) [""%string] []) with (@nil string).
    rewrite (fold_clean_step_normal true (x :: l) [] (path_segs_normal _ Hl)).
    rewrite app_nil_r.
    change (fold_left (clean_step true) [""%string] (rev (x :: l))) with (rev (x :: l)).
    rewrite rev_involutive. reflexivity.
Qed.

Lemma abs_path_length l s :
  (String.length (abs_path l) < String.length (abs_path (l ++ [s])) \/ s = ""%string)%nat.
Proof.
  unfold abs_path. destruct s as [|c s]; [right; reflexivity|]. left.
  destruct l as [|x l].
  - simpl. lia.
  - rewrite strings_Join_snoc by discriminate.
    cbn [String.length]. rewrite !string_length_append. simpl. lia.
Qed.

Lemma abs_path_fuel l :
  Forall path_seg l -> (length l <= String.length (abs_path l))%nat.
Proof.
  induction l as [|s l IH] using rev_ind; intros H; [simpl; lia|].
  apply Forall_app in H as [Hl Hs]. apply Forall_cons in Hs as [[Hs _] _].
  rewrite length_app. cbn [length].
  destruct (abs_path_length l s) as [Hlt | ->]; [|discriminate].
  specialize (IH Hl). lia.
Qed.

(** The loop, started at an absolute path in normal form with enough fuel,
    stops at the first directory on the way up that holds [.git], and
    reports that there is none when it has passed the root. *)
Lemma findGitRoot_loop_spec isGitDir l : forall fuel,
  Forall path_seg l -> (length l < fuel)%nat ->
  (exists k, (k <= length l)%nat /\
     findGitRoot_loop isGitDir fuel (abs_path l) = Some (abs_path (take k l), true) /\
     isGitDir (filepath_Join (abs_path (take k l)) ".git") = true /\
     forall j, (k < j <= length l)%nat ->
       isGitDir (filepath_Join (abs_path (take j l)) ".git") = false) \/
  (findGitRoot_loop isGitDir fuel (abs_path l) = Some (EmptyString, false) /\
   forall j, (j <= length l)%nat ->
     isGitDir (filepath_Join (abs_path (take j l)) ".git") = false).
Proof.
  induction l as [|s l IH] using rev_ind; intros fuel Hl Hfuel.
  - destruct fuel as [|fuel]; [simpl in Hfuel; lia|].
    cbn [findGitRoot_loop]. cbv zeta.
    destruct (isGitDir (filepath_Join (abs_path []) ".git")) eqn:E.
    + left. exists O. split; [lia|]. split; [reflexivity|]. split; [exact E|].
      intros j Hj. simpl in Hj. lia.
    + right. split; [reflexivity|]. intros j Hj. simpl in Hj.
      replace j with O by lia. exact E.
  - apply Forall_app in Hl as [Hl Hs]. apply Forall_cons in Hs as [Hs _].
    rewrite length_app in Hfuel. simpl in Hfuel.
    destruct fuel as [|fuel]; [lia|].
    cbn [findGitRoot_loop]. cbv zeta.
    assert (Hfull : take (length (l ++ [s])) (l ++ [s]) = l ++ [s]) by apply firstn_all.
    destruct (isGitDir (filepath_Join (abs_path (l ++ [s])) ".git")) eqn:E.
    + left. exists (length (l ++ [s])). split; [lia|]. rewrite Hfull.
      split; [reflexivity|]. split; [exact E|]. intros j Hj. lia.
    + rewrite (filepath_Dir_abs l s Hl Hs).
      assert (Hne : String.eqb (abs_path l) (abs_path (l ++ [s])) = false).
      { apply String.eqb_neq. intros Heq.
        destruct (abs_path_length l s) as [Hlt | ->].
        - rewrite Heq in Hlt. lia.
        - destruct Hs as [Hs _]. discriminate. }
      rewrite Hne.
      assert (Hsame : forall j, (j <= length l)%nat -> take j (l ++ [s]) = take j l).
      { intros j Hj. apply take_app_le. exact Hj. }
      assert (Hlast : forall j, (j <= length (l ++ [s]))%nat -> ~ (j <= length l)%nat ->
                take j (l ++ [s]) = l ++ [s]).
      { intros j Hj Hn. rewrite length_app in Hj. simpl in Hj.
        replace j with (length (l ++ [s])) by (rewrite length_app; simpl; lia).
        exact Hfull. }
      destruct (IH fuel Hl) as [(k & Hk & Hres & Hgit & Hnone) | (Hres & Hnone)]; [lia| |].
      * left. exists k. split; [rewrite length_app; lia|].
        rewrite (Hsame k Hk). split; [exact Hres|]. split; [exact Hgit|].
        intros j Hj. destruct (le_dec j (length l)) as [Hle|Hgt].
        -- rewrite (Hsame j Hle). apply Hnone. lia.
        -- rewrite (Hlast j) by lia. exact E.
      * right. split; [exact Hres|].
        intros j Hj. destruct (le_dec j (length l)) as [Hle|Hgt].
        -- rewrite (Hsame j Hle). apply Hnone. exact Hle.
        -- rewrite (Hlast j) by lia. exact E.
Qed.

(** The empty start, which is no absolute path: the loop goes from the
    empty path to [.] and ends there, in its second turn. *)
Lemma findGitRoot_empty_start isGitDir :
  findGitRoot isGitDir "" = Some (EmptyString, isGitDir ".git"%string).
Proof.
  unfold findGitRoot. cbn [String.length findGitRoot_loop]. cbv zeta.
  change (filepath_Join "" ".git") with ".git"%string.
  change (filepath_Dir "") with "."%string.
  change (filepath_Join "." ".git") with ".git"%string.
  change (filepath_Dir ".") with "."%string.
  destruct (isGitDir ".git"); reflexivity.
Qed.

(** X22.  Started in a directory given by its absolute path in normal
    form, [findGitRoot] ends, and it returns the nearest directory on the
    way up to the root (the start among them) that holds a directory
    [.git]; it reports that there is none exactly when no directory on the
    way holds one. *)
Theorem findGitRoot_nearest_repository isGitDir segs :
  Forall path_seg segs ->
  (exists k, (k <= length segs)%nat /\
     findGitRoot isGitDir (abs_path segs) = Some (abs_path (take k segs), true) /\
     isGitDir (filepath_Join (abs_path (take k segs)) ".git") = true /\
     forall j, (k < j <= length segs)%nat ->
       isGitDir (filepath_Join (abs_path (take j segs)) ".git") = false) \/
  (findGitRoot isGitDir (abs_path segs) = Some (EmptyString, false) /\
   forall j, (j <= length segs)%nat ->
     isGitDir (filepath_Join (abs_path (take j segs)) ".git") = false).
Proof.
  intros Hsegs. unfold findGitRoot.
  apply findGitRoot_loop_spec; [exact Hsegs|].
  pose proof (abs_path_fuel segs Hsegs). lia.
Qed.

Lemma findGitRoot_nearest_repository_witness :
  findGitRoot (String.eqb "/home/u/.git") (abs_path ["home"; "u"; "src"; "pkg"]%string) =
    Some ("/home/u"%string, true).
Proof.
  destruct (findGitRoot_nearest_repository (String.eqb "/home/u/.git")
              ["home"; "u"; "src"; "pkg"]%string)
    as [(k & Hk & Hres & Hgit & _) | (_ & Hnone)].
  - repeat (constructor; [split; reflexivity|]). constructor.
  - destruct k as [|[|[|[|[|k]]]]];
      try (vm_compute in Hgit; discriminate). exact Hres.
  - specialize (Hnone 2%nat ltac:(simpl; lia)). vm_compute in Hnone. discriminate.
Defined.

(** * No path twice *)

Lemma deref_resolve_names p : forall t d n,
  wf_node d t -> deref t p = Some n -> resolve t (names_to t p) = Some n.
Proof.
  induction p as [|i p IH]; intros t d n Hwf Hd; simpl in Hd.
  - injection Hd as <-. reflexivity.
  - destruct (children t !! i) as [c|] eqn:Ec; [|discriminate]. simpl in Hd.
    cbn [names_to]. rewrite Ec.
    destruct Hwf as [d t _ Hnd Hleaf Hcs].
    assert (Hdir : isDir t = true).
    { destruct (isDir t); [reflexivity|]. rewrite Hleaf in Ec by reflexivity. discriminate. }
    destruct (child_from_unique (name c) (children t) c O Hnd) as [j Hj];
      [eapply list_elem_of_lookup_2, Ec | reflexivity|].
    simpl. rewrite (child_dir _ _ Hdir), Hj. simpl.
    apply (IH c (d + 1)); [|exact Hd]. eapply Forall_lookup_1; eassumption.
Qed.

(** With distinct sibling names, two positions with the same names on the
    way are the same position. *)
Lemma names_to_inj p1 : forall t d p2 n1 n2,
  wf_node d t -> deref t p1 = Some n1 -> deref t p2 = Some n2 ->
  names_to t p1 = names_to t p2 -> p1 = p2.
Proof.
  induction p1 as [|i1 p1 IH]; intros t d p2 n1 n2 Hwf H1 H2 Heq.
  - destruct p2 as [|i2 p2]; [reflexivity|]. simpl in H2, Heq.
    destruct (children t !! i2); [discriminate Heq | discriminate H2].
  - simpl in H1. destruct (children t !! i1) as [c1|] eqn:E1; [|discriminate].
    simpl in H1. cbn [names_to] in Heq. rewrite E1 in Heq.
    destruct p2 as [|i2 p2]; [discriminate|].
    simpl in H2. destruct (children t !! i2) as [c2|] eqn:E2; [|discriminate].
    simpl in H2. cbn [names_to] in Heq. rewrite E2 in Heq.
    injection Heq as Hn Hrest.
    destruct Hwf as [d t _ Hnd _ Hcs].
    assert (Hi : i1 = i2).
    { apply (NoDup_lookup _ _ _ (name c1) Hnd); rewrite list_lookup_fmap.
      - rewrite E1. reflexivity.
      - rewrite E2, Hn. reflexivity. }
    subst i2. rewrite E1 in E2. injection E2 as <-.
    f_equal. apply (IH c1 (d + 1) p2 n1 n2); try assumption.
    eapply Forall_lookup_1; eassumption.
Qed.

(** X23.  No path stands twice in the result of [selectedFiles], when the
    paths of the listing are in normal form: each selected file gets one
    block in the document. *)
Theorem selectedFiles_has_no_duplicates start files t bs repo bin m :
  Forall (fun f => Z.of_nat (String.length f) < int_max) files ->
  buildTree start files = Some t ->
  start = "."%string \/ normal_path start = true ->
  (forall f ps, f ∈ files -> path_parts start f = Some ps ->
                forallb normal_seg ps = true) ->
  reachable (newModel t bs repo bin) m ->
  NoDup (selectedFiles m).
Proof.
  intros Hlen Ht Hstart Hnorm Hr.
  unfold selectedFiles, sort_Strings.
  rewrite (sort_Slice_Permutation String.ltb), walkSelected_selPtrs.
  destruct (buildTree_wf _ _ _ Hlen Ht) as [Hwf _].
  pose proof (reachable_erase _ _ _ _ _ Hr) as Herase.
  assert (Hfile : forall p, p ∈ selPtrs (root m) ->
            exists n0 f,
              deref t p = Some n0 /\ path_at (root m) p = f /\
              path_parts start f = Some (names_to t p)).
  { intros p Hp. apply selPtrs_sound in Hp as (n & Hn & Hsel).
    destruct (deref_erase p _ t n Herase Hn) as (n0 & Hn0 & He).
    assert (Hrel : relBase n = relBase n0).
    { destruct (erase_keys n) as (_ & <- & _). destruct (erase_keys n0) as (_ & <- & _).
      rewrite He. reflexivity. }
    assert (Hf : isDir n0 = false).
    { destruct (erase_keys n0) as (_ & _ & <- & _). rewrite <- He.
      destruct (erase_keys n) as (_ & _ & -> & _).
      unfold is_selected_file in Hsel. destruct (isDir n); [discriminate | reflexivity]. }
    pose proof (deref_resolve_names p t 0 n0 Hwf Hn0) as Hq.
    assert (Hne : names_to t p <> []).
    { intros Hnil. rewrite Hnil in Hq. simpl in Hq. injection Hq as <-.
      rewrite (buildTree_root_isDir _ _ _ Ht) in Hf. discriminate. }
    destruct (buildTree_node_origin _ _ _ _ _ Hlen Ht Hne Hq)
      as (f & ps & Hin & Hps & _ & Hiff).
    apply Hiff in Hf. subst ps.
    destruct (buildTree_relBase _ _ _ _ _ _ Hlen Ht Hstart Hps (Hnorm _ _ Hin Hps) Hq)
      as [Hpath _].
    exists n0, f. split; [exact Hn0|]. split; [|exact Hps].
    unfold path_at. rewrite Hn, Hrel. exact Hpath. }
  apply NoDup_fmap_2_strong; [|apply NoDup_selPtrs].
  intros p1 p2 Hp1 Hp2 Heq.
  destruct (Hfile p1 Hp1) as (n1 & f1 & Hn1 & Hf1 & Hq1).
  destruct (Hfile p2 Hp2) as (n2 & f2 & Hn2 & Hf2 & Hq2).
  apply (names_to_inj p1 t 0 p2 n1 n2 Hwf Hn1 Hn2).
  assert (Hff : f1 = f2) by congruence.
  rewrite Hff in Hq1. rewrite Hq1 in Hq2. injection Hq2 as Hq2. exact Hq2.
Qed.

Lemma selectedFiles_has_no_duplicates_witness : NoDup (selectedFiles model_confirmed).
Proof.
  apply (selectedFiles_has_no_duplicates "." files_example tree_three_files "" false false).
  - repeat (constructor; [vm_compute; reflexivity|]). constructor.
  - vm_compute. reflexivity.
  - left. reflexivity.
  - intros f ps Hf.
    repeat (apply elem_of_cons in Hf as [->|Hf]);
      [| | |apply elem_of_nil in Hf; contradiction];
      vm_compute; intros H; injection H as <-; reflexivity.
  - apply (run_reachable _ msgs_example (newModel tree_three_files "" false false));
      [apply reach_init | vm_compute; reflexivity].
Defined.

(** * The tree does not depend on the order of the listing *)

Lemma finalizeTree_rel n : Every rel_linked n -> Every rel_linked (finalizeTree n).
Proof.
  induction n as [n IH] using node_ind_children. intros HE.
  destruct HE as [n HQ Hcs]. unfold rel_linked in HQ.
  destruct (isDir n) eqn:Hd; [|rewrite (finalizeTree_file n Hd); constructor; assumption].
  rewrite (finalizeTree_dir n Hd). cbv zeta.
  rewrite Forall_forall in IH, HQ, Hcs.
  constructor; [unfold rel_linked|]; cbn [children relBase set_expanded set_children];
    apply Forall_fmap, Forall_forall; intros c Hc; simpl;
    rewrite (sort_Slice_Permutation node_less) in Hc.
  - destruct (finalizeTree_keys c) as (-> & _ & _ & -> & _). apply HQ, Hc.
  - apply IH; [exact Hc | apply Hcs, Hc].
Qed.

Lemma buildTree_canonical start files t :
  Forall (fun f => Z.of_nat (String.length f) < int_max) files ->
  buildTree start files = Some t ->
  canonical 0 t /\ name t = start /\ relBase t = start /\ isDir t = true.
Proof.
  intros Hlen Ht.
  destruct (buildTree_wf _ _ _ Hlen Ht) as [Hwf Hsorted].
  pose proof (buildTree_Every_default _ _ _ Ht) as Hflags.
  pose proof (buildTree_root_isDir _ _ _ Ht) as Hdir.
  unfold buildTree in Ht.
  destruct (insertPaths start _ files) as [r|] eqn:E; [|discriminate].
  simpl in Ht. injection Ht as <-.
  assert (HE0 : Every rel_linked (newDir None start (filepath_FromSlash start)))
    by (constructor; constructor).
  destruct (insertPaths_rel start files _ r HE0 E) as [HE Hroot].
  assert (Hwf0 : wf_node 0 (newDir None start (filepath_FromSlash start)))
    by (constructor; simpl; [reflexivity | constructor | discriminate | constructor]).
  destruct (insertPaths_wf start files _ r Hlen Hwf0 E) as [_ Hname].
  destruct (finalizeTree_keys r) as (Hn & _ & _ & Hrel & _).
  split; [|split; [|split]].
  - split; [exact Hwf|]. split; [exact Hsorted|]. split; [exact Hflags|].
    apply finalizeTree_rel, HE.
  - rewrite Hn, Hname. reflexivity.
  - rewrite Hrel, Hroot. reflexivity.
  - exact Hdir.
Qed.

Lemma canonical_child d t i c :
  canonical d t -> children t !! i = Some c -> canonical (d + 1) c.
Proof.
  intros (Hwf & Hs & Hf & Hr) Hc.
  destruct Hwf as [d t _ _ _ Hcs]. destruct Hs as [t _ Hs].
  destruct Hf as [t _ Hf]. destruct Hr as [t _ Hr].
  unfold canonical. split; [|split; [|split]]; eapply Forall_lookup_1; eassumption.
Qed.

Lemma key_le_precedes a b : precedes node_less a b -> key_le (sort_key a) (sort_key b).
Proof. intros H. apply node_precedes_iff in H. exact H. Qed.

Lemma key_le_antisym : AntiSymm eq key_le.
Proof.
  intros [d1 n1] [d2 n2] [[H1 H2]|[H1 H2]] [[H3 H4]|[H3 H4]]; simpl in *; try congruence.
  f_equal; [exact H1|]. apply (anti_symm String.le); assumption.
Qed.

(** A child of a directory with distinct sibling names is the node that
    its name leads to. *)
Lemma resolve_child t d i c q :
  wf_node d t -> children t !! i = Some c ->
  resolve t (name c :: q) = resolve c q.
Proof.
  intros Hwf Hc. destruct Hwf as [d t _ Hnd Hleaf _].
  assert (Hdir : isDir t = true).
  { destruct (isDir t); [reflexivity|]. rewrite Hleaf in Hc by reflexivity. discriminate. }
  destruct (child_from_unique (name c) (children t) c O Hnd) as [j Hj];
    [eapply list_elem_of_lookup_2, Hc | reflexivity|].
  simpl. rewrite (child_dir _ _ Hdir), Hj. reflexivity.
Qed.

Lemma same_keys t1 t2 d :
  wf_node d t1 -> wf_node d t2 ->
  (forall q, isDir <$> resolve t1 q = isDir <$> resolve t2 q) ->
  forall k, k ∈ map sort_key (children t1) -> k ∈ map sort_key (children t2).
Proof.
  intros Hwf1 Hwf2 Hres k Hk.
  apply list_elem_of_fmap in Hk as (c1 & -> & Hc1).
  apply list_elem_of_lookup_1 in Hc1 as [i Hi].
  specialize (Hres [name c1]). rewrite (resolve_child t1 d i c1 [] Hwf1 Hi) in Hres.
  simpl in Hres.
  destruct (child t2 (name c1)) as [[j c2]|] eqn:E2; [|discriminate].
  simpl in Hres. injection Hres as Hk.
  apply child_Some in E2 as (_ & Hj & Hn).
  apply list_elem_of_fmap. exists c2. split.
  - unfold sort_key. rewrite Hn, Hk. reflexivity.
  - eapply list_elem_of_lookup_2, Hj.
Qed.

Lemma NoDup_sort_keys d t : wf_node d t -> NoDup (map sort_key (children t)).
Proof.
  intros [d' t' _ Hnd _ _]. apply (NoDup_fmap_1 snd).
  rewrite <- list_fmap_compose. exact Hnd.
Qed.

(** Two trees in canonical form with the same root and the same kind of
    node at every path of names are the same tree. *)
Lemma canonical_ext t1 : forall t2 d,
  canonical d t1 -> canonical d t2 ->
  name t1 = name t2 -> relBase t1 = relBase t2 -> isDir t1 = isDir t2 ->
  (forall q, isDir <$> resolve t1 q = isDir <$> resolve t2 q) ->
  t1 = t2.
Proof.
  induction t1 as [t1 IH] using node_ind_children.
  intros t2 d Hc1 Hc2 Hname Hrel Hdir Hres.
  pose proof Hc1 as (Hwf1 & Hs1 & Hf1 & Hr1). pose proof Hc2 as (Hwf2 & Hs2 & Hf2 & Hr2).
  assert (Hkeys : map sort_key (children t1) = map sort_key (children t2)).
  { apply (@StronglySorted_unique _ key_le key_le_antisym).
    - destruct Hs1 as [t1 Hs1 _]. apply (StronglySorted_fmap _ _ _ _ key_le_precedes Hs1).
    - destruct Hs2 as [t2 Hs2 _]. apply (StronglySorted_fmap _ _ _ _ key_le_precedes Hs2).
    - apply NoDup_Permutation;
        [eapply NoDup_sort_keys; eassumption | eapply NoDup_sort_keys; eassumption|].
      intros k. split.
      + apply (same_keys t1 t2 d Hwf1 Hwf2 Hres).
      + apply (same_keys t2 t1 d Hwf2 Hwf1). intros q. symmetry. apply Hres. }
  assert (Hchildren : children t1 = children t2).
  { apply (list_eq_same_length _ _ (length (children t2))); [reflexivity | |].
    - rewrite <- (length_map sort_key), Hkeys, length_map. reflexivity.
    - intros i c1 c2 _ H1 H2.
      assert (Hk : sort_key c1 = sort_key c2).
      { assert (map sort_key (children t1) !! i = Some (sort_key c1)) as Hl
          by (rewrite list_lookup_fmap, H1; reflexivity).
        rewrite Hkeys, list_lookup_fmap, H2 in Hl. simpl in Hl. congruence. }
      injection Hk as Hkd Hkn.
      rewrite Forall_forall in IH.
      apply (IH c1 (list_elem_of_lookup_2 _ _ _ H1) c2 (d + 1)).
      + apply (canonical_child d t1 i c1 Hc1 H1).
      + apply (canonical_child d t2 i c2 Hc2 H2).
      + exact Hkn.
      + destruct Hr1 as [t1 Hr1 _]. destruct Hr2 as [t2 Hr2 _].
        rewrite (Forall_lookup_1 _ _ _ _ Hr1 H1), (Forall_lookup_1 _ _ _ _ Hr2 H2).
        rewrite Hrel, Hkn. reflexivity.
      + exact Hkd.
      + intros q. rewrite <- (resolve_child t1 d i c1 q Hwf1 H1).
        rewrite <- (resolve_child t2 d i c2 q Hwf2 H2). rewrite Hkn. apply Hres. }
  destruct Hwf1 as [d1 t1 Hd1 _ _ _]. destruct Hwf2 as [d2 t2 Hd2 _ _ _].
  destruct Hf1 as [t1 (Hsel1 & Hexp1 & _) _]. destruct Hf2 as [t2 (Hsel2 & Hexp2 & _) _].
  destruct t1, t2. simpl in *. subst. reflexivity.
Qed.

Lemma buildTree_reaches start files t f ps q :
  Forall (fun f => Z.of_nat (String.length f) < int_max) files ->
  buildTree start files = Some t ->
  f ∈ files -> path_parts start f = Some ps -> q `prefix_of` ps ->
  is_Some (resolve t q).
Proof.
  intros Hlen Ht Hf Hps Hp.
  destruct (buildTree_resolve _ _ _ Hlen Ht) as (r & Hr & Hres).
  rewrite Hres.
  destruct (resolve_prefix r q ps Hp (insertPaths_resolves _ _ _ _ _ _ Hf Hps Hr))
    as [n ->].
  simpl. eauto.
Qed.

(** On a listing in which no path lies below another the kind of a node
    goes by the listing alone: a file stands exactly at the paths of the
    listing. *)
Lemma node_kind_by_listing start files t q n :
  Forall (fun f => Z.of_nat (String.length f) < int_max) files ->
  no_file_below_file start files ->
  buildTree start files = Some t ->
  q <> [] -> resolve t q = Some n ->
  (isDir n = false <-> exists f, f ∈ files /\ path_parts start f = Some q).
Proof.
  intros Hlen Hfree Ht Hq Hn.
  destruct (buildTree_node_origin _ _ _ _ _ Hlen Ht Hq Hn) as (f & ps & Hf & Hps & Hp & Hiff).
  split.
  - intros Hk. apply Hiff in Hk. subst ps. eauto.
  - intros (g & Hg & Hgq). apply Hiff.
    apply (Hfree g f q ps Hg Hf Hgq Hps Hp).
Qed.

(** X24.  On a listing in which no path lies below another, [buildTree]
    returns the same tree for every order of the listing. *)
Theorem buildTree_order_independent start l1 l2 :
  Forall (fun f => Z.of_nat (String.length f) < int_max) l1 ->
  no_file_below_file start l1 ->
  l1 ≡ₚ l2 ->
  exists t, buildTree start l1 = Some t /\ buildTree start l2 = Some t.
Proof.
  intros Hlen1 Hfree1 Hperm.
  assert (Hmem : forall f, f ∈ l1 <-> f ∈ l2) by (intros f; rewrite Hperm; reflexivity).
  assert (Hlen2 : Forall (fun f => Z.of_nat (String.length f) < int_max) l2)
    by (rewrite <- Hperm; exact Hlen1).
  assert (Hfree2 : no_file_below_file start l2).
  { intros f g ps qs Hf Hg. apply Hfree1; apply Hmem; assumption. }
  assert (Ht1 : exists t1, buildTree start l1 = Some t1).
  { unfold buildTree.
    destruct (insertPaths_total start (newDir None start (filepath_FromSlash start))
                l1 [] _ eq_refl eq_refl eq_refl Hfree1) as [r ->].
    simpl. eauto. }
  assert (Ht2 : exists t2, buildTree start l2 = Some t2).
  { unfold buildTree.
    destruct (insertPaths_total start (newDir None start (filepath_FromSlash start))
                l2 [] _ eq_refl eq_refl eq_refl Hfree2) as [r ->].
    simpl. eauto. }
  destruct Ht1 as [t1 Ht1]. destruct Ht2 as [t2 Ht2].
  exists t1. split; [exact Ht1|]. rewrite Ht2. f_equal. symmetry.
  destruct (buildTree_canonical _ _ _ Hlen1 Ht1) as (Hc1 & Hn1 & Hr1 & Hd1).
  destruct (buildTree_canonical _ _ _ Hlen2 Ht2) as (Hc2 & Hn2 & Hr2 & Hd2).
  apply (canonical_ext t1 t2 0 Hc1 Hc2); [congruence | congruence | congruence|].
  assert (Hone : forall la lb ta tb,
            Forall (fun f => Z.of_nat (String.length f) < int_max) la ->
            Forall (fun f => Z.of_nat (String.length f) < int_max) lb ->
            no_file_below_file start la -> no_file_below_file start lb ->
            (forall f, f ∈ la <-> f ∈ lb) ->
            buildTree start la = Some ta -> buildTree start lb = Some tb ->
            forall q n, q <> [] -> resolve ta q = Some n ->
              exists n', resolve tb q = Some n' /\ isDir n' = isDir n).
  { intros la lb ta tb Hla Hlb Hfa Hfb Hab Hta Htb q n Hq Hn.
    destruct (buildTree_node_origin _ _ _ _ _ Hla Hta Hq Hn) as (f & ps & Hf & Hps & Hp & _).
    destruct (buildTree_reaches _ _ _ _ _ _ Hlb Htb (proj1 (Hab f) Hf) Hps Hp) as [n' Hn'].
    exists n'. split; [exact Hn'|].
    pose proof (node_kind_by_listing _ _ _ _ _ Hla Hfa Hta Hq Hn) as Ha.
    pose proof (node_kind_by_listing _ _ _ _ _ Hlb Hfb Htb Hq Hn') as Hb.
    assert (Hiff : isDir n' = false <-> isDir n = false).
    { rewrite Ha, Hb. split; intros (g & Hg & Hgq); exists g; (split; [apply Hab, Hg | exact Hgq]). }
    destruct (isDir n'), (isDir n); try reflexivity.
    - apply Hiff. reflexivity.
    - symmetry. apply Hiff. reflexivity. }
  intros q. destruct q as [|x q]; [simpl; congruence|].
  destruct (resolve t1 (x :: q)) as [n1|] eqn:E1.
  - destruct (Hone l1 l2 t1 t2 Hlen1 Hlen2 Hfree1 Hfree2 Hmem Ht1 Ht2 (x :: q) n1)
      as (n2 & -> & Hk); [discriminate | exact E1|].
    simpl. congruence.
  - destruct (resolve t2 (x :: q)) as [n2|] eqn:E2; [|reflexivity].
    destruct (Hone l2 l1 t2 t1 Hlen2 Hlen1 Hfree2 Hfree1 (fun f => iff_sym (Hmem f))
                Ht2 Ht1 (x :: q) n2) as (n1 & Hn1' & _); [discriminate | exact E2|].
    congruence.
Qed.

Lemma buildTree_order_independent_witness :
  exists t, buildTree "." files_example = Some t /\
            buildTree "." ["a.go"; "d/b"; "d/x"]%string = Some t.
Proof.
  apply (buildTree_order_independent "." files_example ["a.go"; "d/b"; "d/x"]%string).
  - repeat (constructor; [vm_compute; reflexivity|]). constructor.
  - intros f g ps qs Hf Hg.
    repeat (apply elem_of_cons in Hf as [->|Hf]);
      [| | |apply elem_of_nil in Hf; contradiction];
      (repeat (apply elem_of_cons in Hg as [->|Hg]);
         [| | |apply elem_of_nil in Hg; contradiction]);
      vm_compute; intros H1 H2; injection H1 as <-; injection H2 as <-;
      intros [k Hk]; try reflexivity; discriminate.
  - unfold files_example.
    etransitivity; [apply Permutation_swap | apply perm_skip, Permutation_swap].
Defined.

(** * The fence of a binary block *)


